(** * pocketlang core: operators, subscripts, iteration and native bridge

    A shallow embedding of [src/core.c] and the properties its specification
    states about it.  The embedding follows the C text function by function:

    - a [Var] is the tagged value of the VM; a Number carries a binary64
      [float] (Rocq's primitive floats, whose operations are the IEEE-754
      ones the C compiler emits for [double]);
    - objects live in a heap and are referred to by address, so that the
      in-place updates of [varsetSubscript] are updates of the heap;
    - the VM is threaded through every function in a small state monad whose
      second outcome, [Abort], stands for the executions that never return
      to the caller (a failed assertion, [UNREACHABLE], undefined behaviour
      of the C abstract machine);
    - what lies outside core.c (var.c, common.h, <math.h>) is a field of
      [Host] where the code only calls it, and a definition marked as
      modelled from the specification where a property depends on it. *)

From Stdlib Require Import ZArith Lia Bool String Ascii Floats Uint63.
From stdpp Require Import base option list pretty.

Local Open Scope string_scope.
Local Open Scope Z_scope.

(** ** Numbers: C [double] and the integer conversions the code applies *)

Module Double.

(** Integer part of a binary64 value, rounding toward zero; [None] for the
    infinities and NaN, which have no integer part. *)
Definition SFint_part (x : spec_float) : option Z :=
  match x with
  | S754_zero _ => Some 0
  | S754_finite s m e =>
      Some (cond_Zopp s (if 0 <=? e then Z.pos m * 2 ^ e
                         else Z.pos m / 2 ^ (- e)))
  | S754_infinity _ | S754_nan => None
  end.

Definition int_part (d : float) : option Z := SFint_part (Prim2SF d).

(** [trunc] of <math.h>: the nearest integral value not larger in magnitude;
    zeros, infinities and NaN are returned as they are, and the sign is
    kept (trunc(-0.5) is -0.0). *)
Definition SFtrunc (x : spec_float) : spec_float :=
  match x with
  | S754_finite s m e =>
      if e <? 0
      then binary_normalize prec emax
             (cond_Zopp s (Z.pos m / 2 ^ (- e))) 0 s
      else x
  | _ => x
  end.

Definition trunc (d : float) : float := SF2Prim (SFtrunc (Prim2SF d)).

Definition INT32_MIN : Z := - 2 ^ 31.
Definition INT32_MAX : Z := 2 ^ 31 - 1.
Definition UINT32_MOD : Z := 2 ^ 32.

(** The cast [(int32_t)d].  C leaves it undefined when the integer part of
    [d] is not an [int32_t]: that is the [None] here. *)
Definition to_int32 (d : float) : option Z :=
  match int_part d with
  | Some z => if (INT32_MIN <=? z) && (z <=? INT32_MAX) then Some z else None
  | None => None
  end.

(** Conversion of an [int32_t] to [uint32_t] (modulo 2^32) and back
    (the usual two's complement reading). *)
Definition uint32_of_int32 (z : Z) : Z := z mod UINT32_MOD.
Definition int32_of_uint32 (n : Z) : Z :=
  if n <=? INT32_MAX then n else n - UINT32_MOD.

(** The cast [(double)n] of an unsigned 32-bit (or [size_t]) quantity. *)
Definition of_uint32 (n : Z) : float := PrimFloat.of_uint63 (Uint63.of_Z n).

(** The Number of the integer [z]: [(double)z] for [z >= 0], its negation
    for [z < 0]. *)
Definition of_Z (z : Z) : float :=
  if z <? 0 then (- of_uint32 (- z))%float else of_uint32 z.

(** The remaining definitions serve the proofs about integers in binary64.
    The conversion of an integer, as [of_uint63] is specified: *)
Definition SFofZ (z : Z) : spec_float := binary_normalize prec emax z 0 false.

(** A shift record with no bit lost. *)
Definition shr_exact (m : Z) : shr_record :=
  {| shr_m := m; shr_r := false; shr_s := false |}.

(** The binary64 number of sign [s] and magnitude [P], an integer below
    2^53: the 53-bit mantissa is [P] shifted left as far as it goes. *)
Definition SFint (s : bool) (P : Z) : spec_float :=
  S754_finite s (Z.to_pos (P * 2 ^ (52 - Z.log2 P))) (Z.log2 P - 52).

(** Closed form of the conversion of an integer below 2^53 in magnitude. *)
Definition SFcanon (z : Z) : spec_float :=
  if z =? 0 then S754_zero false else SFint (z <? 0) (Z.abs z).

End Double.

(** ** Values and objects *)

(** Heap addresses. *)
Definition loc := nat.

Inductive ObjectType :=
| OBJ_STRING | OBJ_LIST | OBJ_MAP | OBJ_RANGE
| OBJ_SCRIPT | OBJ_FUNC | OBJ_FIBER | OBJ_USER.

(** [VAR_UNDEF] is the internal marker of an absent value: the key of a free
    or tombstoned map slot and the result of a failed [mapGet]. *)
Inductive Var :=
| VAR_UNDEF
| VAR_NULL
| VAR_BOOL (b : bool)
| VAR_NUM (d : float)
| VAR_OBJ (p : loc).

Record MapEntry := { key : Var; value : Var }.

(** A map is its array of [capacity] slots. *)
Record Map := { entries : list MapEntry }.

Definition capacity (m : Map) : Z := Z.of_nat (length (entries m)).

Record Range := { from : float; to : float }.

(** The eight object kinds.  A String is its bytes ([length] is their
    number); a List is its element buffer ([count] is its length).  The
    internals of scripts, functions, fibers and user objects are not touched
    by the functions embedded here. *)
Inductive Object :=
| ObjString (data : string)
| ObjList (elements : list Var)
| ObjMap (m : Map)
| ObjRange (r : Range)
| ObjScript
| ObjFunc
| ObjFiber
| ObjUser.

Definition obj_type (o : Object) : ObjectType :=
  match o with
  | ObjString _ => OBJ_STRING
  | ObjList _ => OBJ_LIST
  | ObjMap _ => OBJ_MAP
  | ObjRange _ => OBJ_RANGE
  | ObjScript => OBJ_SCRIPT
  | ObjFunc => OBJ_FUNC
  | ObjFiber => OBJ_FIBER
  | ObjUser => OBJ_USER
  end.

Definition IS_UNDEF (v : Var) : bool :=
  match v with VAR_UNDEF => true | _ => false end.
Definition IS_NULL (v : Var) : bool :=
  match v with VAR_NULL => true | _ => false end.
Definition IS_BOOL (v : Var) : bool :=
  match v with VAR_BOOL _ => true | _ => false end.
Definition IS_NUM (v : Var) : bool :=
  match v with VAR_NUM _ => true | _ => false end.
Definition IS_OBJ (v : Var) : bool :=
  match v with VAR_OBJ _ => true | _ => false end.

(** ** The VM *)

(** The part of a fiber the native bridge sees: the window [ret[0..sp)] of
    its stack (slot 0 is the return slot, slots 1.. are the arguments) and
    the error channel, a pointer to a String or NULL. *)
Record Fiber := { ret : list Var; error : option loc }.

Record PKVM := { heap : list Object; fiber : option Fiber }.

Definition ARGC_of (f : Fiber) : Z := Z.of_nat (length (ret f)) - 1.

(** Why an execution does not return to its caller. *)
Inductive abort :=
| AbortTODO          (* the TODO placeholder, where it is compiled to abort *)
| AbortAssert        (* a failed ASSERT or __ASSERT *)
| AbortUnreachable   (* UNREACHABLE() *)
| AbortUndefined.    (* undefined behaviour: wild pointer, out-of-range cast *)

Inductive outcome (A : Type) :=
| Return (a : A) (vm : PKVM)
| Abort (why : abort).
Arguments Return {A} a vm.
Arguments Abort {A} why.

Definition M (A : Type) : Type := PKVM -> outcome A.

Definition pure {A} (a : A) : M A := fun vm => Return a vm.
Definition bind {A B} (m : M A) (k : A -> M B) : M B :=
  fun vm => match m vm with
            | Return a vm' => k a vm'
            | Abort w => Abort w
            end.
Definition crash {A} (w : abort) : M A := fun _ => Abort w.

Notation "'do' x <- m ; k" := (bind m (fun x => k))
  (at level 10, x name, m at level 100, k at level 200).
Notation "'run' m ; k" := (bind m (fun _ => k))
  (at level 10, m at level 100, k at level 200).

Definition get_heap : M (list Object) := fun vm => Return (heap vm) vm.

(** [vm->fiber], which must not be NULL where it is dereferenced. *)
Definition get_fiber : M Fiber :=
  fun vm => match fiber vm with
            | Some f => Return f vm
            | None => Abort AbortUndefined
            end.

Definition put_fiber (f : Fiber) : M unit :=
  fun vm => Return tt {| heap := heap vm; fiber := Some f |}.

(** [vm->fiber->error = p]. *)
Definition set_error (p : loc) : M unit :=
  do f <- get_fiber; put_fiber {| ret := ret f; error := Some p |}.

(** Allocation of a fresh object: the next free address is handed out. *)
Definition vmAlloc (o : Object) : M loc :=
  fun vm => Return (length (heap vm))
                   {| heap := heap vm ++ [o]; fiber := fiber vm |}.

(** Reading and writing the object behind a pointer. *)
Definition load (p : loc) : M Object :=
  fun vm => match heap vm !! p with
            | Some o => Return o vm
            | None => Abort AbortUndefined
            end.

Definition store (p : loc) (o : Object) : M unit :=
  fun vm => Return tt {| heap := <[p := o]> (heap vm); fiber := fiber vm |}.

(** [AS_OBJ(v)]: the pointer held by [v].  Applied to a value that is not an
    object it yields a wild pointer, which the code then dereferences. *)
Definition AS_OBJ (v : Var) : M loc :=
  match v with
  | VAR_OBJ p => pure p
  | _ => crash AbortUndefined
  end.

(** [(String* )p -> data] *)
Definition load_string (p : loc) : M string :=
  do o <- load p;
  match o with
  | ObjString data => pure data
  | _ => crash AbortUndefined
  end.

#[global] Instance ObjectType_eq_dec : EqDecision ObjectType.
Proof. solve_decision. Defined.

(** The message of the error channel, when it is set. *)
Definition error_message (vm : PKVM) : option string :=
  match fiber vm with
  | Some f =>
      match error f with
      | Some p =>
          match heap vm !! p with
          | Some (ObjString data) => Some data
          | _ => None
          end
      | None => None
      end
  | None => None
  end.

(** ** Parts of the runtime that are outside [core.c] *)

(** Modelled from the spec: [stringFormat] (var.c) is not in src.  It copies
    its format, replacing each [$] by the next C string argument and each [@]
    by the bytes of the next String argument; the messages quoted in the
    specification ("Assertion failed: '<string-form of message>'") are
    produced this way. *)
Fixpoint format (fmt : string) (args : list string) : string :=
  match fmt with
  | EmptyString => EmptyString
  | String c rest =>
      if (Ascii.eqb c "$" || Ascii.eqb c "@")%char
      then match args with
           | a :: args' => a ++ format rest args'
           | [] => format rest []
           end
      else String c (format rest args)
  end.

Definition stringFormat (fmt : string) (args : list string) : M loc :=
  vmAlloc (ObjString (format fmt args)).

Definition newString (text : string) : M loc := vmAlloc (ObjString text).

(** [newStringLength(vm, data + start, len)] *)
Definition newStringLength (data : string) (start len : nat) : M loc :=
  vmAlloc (ObjString (substring start len data)).

(** Modelled from the spec: [toBool] (var.c) is not in src.  Truthiness
    rule: Null and Bool(false) are false; every other value, including 0,
    the empty string and the empty List or Map, is true. *)
Definition toBool (v : Var) : bool :=
  match v with
  | VAR_NULL => false
  | VAR_BOOL b => b
  | _ => true
  end.

(** Modelled from the spec: [isObjectHashable] (var.c) is not in src.  Among
    the objects only String is hashable; List, Map, Range, Function, Script,
    Fiber and UserObj are not. *)
Definition isObjectHashable (t : ObjectType) : bool :=
  match t with
  | OBJ_STRING => true
  | _ => false
  end.

(** Modelled from the spec: the comparison of keys inside the map (var.c)
    is not in src.  Two keys are the same when they are the same primitive
    (numbers bit for bit) or the same object. *)
Definition Var_same (a b : Var) : bool :=
  match a, b with
  | VAR_UNDEF, VAR_UNDEF => true
  | VAR_NULL, VAR_NULL => true
  | VAR_BOOL x, VAR_BOOL y => Bool.eqb x y
  | VAR_NUM x, VAR_NUM y => PrimFloat.Leibniz.eqb x y
  | VAR_OBJ p, VAR_OBJ q => Nat.eqb p q
  | _, _ => false
  end.

(** The slot [e] is occupied and holds the key [k]. *)
Definition slot_holds (k : Var) (e : MapEntry) : bool :=
  negb (IS_UNDEF (key e)) && Var_same (key e) k.

(** Modelled from the spec: [mapGet] (var.c) is not in src.  The value
    stored under the key, or the absent marker. *)
Definition mapGet (m : Map) (k : Var) : Var :=
  match List.find (slot_holds k) (entries m) with
  | Some e => value e
  | None => VAR_UNDEF
  end.

(** The two cases of the upsert below: the value of the slot that holds [k]
    is replaced; or [k] takes the first free slot, a new one if none is. *)
Fixpoint replace_value (k v : Var) (es : list MapEntry) : list MapEntry :=
  match es with
  | [] => []
  | e :: es' =>
      if slot_holds k e then {| key := key e; value := v |} :: es'
      else e :: replace_value k v es'
  end.

Fixpoint occupy_free (k v : Var) (es : list MapEntry) : list MapEntry :=
  match es with
  | [] => [{| key := k; value := v |}]
  | e :: es' =>
      if IS_UNDEF (key e) then {| key := k; value := v |} :: es'
      else e :: occupy_free k v es'
  end.

(** Modelled from the spec: [mapSet] (var.c) is not in src.  An upsert: the
    slot that holds the key gets the new value; a new key occupies a free
    slot, the table growing by one slot when none is free.  (Which slot a key
    hashes to is left open by the specification: "iteration order is
    bucket-slot order, unspecified".) *)
Definition mapSet (m : Map) (k v : Var) : Map :=
  if existsb (slot_holds k) (entries m)
  then {| entries := replace_value k v (entries m) |}
  else {| entries := occupy_free k v (entries m) |}.

(** What the development takes from the rest of the runtime and from the
    build, without looking inside:
    - [TODO_aborts]: the [TODO] macro (common.h) marks the paths that are
      not implemented; whether reaching one aborts the process or does
      nothing depends on how the build compiles it;
    - [DEBUG]: whether the [#ifdef DEBUG] block of [varIterate] and the
      [ASSERT] macro are compiled in;
    - [fmod] of <math.h>;
    - [varTypeName], [toString] and [varHashValue] of var.c: the name of a
      value's type, its string form, and its 32-bit hash. *)
Class Host := {
  TODO_aborts : bool;
  DEBUG : bool;
  fmod : float -> float -> float;
  varTypeName : list Object -> Var -> string;
  toString : list Object -> Var -> bool -> string;
  varHashValue : list Object -> Var -> Z;
}.

(** ** The code of core.c *)

Section Core.
Context {host : Host}.

(** *** Assertion macros *)

Definition TODO : M unit :=
  if TODO_aborts then crash AbortTODO else pure tt.

Definition UNREACHABLE {A} : M A := crash AbortUnreachable.

(** [ASSERT] is checked in DEBUG builds only; [__ASSERT], the assertion of
    the public API, in every build. *)
Definition ASSERT (condition : bool) : M unit :=
  if DEBUG && negb condition then crash AbortAssert else pure tt.

Definition __ASSERT (condition : bool) : M unit :=
  if condition then pure tt else crash AbortAssert.

(** *** Native bridge: arguments and return slot *)

(** [ARGC]: [(int)(vm->fiber->sp - vm->fiber->ret) - 1] *)
Definition ARGC : M Z := do f <- get_fiber; pure (ARGC_of f).

(** [ARG(n)]: [vm->fiber->ret[n]].  Inside the window this is the slot.  A
    read outside the window is, in the code, a read of whatever the stack
    holds there; the window is all of the stack that a [Fiber] holds here,
    so such a read has no value in this model: it ends the run, and nothing
    is stated about a call that makes one. *)
Definition ARG (n : Z) : M Var :=
  do f <- get_fiber;
  if n <? 0 then crash AbortUndefined
  else match ret f !! Z.to_nat n with
       | Some v => pure v
       | None => crash AbortUndefined
       end.

(** [RET(value)]: [*(vm->fiber->ret) = value; return;] *)
Definition RET (v : Var) : M unit :=
  do f <- get_fiber;
  match ret f with
  | [] => crash AbortUndefined
  | _ :: args => put_fiber {| ret := v :: args; error := error f |}
  end.

(** [pkGetArgBool(vm, arg, &value)]: the result is the returned flag and the
    boolean written through [value] (the third assertion of
    CHECK_GET_ARG_API_ERRORS, that [value] is not NULL, is on the caller's
    pointer and has no counterpart here). *)
Definition pkGetArgBool (arg : Z) : M (bool * bool) :=
  (* CHECK_GET_ARG_API_ERRORS() *)
  do fib <- (fun vm => Return (fiber vm) vm);
  run __ASSERT (bool_decide (is_Some fib));
  do argc <- ARGC;
  run __ASSERT ((0 <? arg) || (arg <? argc));
  do val <- ARG arg;
  pure (true, toBool val).

(** *** Validators *)

Definition isNumeric (var : Var) : option float :=
  match var with
  | VAR_BOOL b => Some (if b then PrimFloat.one else PrimFloat.zero)
  | VAR_NUM d => Some d
  | _ => None
  end.

Definition validateNumeric (var : Var) (name : string) : M (option float) :=
  match isNumeric var with
  | Some d => pure (Some d)
  | None =>
      do p <- stringFormat "$ must be a numeric value." [name];
      run set_error p;
      pure None
  end.

Definition integer_error (name : string) : M (option Z) :=
  do p <- stringFormat "$ must be an integer." [name];
  run set_error p;
  pure None.

Definition validateIngeger (var : Var) (name : string) : M (option Z) :=
  match isNumeric var with
  | Some number =>
      let truncated := Double.trunc number in
      if (truncated =? number)%float
      then match Double.to_int32 truncated with
           | Some z => pure (Some z)
           | None => crash AbortUndefined
           end
      else integer_error name
  | None => integer_error name
  end.

Definition validateIndex (index size : Z) (container : string) : M bool :=
  if (index <? 0) || (size <=? index)
  then do p <- stringFormat "$ index out of range." [container];
       run set_error p;
       pure false
  else pure true.

(** *** Builtin functions *)

Definition toStringObj (v : Var) (recursive : bool) : M loc :=
  do h <- get_heap; vmAlloc (ObjString (toString h v recursive)).

Definition coreAssert : M unit :=
  do argc <- ARGC;
  if negb (argc =? 1) && negb (argc =? 2)
  then do p <- newString "Invalid argument count."; set_error p
  else
    do arg1 <- ARG 1;
    if negb (toBool arg1)
    then
      if argc =? 2
      then
        do arg2 <- ARG 2;
        do q <- AS_OBJ arg2;          (* AS_OBJ(ARG2)->type, unguarded *)
        do o <- load q;
        do msg <- (if negb (bool_decide (obj_type o = OBJ_STRING))
                   then toStringObj arg2 false
                   else pure q);
        do text <- load_string msg;
        do p <- stringFormat "Assertion failed: '@'." [text];
        set_error p
      else do p <- newString "Assertion failed."; set_error p
    else pure tt.

Definition coreHash : M unit :=
  do arg1 <- ARG 1;
  do returned <-
    (if IS_OBJ arg1
     then do q <- AS_OBJ arg1;
          do o <- load q;
          if negb (isObjectHashable (obj_type o))
          then run RET VAR_NULL; pure true
          else pure false
     else pure false);
  if returned : bool then pure tt
  else do h <- get_heap;
       RET (VAR_NUM (Double.of_uint32 (varHashValue h arg1))).

(** *** Operators *)

Definition UNSUPPORT_OPERAND_TYPES (op : string) (v1 v2 : Var) : M unit :=
  do h <- get_heap;
  do p <- stringFormat
            ("Unsupported operand types for operator '" ++ op ++ "' $ and $")
            [varTypeName h v1; varTypeName h v2];
  set_error p.

(** The common shape of the numeric branch: the left operand is numeric,
    the right one is validated. *)
Definition numeric_branch (f : float -> float -> float) (d1 : float)
    (v2 : Var) : M Var :=
  do r <- validateNumeric v2 "Right operand";
  match r with
  | Some d2 => pure (VAR_NUM (f d1 d2))
  | None => pure VAR_NULL
  end.

(** The object branch of [varAdd]: [Some v] when the switch returns [v],
    [None] when control leaves the switch through a [break]. *)
Definition varAdd_objects (v1 v2 : Var) : M (option Var) :=
  do p1 <- AS_OBJ v1;
  do p2 <- AS_OBJ v2;
  do o1 <- load p1;
  do o2 <- load p2;
  match o1 with
  | ObjString d1 =>
      match o2 with
      | ObjString d2 =>
          do p <- stringFormat "@@" [d1; d2]; pure (Some (VAR_OBJ p))
      | _ => pure None
      end
  | ObjList _ => run TODO; pure None    (* falls through to the break *)
  | ObjMap _ | ObjRange _ | ObjScript | ObjFunc | ObjFiber | ObjUser =>
      pure None
  end.

Definition varAdd (v1 v2 : Var) : M Var :=
  match isNumeric v1 with
  | Some d1 => numeric_branch PrimFloat.add d1 v2
  | None =>
      do r <- (if IS_OBJ v1 && IS_OBJ v2 then varAdd_objects v1 v2
               else pure None);
      match r with
      | Some v => pure v
      | None => run UNSUPPORT_OPERAND_TYPES "+" v1 v2; pure VAR_NULL
      end
  end.

Definition varSubtract (v1 v2 : Var) : M Var :=
  match isNumeric v1 with
  | Some d1 => numeric_branch PrimFloat.sub d1 v2
  | None => run UNSUPPORT_OPERAND_TYPES "-" v1 v2; pure VAR_NULL
  end.

Definition varMultiply (v1 v2 : Var) : M Var :=
  match isNumeric v1 with
  | Some d1 => numeric_branch PrimFloat.mul d1 v2
  | None => run UNSUPPORT_OPERAND_TYPES "*" v1 v2; pure VAR_NULL
  end.

Definition varDivide (v1 v2 : Var) : M Var :=
  match isNumeric v1 with
  | Some d1 => numeric_branch PrimFloat.div d1 v2
  | None => run UNSUPPORT_OPERAND_TYPES "/" v1 v2; pure VAR_NULL
  end.

Definition varModulo (v1 v2 : Var) : M Var :=
  match isNumeric v1 with
  | Some d1 => numeric_branch fmod d1 v2
  | None =>
      run (if IS_OBJ v1
           then do p1 <- AS_OBJ v1;
                do o1 <- load p1;
                if bool_decide (obj_type o1 = OBJ_STRING)
                then TODO             (* "fmt" % v2 *)
                else pure tt
           else pure tt);
      run UNSUPPORT_OPERAND_TYPES "%" v1 v2;
      pure VAR_NULL
  end.

Definition varGreater (v1 v2 : Var) : M bool :=
  match isNumeric v1, isNumeric v2 with
  | Some d1, Some d2 => pure (d2 <? d1)%float
  | _, _ => run TODO; pure false
  end.

Definition varLesser (v1 v2 : Var) : M bool :=
  match isNumeric v1, isNumeric v2 with
  | Some d1, Some d2 => pure (d1 <? d2)%float
  | _, _ => run TODO; pure false
  end.

(** *** Subscript protocol *)

Definition not_subscriptable (on : Var) : M unit :=
  do h <- get_heap;
  do p <- stringFormat "$ type is not subscriptable." [varTypeName h on];
  set_error p.

(** [IS_OBJ(key) && !isObjectHashable(AS_OBJ(key)->type)] *)
Definition key_not_hashable (k : Var) : M bool :=
  if IS_OBJ k
  then do q <- AS_OBJ k;
       do o <- load q;
       pure (negb (isObjectHashable (obj_type o)))
  else pure false.

Definition varGetSubscript (on key : Var) : M Var :=
  if negb (IS_OBJ on)
  then run not_subscriptable on; pure VAR_NULL
  else
    do p <- AS_OBJ on;
    do obj <- load p;
    match obj with
    | ObjString data =>
        do r <- validateIngeger key "List index";
        match r with
        | None => pure VAR_NULL
        | Some index =>
            do ok <- validateIndex index
                       (Double.int32_of_uint32 (Z.of_nat (String.length data)))
                       "String";
            if ok : bool
            then do c <- newStringLength data (Z.to_nat index) 1;
                 pure (VAR_OBJ c)
            else pure VAR_NULL
        end
    | ObjList elems =>
        do r <- validateIngeger key "List index";
        match r with
        | None => pure VAR_NULL
        | Some index =>
            do ok <- validateIndex index
                       (Double.int32_of_uint32 (Z.of_nat (length elems)))
                       "List";
            if ok : bool
            then match elems !! Z.to_nat index with
                 | Some v => pure v
                 | None => crash AbortUndefined
                 end
            else pure VAR_NULL
        end
    | ObjMap m =>
        let value := mapGet m key in
        if IS_UNDEF value
        then
          do key_str <- toStringObj key true;
          do text <- load_string key_str;
          do bad <- key_not_hashable key;
          do e <- (if bad : bool
                   then stringFormat "Invalid key '@'." [text]
                   else stringFormat "Key '@' not exists" [text]);
          run set_error e;
          pure VAR_NULL
        else pure value
    | ObjRange _ | ObjScript | ObjFunc | ObjFiber | ObjUser =>
        run TODO; UNREACHABLE
    end.

Definition varsetSubscript (on key value : Var) : M unit :=
  if negb (IS_OBJ on)
  then not_subscriptable on
  else
    do p <- AS_OBJ on;
    do obj <- load p;
    match obj with
    | ObjString _ =>
        do e <- newString "String objects are immutable."; set_error e
    | ObjList elems =>
        do r <- validateIngeger key "List index";
        match r with
        | None => pure tt
        | Some index =>
            do ok <- validateIndex index
                       (Double.int32_of_uint32 (Z.of_nat (length elems)))
                       "List";
            if ok : bool
            then store p (ObjList (<[Z.to_nat index := value]> elems))
            else pure tt
        end
    | ObjMap m =>
        do bad <- key_not_hashable key;
        if bad : bool
        then do h <- get_heap;
             do e <- stringFormat "$ type is not hashable."
                       [varTypeName h key];
             set_error e
        else store p (ObjMap (mapSet m key value))
    | ObjRange _ | ObjScript | ObjFunc | ObjFiber | ObjUser =>
        run TODO; UNREACHABLE
    end.

(** *** Iteration protocol *)

(** [_AS_INTEGER(var)], stored into the [uint32_t iter]. *)
Definition _AS_INTEGER (d : float) : M Z :=
  match Double.to_int32 (Double.trunc d) with
  | Some z => pure (Double.uint32_of_int32 z)
  | None => crash AbortUndefined
  end.

(** The loop [for (; iter < map->capacity; iter++)] that leaves at the first
    slot whose key is not UNDEF: [slots] are the slots from [iter] on, and
    the result is the value of [iter] after the loop. *)
Fixpoint next_valid_key (slots : list MapEntry) (iter : Z) : Z :=
  match slots with
  | [] => iter
  | e :: rest =>
      if negb (IS_UNDEF (key e)) then iter
      else next_valid_key rest (iter + 1)
  end.

Definition set_error_text (text : string) : M unit :=
  do p <- newString text; set_error p.

(** The [#ifdef DEBUG] block at the head of [varIterate]. *)
Definition iterator_checks (iterator : Var) : M unit :=
  if DEBUG
  then run ASSERT (IS_NUM iterator || IS_NULL iterator);
       if IS_NUM iterator
       then do r <- validateIngeger iterator "Assetion.";
            ASSERT (bool_decide (is_Some r))
       else pure tt
  else pure tt.

(** [uint32_t iter = 0; if (IS_NUM( *iterator)) iter = _AS_INTEGER( *iterator);] *)
Definition iterator_index (iterator : Var) : M Z :=
  match iterator with
  | VAR_NUM d => _AS_INTEGER d
  | _ => pure 0
  end.

(** [VAR_NUM((double)iter + 1)] *)
Definition next_iterator (iter : Z) : Var :=
  VAR_NUM (Double.of_uint32 iter + PrimFloat.one)%float.

(** [varIterate(vm, seq, &iterator, &value)].  The arguments [iterator] and
    [value] are the contents of the two cells on entry; the result is the
    returned flag and their contents on exit. *)
Definition varIterate (seq iterator value : Var) : M (bool * Var * Var) :=
  run iterator_checks iterator;
  if negb (IS_OBJ seq)
  then
    run (if IS_NULL seq then set_error_text "Null is not iterable."
         else if IS_BOOL seq then set_error_text "Boolenan is not iterable."
         else if IS_NUM seq then set_error_text "Number is not iterable."
         else UNREACHABLE);
    pure (false, iterator, VAR_NULL)
  else
    do p <- AS_OBJ seq;
    do obj <- load p;
    do iter <- iterator_index iterator;
    match obj with
    | ObjString data =>
        if Z.of_nat (String.length data) <=? iter
        then pure (false, iterator, value)
        else do c <- newStringLength data (Z.to_nat iter) 1;
             pure (true, next_iterator iter, VAR_OBJ c)
    | ObjList elems =>
        if Z.of_nat (length elems) <=? iter
        then pure (false, iterator, value)
        else match elems !! Z.to_nat iter with
             | Some v => pure (true, next_iterator iter, v)
             | None => crash AbortUndefined
             end
    | ObjMap m =>
        let iter' := next_valid_key (drop (Z.to_nat iter) (entries m)) iter in
        if capacity m <=? iter'
        then pure (false, iterator, value)
        else match entries m !! Z.to_nat iter' with
             | Some e => pure (true, next_iterator iter', key e)
             | None => crash AbortUndefined
             end
    | ObjRange r =>
        if (from r =? to r)%float
        then pure (false, iterator, value)
        else
          let current :=
            if (from r <=? to r)%float
            then (from r + Double.of_uint32 iter)%float
            else (from r - Double.of_uint32 iter)%float in
          if (current =? to r)%float
          then pure (false, iterator, value)
          else pure (true, next_iterator iter, VAR_NUM current)
    | ObjScript | ObjFunc | ObjFiber | ObjUser =>
        run TODO; UNREACHABLE
    end.

End Core.

(** ** Driving the iteration protocol *)

Section Drive.
Context {host : Host}.

(** The loop a [for] statement runs: call [varIterate] with the iterator
    cell starting at [iterator] until it returns false, collecting the values
    yielded.  [Some vs] when the iteration ended within [calls] calls, [None]
    when it was still going on. *)
Fixpoint iterate_from (calls : nat) (seq iterator : Var) : M (option (list Var)) :=
  match calls with
  | O => pure None
  | S calls' =>
      do r <- varIterate seq iterator VAR_NULL;
      match r with
      | (true, iterator', v) =>
          do rest <- iterate_from calls' seq iterator';
          pure (option_map (cons v) rest)
      | (false, _, _) => pure (Some [])
      end
  end.

(** The iterator cell after each of the successful calls, in order. *)
Fixpoint states_from (calls : nat) (seq iterator : Var) : M (list Var) :=
  match calls with
  | O => pure []
  | S calls' =>
      do r <- varIterate seq iterator VAR_NULL;
      match r with
      | (true, iterator', _) =>
          do rest <- states_from calls' seq iterator';
          pure (iterator' :: rest)
      | (false, _, _) => pure []
      end
  end.

End Drive.

(** ** A concrete host, for running the code on examples *)

Definition sample_typeName (h : list Object) (v : Var) : string :=
  match v with
  | VAR_UNDEF => "Undefined"
  | VAR_NULL => "Null"
  | VAR_BOOL _ => "Bool"
  | VAR_NUM _ => "Number"
  | VAR_OBJ p =>
      match h !! p with
      | Some (ObjString _) => "String"
      | Some (ObjList _) => "List"
      | Some (ObjMap _) => "Map"
      | Some (ObjRange _) => "Range"
      | Some ObjScript => "Script"
      | Some ObjFunc => "Func"
      | Some ObjFiber => "Fiber"
      | Some ObjUser => "UserObj"
      | None => "?"
      end
  end.

Definition sample_toString (h : list Object) (v : Var) (recursive : bool) : string :=
  match v with
  | VAR_NULL => "null"
  | VAR_BOOL true => "true"
  | VAR_BOOL false => "false"
  | VAR_OBJ p =>
      match h !! p with
      | Some (ObjString data) => data
      | _ => "[object]"
      end
  | _ => "[value]"
  end.

Definition sample_host (todo_aborts debug : bool) : Host :=
  {| TODO_aborts := todo_aborts;
     DEBUG := debug;
     fmod := fun x y => (x - Double.trunc (x / y) * y)%float; (* a stand-in *)
     varTypeName := sample_typeName;
     toString := sample_toString;
     varHashValue := fun _ _ => 0 |}.

(** A build in which neither TODO nor ASSERT is compiled in, and one in
    which both are. *)
Definition release_host : Host := sample_host false false.
Definition debug_host : Host := sample_host true true.

(** A VM whose fiber has the given stack window and no error. *)
Definition vm_of (h : list Object) (window : list Var) : PKVM :=
  {| heap := h; fiber := Some {| ret := window; error := None |} |}.

(** A Map of four slots of which only slot 2 is occupied. *)
Definition sparse_map : Map :=
  {| entries := [ {| key := VAR_UNDEF; value := VAR_BOOL false |};
                  {| key := VAR_UNDEF; value := VAR_BOOL true |};
                  {| key := VAR_BOOL true; value := VAR_NULL |};
                  {| key := VAR_UNDEF; value := VAR_BOOL false |} ] |}.

(** ** More of core.c: native bridge, builtins and output *)

(** <ctype.h> in the "C" locale: letters are the 26 ASCII ones, whitespace is
    the space and the five controls \t \n \v \f \r; every other byte is left
    as it is. *)
Definition NUL : ascii := "000"%char.

Definition isupper (c : ascii) : bool :=
  (65 <=? nat_of_ascii c)%nat && (nat_of_ascii c <=? 90)%nat.

Definition islower (c : ascii) : bool :=
  (97 <=? nat_of_ascii c)%nat && (nat_of_ascii c <=? 122)%nat.

Definition tolower (c : ascii) : ascii :=
  if isupper c then ascii_of_nat (nat_of_ascii c + 32) else c.

Definition toupper (c : ascii) : ascii :=
  if islower c then ascii_of_nat (nat_of_ascii c - 32) else c.

Definition isspace (c : ascii) : bool :=
  (nat_of_ascii c =? 32)%nat
  || (9 <=? nat_of_ascii c)%nat && (nat_of_ascii c <=? 13)%nat.

(** The loop [for (; *data; ++data) *data = f( *data);] over the bytes of a
    String: it stops at the first NUL byte, which need not be the end of the
    String. *)
Fixpoint map_cstring (f : ascii -> ascii) (s : string) : string :=
  match s with
  | EmptyString => EmptyString
  | String c rest =>
      if Ascii.eqb c NUL then s else String (f c) (map_cstring f rest)
  end.

(** The C string at a pointer [s->data], as [write_fn] and [strncmp] read
    it: the bytes before the first NUL. *)
Fixpoint cstring (s : string) : string :=
  match s with
  | EmptyString => EmptyString
  | String c rest =>
      if Ascii.eqb c NUL then EmptyString else String c (cstring rest)
  end.

(** The pointer [start] of [coreStrStrip], as an index: the number of
    leading whitespace bytes ([isspace] is false on NUL, so the test
    [*start && isspace( *start)] is [isspace( *start)]). *)
Fixpoint leading_spaces (l : list ascii) : nat :=
  match l with
  | c :: rest => if isspace c then S (leading_spaces rest) else O
  | [] => O
  end.

(** The bytes between [start] and [end], the latter found by walking back
    from the last byte over whitespace; the empty String when [start] stops
    on a NUL byte, the terminator included. *)
Definition strip_bytes (l : list ascii) : list ascii :=
  let start := leading_spaces l in
  match l !! start with
  | None => []
  | Some c =>
      if Ascii.eqb c NUL then []
      else take (length l - leading_spaces (rev l) - start) (drop start l)
  end.

(** [sprintf(buff, "%d", arg)] *)
Definition sprintf_d (n : Z) : string := pretty n.

(** An entry of the table of builtin functions, and the table as
    [initializeCore] fills it: name, length of the name, arity (-1 for a
    variadic function). *)
Record BuiltinFn := { bfn_name : string; bfn_length : Z; bfn_arity : Z }.

Definition INITALIZE_BUILTIN_FN (name : string) (argc : Z) : BuiltinFn :=
  {| bfn_name := name;
     bfn_length := Z.of_nat (String.length name);
     bfn_arity := argc |}.

Definition core_builtins : list BuiltinFn :=
  [ INITALIZE_BUILTIN_FN "is_null" 1;
    INITALIZE_BUILTIN_FN "is_bool" 1;
    INITALIZE_BUILTIN_FN "is_num" 1;
    INITALIZE_BUILTIN_FN "is_string" 1;
    INITALIZE_BUILTIN_FN "is_list" 1;
    INITALIZE_BUILTIN_FN "is_map" 1;
    INITALIZE_BUILTIN_FN "is_range" 1;
    INITALIZE_BUILTIN_FN "is_function" 1;
    INITALIZE_BUILTIN_FN "is_script" 1;
    INITALIZE_BUILTIN_FN "is_userobj" 1;
    INITALIZE_BUILTIN_FN "assert" (-1);
    INITALIZE_BUILTIN_FN "hash" 1;
    INITALIZE_BUILTIN_FN "to_string" 1;
    INITALIZE_BUILTIN_FN "print" (-1);
    INITALIZE_BUILTIN_FN "str_lower" 1;
    INITALIZE_BUILTIN_FN "str_upper" 1;
    INITALIZE_BUILTIN_FN "str_strip" 1 ].

(** [strncmp(s1, s2, n) == 0]: the first [n] bytes agree, or the bytes agree
    up to a NUL in both; the end of a [string] is its terminating NUL. *)
Fixpoint strncmp_eq (s1 s2 : string) (n : nat) : bool :=
  match n with
  | O => true
  | S n' =>
      match s1, s2 with
      | EmptyString, EmptyString => true
      | EmptyString, String c _ => Ascii.eqb c NUL
      | String c _, EmptyString => Ascii.eqb c NUL
      | String c1 r1, String c2 r2 =>
          Ascii.eqb c1 c2 && (Ascii.eqb c1 NUL || strncmp_eq r1 r2 n')
      end
  end.

(** [findBuiltinFunction(vm, name, length)] over the table [vm->builtins]:
    [name] is the text at the pointer, of which [length] bytes are the
    identifier looked up. *)
Fixpoint findBuiltinFunction_from (i : Z) (builtins : list BuiltinFn)
    (name : string) (length : Z) : Z :=
  match builtins with
  | [] => -1
  | b :: rest =>
      if (length =? bfn_length b)
         && strncmp_eq name (bfn_name b) (Z.to_nat length)
      then i
      else findBuiltinFunction_from (i + 1) rest name length
  end.

Definition findBuiltinFunction (builtins : list BuiltinFn) (name : string)
    (length : Z) : Z :=
  findBuiltinFunction_from 0 builtins name length.

Section CoreMore.
Context {host : Host}.

Definition VAR_TRUE : Var := VAR_BOOL true.
Definition VAR_FALSE : Var := VAR_BOOL false.

(** [ERR_INVALID_ARG_TYPE(m_type)] *)
Definition ERR_INVALID_ARG_TYPE (m_type : string) (arg : Z) : M unit :=
  do p <- stringFormat ("Expected a " ++ m_type ++ " at argument $.")
            [sprintf_d arg];
  set_error p.

(** [CHECK_GET_ARG_API_ERRORS()], the assertions of the argument getters
    on the fiber and on the index (the third one, that [value] is not NULL,
    is on the caller's pointer). *)
Definition CHECK_GET_ARG_API_ERRORS (arg : Z) : M unit :=
  do fib <- (fun vm => Return (fiber vm) vm);
  run __ASSERT (bool_decide (is_Some fib));
  do argc <- ARGC;
  __ASSERT ((0 <? arg) || (arg <? argc)).

Definition pkGetArgc : M Z :=
  do fib <- (fun vm => Return (fiber vm) vm);
  run __ASSERT (bool_decide (is_Some fib));
  ARGC.

(** [pkGetArgNumber(vm, arg, &value)]: [value] is the content of the cell
    on entry, the result the returned flag and its content on exit. *)
Definition pkGetArgNumber (arg : Z) (value : float) : M (bool * float) :=
  (* CHECK_GET_ARG_API_ERRORS() *)
  do fib <- (fun vm => Return (fiber vm) vm);
  run __ASSERT (bool_decide (is_Some fib));
  do argc <- ARGC;
  run __ASSERT ((0 <? arg) || (arg <? argc));
  do val <- ARG arg;
  match val with
  | VAR_NUM d => pure (true, d)
  | VAR_BOOL b => pure (true, if b then PrimFloat.one else PrimFloat.zero)
  | _ => run ERR_INVALID_ARG_TYPE "number" arg; pure (false, value)
  end.

Definition pkReturnNull : M unit := RET VAR_NULL.
Definition pkReturnBool (value : bool) : M unit := RET (VAR_BOOL value).
Definition pkReturnNumber (value : float) : M unit := RET (VAR_NUM value).
Definition pkReturnValue (value : Var) : M unit := RET value.

(** [FN_IS_PRIMITE_TYPE(name, check)] and [FN_IS_OBJ_TYPE(name, _enum)] *)
Definition FN_IS_PRIMITE_TYPE (check : Var -> bool) : M unit :=
  do arg1 <- ARG 1; RET (VAR_BOOL (check arg1)).

Definition FN_IS_OBJ_TYPE (_enum : ObjectType) : M unit :=
  do arg1 <- ARG 1;
  do yes <- (if IS_OBJ arg1
             then do q <- AS_OBJ arg1;
                  do o <- load q;
                  pure (bool_decide (obj_type o = _enum))
             else pure false);
  if yes : bool then RET VAR_TRUE else RET VAR_FALSE.

Definition coreIsNull : M unit := FN_IS_PRIMITE_TYPE IS_NULL.
Definition coreIsBool : M unit := FN_IS_PRIMITE_TYPE IS_BOOL.
Definition coreIsNum : M unit := FN_IS_PRIMITE_TYPE IS_NUM.
Definition coreIsString : M unit := FN_IS_OBJ_TYPE OBJ_STRING.
Definition coreIsList : M unit := FN_IS_OBJ_TYPE OBJ_LIST.
Definition coreIsMap : M unit := FN_IS_OBJ_TYPE OBJ_MAP.
Definition coreIsRange : M unit := FN_IS_OBJ_TYPE OBJ_RANGE.
Definition coreIsFunction : M unit := FN_IS_OBJ_TYPE OBJ_FUNC.
Definition coreIsScript : M unit := FN_IS_OBJ_TYPE OBJ_SCRIPT.
Definition coreIsUserObj : M unit := FN_IS_OBJ_TYPE OBJ_USER.

(** [IS_OBJ(v) && AS_OBJ(v)->type == OBJ_STRING] *)
Definition is_string_object (v : Var) : M bool :=
  if IS_OBJ v
  then do q <- AS_OBJ v;
       do o <- load q;
       pure (bool_decide (obj_type o = OBJ_STRING))
  else pure false.

(** [validateArgString(vm, var, &value, arg_ind)].  Both paths end in
    [return true]; the pointer written to [value] is [var] read as a
    [String*], whatever [var] is. *)
Definition validateArgString (var : Var) (arg_ind : Z) : M (bool * Var) :=
  do is_str <- is_string_object var;
  run (if negb is_str
       then do str_arg <- toStringObj (VAR_NUM (Double.of_Z arg_ind)) false;
            do text <- load_string str_arg;
            do p <- stringFormat "Expected a string at argument @." [text];
            set_error p
       else pure tt);
  pure (true, var).

Definition coreToString : M unit :=
  do arg1 <- ARG 1;
  do s <- toStringObj arg1 false;
  RET (VAR_OBJ s).

(** The body shared by [coreStrLower] and [coreStrUpper]: the copy is
    allocated, then converted in place. *)
Definition convert_case (f : ascii -> ascii) : M unit :=
  do arg1 <- ARG 1;
  do r <- validateArgString arg1 1;
  if negb (fst r) then pure tt
  else
    do str <- AS_OBJ (snd r);
    do data <- load_string str;
    do result <- newStringLength data 0 (String.length data);
    do copy <- load_string result;
    run store result (ObjString (map_cstring f copy));
    RET (VAR_OBJ result).

Definition coreStrLower : M unit := convert_case tolower.
Definition coreStrUpper : M unit := convert_case toupper.

Definition coreStrStrip : M unit :=
  do arg1 <- ARG 1;
  do r <- validateArgString arg1 1;
  if negb (fst r) then pure tt
  else
    do str <- AS_OBJ (snd r);
    do data <- load_string str;
    do result <- vmAlloc (ObjString (string_of_list_ascii
                                       (strip_bytes (list_ascii_of_string data))));
    RET (VAR_OBJ result).

(** The String whose bytes an argument is printed as: the argument itself
    when it is a String, a new String made by [toString] otherwise. *)
Definition printed_string (arg : Var) : M loc :=
  do is_str <- is_string_object arg;
  if is_str : bool then AS_OBJ arg else toStringObj arg false.

(** The loop [for (int i = 1; i <= ARGC; i++)] of [corePrint] ([spaced]) and
    of [stdLangWrite]: [n] arguments are left, from argument [i] on.  The
    result is the sequence of C strings handed to [write_fn]. *)
Fixpoint write_args (spaced : bool) (n : nat) (i : Z) : M (list string) :=
  match n with
  | O => pure []
  | S n' =>
      do arg <- ARG i;
      do str <- printed_string arg;
      do data <- load_string str;
      do rest <- write_args spaced n' (i + 1);
      pure ((if spaced && negb (i =? 1) then [" "] else [])
              ++ cstring data :: rest)%list
  end.

(** [corePrint] and [stdLangWrite]; [write_fn] tells whether the host has
    set [vm->config.write_fn]. *)
Definition corePrint (write_fn : bool) : M (list string) :=
  if negb write_fn then pure []
  else do argc <- ARGC;
       do out <- write_args true (Z.to_nat argc) 1;
       pure (out ++ [String "010"%char EmptyString])%list.

Definition stdLangWrite (write_fn : bool) : M (list string) :=
  if negb write_fn then pure []
  else do argc <- ARGC;
       write_args false (Z.to_nat argc) 1.

End CoreMore.

(** *** Attributes *)

(** [IS_ATTRIB(name)]:
    [attrib->length == strlen(name) && strcmp(name, attrib->data) == 0],
    [attrib] being the bytes of the attribute's String. *)
Definition IS_ATTRIB (attrib name : string) : bool :=
  (String.length attrib =? String.length (cstring name))%nat
  && String.eqb (cstring name) (cstring attrib).

Section Attributes.
Context {host : Host}.

(** The case [OBJ_SCRIPT] of the two functions below works on the fields of
    [Script] (var.h) through [scriptSearchFunc] and [scriptSearchGlobals]
    (var.c), none of which is in src: it is a parameter here, given the
    object, the attribute and, for a write, the value. *)
Variable script_get_attrib : loc -> loc -> M Var.
Variable script_set_attrib : loc -> loc -> Var -> M unit.

(** [ERR_NO_ATTRIB()] *)
Definition ERR_NO_ATTRIB (on : Var) (attrib : loc) : M unit :=
  do h <- get_heap;
  do name <- load_string attrib;
  do p <- stringFormat "'$' objects has no attribute named '$'"
            [varTypeName h on; cstring name];
  set_error p.

(** [ATTRIB_IMMUTABLE(prop)]: the result tells whether the macro returned
    from the function. *)
Definition ATTRIB_IMMUTABLE (attrib : loc) (prop : string) : M bool :=
  do name <- load_string attrib;
  if IS_ATTRIB name prop
  then do p <- stringFormat "'$' attribute is immutable." [cstring prop];
       run set_error p;
       pure true
  else pure false.

Definition varGetAttrib (on : Var) (attrib : loc) : M Var :=
  if negb (IS_OBJ on)
  then run not_subscriptable on; pure VAR_NULL
  else
    do p <- AS_OBJ on;
    do obj <- load p;
    match obj with
    | ObjString data =>
        do name <- load_string attrib;
        if IS_ATTRIB name "length"
        then pure (VAR_NUM (Double.of_uint32 (Z.of_nat (String.length data))))
        else run ERR_NO_ATTRIB on attrib; pure VAR_NULL
    | ObjList elems =>
        do name <- load_string attrib;
        if IS_ATTRIB name "length"
        then pure (VAR_NUM (Double.of_uint32 (Z.of_nat (length elems))))
        else run ERR_NO_ATTRIB on attrib; pure VAR_NULL
    | ObjMap m =>
        let value := mapGet m (VAR_OBJ attrib) in
        if IS_UNDEF value
        then
          do name <- load_string attrib;
          do e <- stringFormat
                    ("Key (" ++ String "034"%char "@"
                     ++ String "034"%char ") not exists.")
                    [name];
          run set_error e;
          pure VAR_NULL
        else pure value
    | ObjRange _ =>
        run TODO; script_get_attrib p attrib  (* falls through to OBJ_SCRIPT *)
    | ObjScript => script_get_attrib p attrib
    | ObjFunc | ObjFiber | ObjUser => run TODO; UNREACHABLE
    end.

Definition varSetAttrib (on : Var) (attrib : loc) (value : Var) : M unit :=
  if negb (IS_OBJ on)
  then not_subscriptable on
  else
    do p <- AS_OBJ on;
    do obj <- load p;
    match obj with
    | ObjString _ =>
        do returned <- ATTRIB_IMMUTABLE attrib "length";
        if returned : bool then pure tt else ERR_NO_ATTRIB on attrib
    | ObjList _ =>
        do returned <- ATTRIB_IMMUTABLE attrib "length";
        if returned : bool then pure tt else ERR_NO_ATTRIB on attrib
    | ObjMap _ => run TODO; ERR_NO_ATTRIB on attrib
    | ObjRange _ => ERR_NO_ATTRIB on attrib
    | ObjScript => script_set_attrib p attrib value
    | ObjFunc => ERR_NO_ATTRIB on attrib
    | ObjFiber => ERR_NO_ATTRIB on attrib
    | ObjUser => TODO
    end.

End Attributes.

(** ** Vocabulary of the statements *)

(** An object value refers to an object that is on the heap. *)
Definition on_heap (h : list Object) (v : Var) : Prop :=
  match v with
  | VAR_OBJ p => is_Some (h !! p)
  | _ => True
  end.

(** The VM after an operation reported [msg]: the message is a new String
    at the next free address, the error channel points to it, and nothing
    else has changed. *)
Definition with_error (vm : PKVM) (msg : string) : PKVM :=
  {| heap := heap vm ++ [ObjString msg];
     fiber := match fiber vm with
              | Some f => Some {| ret := ret f;
                                  error := Some (length (heap vm)) |}
              | None => None
              end |}.

(** The VM after a native function wrote [v] to its return slot. *)
Definition with_result (vm : PKVM) (v : Var) : PKVM :=
  {| heap := heap vm;
     fiber := match fiber vm with
              | Some f => Some {| ret := v :: tail (ret f); error := error f |}
              | None => None
              end |}.

Inductive ArithOp := OpAdd | OpSub | OpMul | OpDiv | OpMod.

Definition op_symbol (op : ArithOp) : string :=
  match op with
  | OpAdd => "+" | OpSub => "-" | OpMul => "*" | OpDiv => "/" | OpMod => "%"
  end.

(** The TypeMismatch message of the operators. *)
Definition unsupported_operands (op : ArithOp) (t1 t2 : string) : string :=
  format ("Unsupported operand types for operator '" ++ op_symbol op
          ++ "' $ and $") [t1; t2].

Definition is_string (h : list Object) (v : Var) : bool :=
  match v with
  | VAR_OBJ p => match h !! p with Some (ObjString _) => true | _ => false end
  | _ => false
  end.

Definition is_list (h : list Object) (v : Var) : bool :=
  match v with
  | VAR_OBJ p => match h !! p with Some (ObjList _) => true | _ => false end
  | _ => false
  end.

(** The operand pairs on which an operator passes a [TODO] placeholder
    before it reports the type error: List + object, and String % anything. *)
Definition passes_TODO (op : ArithOp) (h : list Object) (v1 v2 : Var) : bool :=
  match op with
  | OpAdd => is_list h v1 && IS_OBJ v2
  | OpMod => is_string h v1
  | _ => false
  end.

(** The value [hash] returns, kind by kind. *)
Definition hash_result (hash : Z) (h : list Object) (v : Var) : Var :=
  match v with
  | VAR_UNDEF | VAR_NULL | VAR_BOOL _ | VAR_NUM _ =>
      VAR_NUM (Double.of_uint32 hash)
  | VAR_OBJ p =>
      match h !! p with
      | Some (ObjString _) => VAR_NUM (Double.of_uint32 hash)
      | Some (ObjList _) | Some (ObjMap _) | Some (ObjRange _)
      | Some ObjFunc | Some ObjScript | Some ObjFiber | Some ObjUser
      | None => VAR_NULL
      end
  end.

(** The Number that holds the integer [i]. *)
Definition num (i : Z) : Var := VAR_NUM (Double.of_Z i).

(** The VM after the object at [p] was overwritten by [o]. *)
Definition with_object (vm : PKVM) (p : loc) (o : Object) : PKVM :=
  {| heap := <[p := o]> (heap vm); fiber := fiber vm |}.

(** The values that may be map keys: every primitive, and String among the
    objects. *)
Definition hashable_key (h : list Object) (k : Var) : bool :=
  match k with
  | VAR_UNDEF => false
  | VAR_OBJ _ => is_string h k
  | _ => true
  end.

(** The states of the iteration protocol and the index each resumes at:
    Null before the first call, then the Number of a non-negative integer
    (one that the [int32_t] cast of [_AS_INTEGER] can hold). *)
Inductive resumes_at : Var -> Z -> Prop :=
| resumes_at_null : resumes_at VAR_NULL 0
| resumes_at_num (n : Z) :
    0 <= n <= Double.INT32_MAX -> resumes_at (num n) n.

Definition occupied (e : MapEntry) : bool := negb (IS_UNDEF (key e)).

(** The occupied slots among [es], the slots of a map from index [i] on:
    each with its index and its key, in slot order. *)
Fixpoint occupied_slots (es : list MapEntry) (i : Z) : list (Z * Var) :=
  match es with
  | [] => []
  | e :: rest =>
      if occupied e then (i, key e) :: occupied_slots rest (i + 1)
      else occupied_slots rest (i + 1)
  end.

(** The containers whose state counts the calls. *)
Definition counts_steps (obj : Object) : bool :=
  match obj with
  | ObjString _ | ObjList _ | ObjRange _ => true
  | _ => false
  end.

(** Step [k] of a Range from [a] to [b]: up when [a <= b], down otherwise. *)
Definition range_step (a b k : Z) : Z := if a <=? b then a + k else a - k.

(** The numbers a Range from [a] to [b] runs through: [a], then one step
    at a time toward [b], [b] excluded. *)
Definition range_values (a b : Z) : list Z :=
  range_step a b <$> seqZ 0 (Z.abs (b - a)).

Section Vocabulary.
Context {host : Host}.

Definition arith (op : ArithOp) : Var -> Var -> M Var :=
  match op with
  | OpAdd => varAdd
  | OpSub => varSubtract
  | OpMul => varMultiply
  | OpDiv => varDivide
  | OpMod => varModulo
  end.

End Vocabulary.

(** ** Vocabulary of the further statements *)

(** The object behind [v] has type [t]. *)
Definition has_type (h : list Object) (v : Var) (t : ObjectType) : bool :=
  match v with
  | VAR_OBJ p =>
      match h !! p with
      | Some o => bool_decide (obj_type o = t)
      | None => false
      end
  | _ => false
  end.

(** The ten type predicates of the builtin table, in its order, and what
    each answers on a value. *)
Definition type_tests : list (M unit) :=
  [ coreIsNull; coreIsBool; coreIsNum; coreIsString; coreIsList; coreIsMap;
    coreIsRange; coreIsFunction; coreIsScript; coreIsUserObj ].

Definition type_answers (h : list Object) (v : Var) : list bool :=
  [ IS_NULL v; IS_BOOL v; IS_NUM v; has_type h v OBJ_STRING;
    has_type h v OBJ_LIST; has_type h v OBJ_MAP; has_type h v OBJ_RANGE;
    has_type h v OBJ_FUNC; has_type h v OBJ_SCRIPT; has_type h v OBJ_USER ].

(** A numeric operand that holds the integer [z]: the Number of [z], or a
    Bool, which counts as 1 or 0. *)
Inductive int_value : Var -> Z -> Prop :=
| int_value_num (z : Z) : Z.abs z < 2 ^ 53 -> int_value (num z) z
| int_value_bool (b : bool) : int_value (VAR_BOOL b) (Z.b2z b).

(** A subscript that the integer validation refuses: not numeric, or a
    Number with a fractional part. *)
Definition not_an_integer (key : Var) : Prop :=
  match isNumeric key with
  | None => True
  | Some d => (Double.trunc d =? d)%float = false
  end.

(** The argument [a] is a String of bytes [d]. *)
Definition string_arg (h : list Object) (a : Var) (d : string) : Prop :=
  exists q, a = VAR_OBJ q /\ h !! q = Some (ObjString d).

(** What [print] hands to the sink for the strings [ds]: each one, a space
    before all but the first. *)
Fixpoint separated (first : bool) (ds : list string) : list string :=
  match ds with
  | [] => []
  | d :: rest => (if first then [] else [" "]) ++ d :: separated false rest
  end%list.

Definition NUL_free (s : string) : Prop :=
  Forall (fun c => c <> NUL) (list_ascii_of_string s).

(** The one-byte Strings that iterating or subscripting a String allocates,
    from byte [i] on. *)
Definition byte_strings (data : string) (i : nat) : list Object :=
  (fun k => ObjString (substring k 1 data)) <$> seq i (String.length data - i).

(** The VM after a builtin allocated [o] and returned it. *)
Definition returned_new (vm : PKVM) (o : Object) : PKVM :=
  with_result {| heap := heap vm ++ [o]; fiber := fiber vm |}
    (VAR_OBJ (length (heap vm))).

(** The VM after [o] was allocated. *)
Definition with_new (vm : PKVM) (o : Object) : PKVM :=
  {| heap := heap vm ++ [o]; fiber := fiber vm |}.

(** The objects that have a [length] attribute, and its value. *)
Definition object_length (obj : Object) : option nat :=
  match obj with
  | ObjString data => Some (String.length data)
  | ObjList elems => Some (length elems)
  | _ => None
  end.

(** The VM after an access to an attribute that [on] does not have. *)
Definition no_attribute {host : Host} (vm : PKVM) (on : Var) (name : string)
    : PKVM :=
  with_error vm ("'" ++ varTypeName (heap vm) on
                 ++ "' objects has no attribute named '" ++ cstring name
                 ++ "'").

(** How many of the answers are true. *)
Definition answers_true (l : list bool) : nat := length (List.filter id l).

(** ** Properties *)

Arguments format : simpl never.
Arguments toBool : simpl never.
Arguments Double.trunc : simpl never.
Arguments Double.to_int32 : simpl never.
Arguments Double.of_uint32 : simpl never.
Arguments Double.of_Z : simpl never.
Arguments Double.int32_of_uint32 : simpl never.
Arguments Double.uint32_of_int32 : simpl never.

(** Unfolding of the monad and of the VM primitives. *)
Ltac vm_unfold :=
  cbv [bind pure crash get_fiber put_fiber set_error get_heap vmAlloc load
       store stringFormat newString newStringLength ARGC ARG RET AS_OBJ
       load_string __ASSERT ASSERT TODO UNREACHABLE toStringObj
       set_error_text UNSUPPORT_OPERAND_TYPES numeric_branch validateNumeric
       integer_error validateIndex not_subscriptable key_not_hashable
       _AS_INTEGER] in *.

(** Runs the code as far as the hypotheses about the VM allow. *)
Ltac vm_run :=
  vm_unfold;
  repeat match goal with
         | H : fiber ?vm = Some _ |- context [fiber ?vm] => rewrite H
         | H : heap ?vm !! ?p = Some _ |- context [heap ?vm !! ?p] => rewrite H
         | H : heap ?vm !! ?p = None |- context [heap ?vm !! ?p] => rewrite H
         | H : ret ?f !! ?n = _ |- context [ret ?f !! ?n] => rewrite H
         | H : ret ?f = _ |- context [ret ?f] => rewrite H
         | H : ret ?f = _ |- context [ARGC_of ?f] => unfold ARGC_of; rewrite H
         | H : TODO_aborts = _ |- context [TODO_aborts] => rewrite H
         | H : DEBUG = _ |- context [DEBUG] => rewrite H
         | |- _ => progress simpl
         end.

(** *** Integers in binary64

    The integers of magnitude below 2^53 are binary64 numbers, and on them
    the conversions, the comparisons, addition and subtraction are those of
    [Z].  The proofs go through the specification of the primitive floats
    ([SpecFloat]): an integer is converted without rounding because its
    mantissa, shifted to 53 bits, only gains zeros. *)

Module DoubleFacts.
Import Double.

Lemma digits2_pos_size p : digits2_pos p = Pos.size p.
Proof. induction p; simpl; congruence. Qed.

Lemma digits2_pos_log2 p : Z.pos (digits2_pos p) = Z.log2 (Z.pos p) + 1.
Proof.
  rewrite digits2_pos_size.
  destruct p; simpl; rewrite ?Pos2Z.inj_succ; lia.
Qed.

Lemma Zdigits2_log2 m : 0 < m -> Zdigits2 m = Z.log2 m + 1.
Proof. destruct m; try lia. intros _. apply digits2_pos_log2. Qed.

Lemma iter_xO_pow m k : Z.pos (Pos.iter xO m k) = Z.pos m * 2 ^ Z.pos k.
Proof.
  induction k using Pos.peano_ind.
  - simpl. lia.
  - rewrite Pos.iter_succ, Pos2Z.inj_succ, Z.pow_succ_r by lia.
    rewrite Pos2Z.inj_xO, IHk. ring.
Qed.

Lemma iter_pos_nat {A} (f : A -> A) n x :
  SpecFloat.iter_pos f n x = Nat.iter (Pos.to_nat n) f x.
Proof.
  revert x. induction n; intros x; cbn [SpecFloat.iter_pos].
  - rewrite !IHn, Pos2Nat.inj_xI. 
    replace (2 * Pos.to_nat n)%nat with (Pos.to_nat n + Pos.to_nat n)%nat by lia.
    rewrite Nat.iter_succ_r, Nat.iter_add. reflexivity.
  - rewrite !IHn, Pos2Nat.inj_xO.
    replace (2 * Pos.to_nat n)%nat with (Pos.to_nat n + Pos.to_nat n)%nat by lia.
    rewrite Nat.iter_add. reflexivity.
  - reflexivity.
Qed.

Lemma shr_1_double m : 0 < m -> shr_1 (shr_exact (2 * m)) = shr_exact m.
Proof. destruct m; try lia. reflexivity. Qed.

Lemma iter_shr_1_pow2 (n : nat) m :
  0 < m -> Nat.iter n shr_1 (shr_exact (m * 2 ^ Z.of_nat n)) = shr_exact m.
Proof.
  intros Hm. induction n.
  - simpl. f_equal. lia.
  - rewrite Nat.iter_succ_r, Nat2Z.inj_succ, Z.pow_succ_r by lia.
    replace (m * (2 * 2 ^ Z.of_nat n)) with (2 * (m * 2 ^ Z.of_nat n)) by ring.
    rewrite shr_1_double; [exact IHn|].
    apply Z.mul_pos_pos; [lia|]. apply Z.pow_pos_nonneg; lia.
Qed.

Lemma shr_pow2 m e n :
  0 < m -> 0 <= n -> shr (shr_exact (m * 2 ^ n)) e n = (shr_exact m, e + n).
Proof.
  intros Hm Hn. destruct n as [|k|k]; try lia; cbn [shr].
  - rewrite Z.pow_0_r, Z.mul_1_r, Z.add_0_r. reflexivity.
  - rewrite iter_pos_nat.
    replace (m * 2 ^ Z.pos k) with (m * 2 ^ Z.of_nat (Pos.to_nat k))
      by (rewrite positive_nat_Z; reflexivity).
    rewrite iter_shr_1_pow2 by assumption. reflexivity.
Qed.

Lemma fexp64 e : fexp prec emax e = Z.max (e - 53) (-1074).
Proof. reflexivity. Qed.

(** Rounding a 53-bit mantissa followed by zeros is exact. *)
Lemma binary_round_aux_exact s M e n :
  0 <= n -> 2 ^ 52 <= M < 2 ^ 53 -> -1074 <= e <= 971 ->
  binary_round_aux prec emax s (M * 2 ^ n) (e - n) loc_Exact
    = S754_finite s (Z.to_pos M) e.
Proof.
  intros Hn HM He.
  assert (HM0 : 0 < M) by lia.
  assert (Hlog : Z.log2 M = 52).
  { apply Z.log2_unique; simpl; lia. }
  assert (Hpow : 0 < 2 ^ n) by (apply Z.pow_pos_nonneg; lia).
  unfold binary_round_aux, shr_fexp.
  rewrite Zdigits2_log2 by (apply Z.mul_pos_pos; lia).
  rewrite Z.log2_mul_pow2, Hlog, fexp64 by lia.
  replace (Z.max (n + 52 + 1 + (e - n) - 53) (-1074) - (e - n)) with n by lia.
  change (shr_record_of_loc (M * 2 ^ n) loc_Exact) with (shr_exact (M * 2 ^ n)).
  rewrite shr_pow2 by lia.
  cbn [shr_exact shr_m loc_of_shr_record round_nearest_even shr_record_of_loc].
  rewrite Zdigits2_log2, Hlog, fexp64 by lia.
  replace (Z.max (52 + 1 + (e - n + n) - 53) (-1074) - (e - n + n)) with 0 by lia.
  cbn [shr shr_m].
  destruct M as [|pm|pm]; try lia.
  replace (e - n + n <=? emax - prec) with true.
  - simpl. f_equal. lia.
  - symmetry. apply Z.leb_le. change (emax - prec) with 971. lia.
Qed.

Lemma shl_align_fst mx ex ex' :
  Z.pos (fst (shl_align mx ex ex')) = Z.pos mx * 2 ^ (ex - Z.min ex ex').
Proof.
  unfold shl_align. destruct (ex' - ex) as [|d|d] eqn:E; cbn [fst].
  - replace (ex - Z.min ex ex') with 0 by lia. lia.
  - replace (ex - Z.min ex ex') with 0 by lia. lia.
  - rewrite iter_xO_pow. f_equal. f_equal. lia.
Qed.

Lemma shl_align_snd mx ex ex' : snd (shl_align mx ex ex') = Z.min ex ex'.
Proof.
  unfold shl_align. destruct (ex' - ex) as [|d|d] eqn:E; cbn [snd]; lia.
Qed.

Lemma log2_bounds P : 0 < P < 2 ^ 53 -> 0 <= Z.log2 P <= 52.
Proof.
  intros HP. split; [apply Z.log2_nonneg|].
  assert (Z.log2 P < 53) by (apply Z.log2_lt_pow2; lia). lia.
Qed.

Lemma mantissa_bounds P :
  0 < P < 2 ^ 53 -> 2 ^ 52 <= P * 2 ^ (52 - Z.log2 P) < 2 ^ 53.
Proof.
  intros HP. pose proof (log2_bounds P HP) as HL.
  pose proof (Z.log2_spec P ltac:(lia)) as [Hlo Hhi].
  assert (Hk : 0 < 2 ^ (52 - Z.log2 P)) by (apply Z.pow_pos_nonneg; lia).
  replace (2 ^ 52) with (2 ^ Z.log2 P * 2 ^ (52 - Z.log2 P))
    by (rewrite <- Z.pow_add_r by lia; f_equal; lia).
  replace (2 ^ 53) with (2 ^ Z.succ (Z.log2 P) * 2 ^ (52 - Z.log2 P))
    by (rewrite <- Z.pow_add_r by lia; f_equal; lia).
  split.
  - apply Z.mul_le_mono_nonneg_r; lia.
  - apply Z.mul_lt_mono_pos_r; lia.
Qed.

Lemma binary_round_exact s mx P j :
  Z.pos mx = P * 2 ^ j -> 0 <= j -> 0 < P < 2 ^ 53 ->
  binary_round prec emax s mx (- j) = SFint s P.
Proof.
  intros Hmx Hj HP. pose proof (log2_bounds P HP) as HL.
  unfold binary_round.
  rewrite digits2_pos_log2, Hmx, Z.log2_mul_pow2, fexp64 by lia.
  replace (Z.max (j + Z.log2 P + 1 + - j - 53) (-1074)) with (Z.log2 P - 52)
    by lia.
  destruct (shl_align mx (- j) (Z.log2 P - 52)) as [mz ez] eqn:E.
  pose proof (shl_align_fst mx (- j) (Z.log2 P - 52)) as Hfst.
  pose proof (shl_align_snd mx (- j) (Z.log2 P - 52)) as Hsnd.
  rewrite E in Hfst, Hsnd. cbn [fst snd] in Hfst, Hsnd.
  set (n := Z.log2 P - 52 - ez).
  assert (Hn : 0 <= n) by lia.
  replace (Z.pos mz) with (P * 2 ^ (52 - Z.log2 P) * 2 ^ n).
  - replace ez with (Z.log2 P - 52 - n) by lia.
    apply binary_round_aux_exact; [lia | apply mantissa_bounds; lia | lia].
  - rewrite Hfst, Hmx, <- !Z.mul_assoc, <- !Z.pow_add_r by lia.
    f_equal. f_equal. lia.
Qed.

Lemma binary_normalize_exact z j sz :
  0 <= j -> z <> 0 -> Z.abs z < 2 ^ 53 ->
  binary_normalize prec emax (z * 2 ^ j) (- j) sz = SFint (z <? 0) (Z.abs z).
Proof.
  intros Hj Hz Hb.
  assert (Hpow : 0 < 2 ^ j) by (apply Z.pow_pos_nonneg; lia).
  destruct (z * 2 ^ j) as [|q|q] eqn:E; cbn [binary_normalize].
  - lia.
  - assert (0 < z) by nia.
    replace (z <? 0) with false by lia.
    apply binary_round_exact; [rewrite Z.abs_eq by lia; lia | lia | lia].
  - assert (z < 0) by nia.
    replace (z <? 0) with true by lia.
    apply binary_round_exact; [rewrite Z.abs_neq by lia; lia | lia | lia].
Qed.

Lemma SFofZ_canon z : Z.abs z < 2 ^ 53 -> SFofZ z = SFcanon z.
Proof.
  intros Hb. unfold SFofZ, SFcanon.
  destruct (Z.eqb_spec z 0) as [-> | Hz]; [reflexivity|].
  pose proof (binary_normalize_exact z 0 false) as H.
  rewrite Z.pow_0_r, Z.mul_1_r in H. apply H; lia.
Qed.

Lemma cond_Zopp_abs z x : cond_Zopp (z <? 0) (Z.abs z * x) = z * x.
Proof. unfold cond_Zopp. destruct (Z.ltb_spec z 0); lia. Qed.

(** The mantissa of [SFint s P], aligned to an exponent [ez] not above its
    own, is [P] followed by [- ez] zeros. *)
Lemma SFint_aligned P ez :
  0 < P < 2 ^ 53 -> ez <= Z.log2 P - 52 ->
  Z.pos (Z.to_pos (P * 2 ^ (52 - Z.log2 P))) * 2 ^ (Z.log2 P - 52 - ez)
    = P * 2 ^ (- ez).
Proof.
  intros HP He. pose proof (log2_bounds P HP) as HL.
  pose proof (mantissa_bounds P HP) as HM.
  rewrite Z2Pos.id by lia.
  rewrite <- Z.mul_assoc, <- Z.pow_add_r by lia. f_equal. f_equal. lia.
Qed.

Lemma aligned_sum (sub : bool) a b :
  a <> 0 -> b <> 0 -> Z.abs a < 2 ^ 53 -> Z.abs b < 2 ^ 53 ->
  let ea := Z.log2 (Z.abs a) - 52 in
  let eb := Z.log2 (Z.abs b) - 52 in
  let ma := Z.to_pos (Z.abs a * 2 ^ (52 - Z.log2 (Z.abs a))) in
  let mb := Z.to_pos (Z.abs b * 2 ^ (52 - Z.log2 (Z.abs b))) in
  let ez := Z.min ea eb in
  let x := cond_Zopp (a <? 0) (Z.pos (fst (shl_align ma ea ez))) in
  let y := cond_Zopp (b <? 0) (Z.pos (fst (shl_align mb eb ez))) in
  0 <= - ez /\
  (if sub then x - y else x + y)
    = (if sub then a - b else a + b) * 2 ^ (- ez).
Proof.
  intros Ha Hb Ba Bb ea eb ma mb ez x y.
  pose proof (log2_bounds (Z.abs a) ltac:(lia)) as HLa.
  pose proof (log2_bounds (Z.abs b) ltac:(lia)) as HLb.
  assert (Hx : x = a * 2 ^ (- ez)).
  { subst x. rewrite shl_align_fst.
    replace (ea - Z.min ea ez) with (Z.log2 (Z.abs a) - 52 - ez) by (subst ea ez; lia).
    subst ma. rewrite SFint_aligned by (subst ez ea; lia).
    apply cond_Zopp_abs. }
  assert (Hy : y = b * 2 ^ (- ez)).
  { subst y. rewrite shl_align_fst.
    replace (eb - Z.min eb ez) with (Z.log2 (Z.abs b) - 52 - ez) by (subst eb ez; lia).
    subst mb. rewrite SFint_aligned by (subst ez eb; lia).
    apply cond_Zopp_abs. }
  split; [subst ez ea eb; lia|].
  rewrite Hx, Hy. destruct sub; ring.
Qed.

Lemma binary_normalize_canon z j :
  0 <= j -> Z.abs z < 2 ^ 53 ->
  binary_normalize prec emax (z * 2 ^ j) (- j) false = SFcanon z.
Proof.
  intros Hj Hb. unfold SFcanon.
  destruct (Z.eqb_spec z 0) as [-> | Hz]; [reflexivity|].
  apply binary_normalize_exact; assumption.
Qed.

Theorem SFadd_canon a b :
  Z.abs a < 2 ^ 53 -> Z.abs b < 2 ^ 53 -> Z.abs (a + b) < 2 ^ 53 ->
  SFadd prec emax (SFcanon a) (SFcanon b) = SFcanon (a + b).
Proof.
  intros Ba Bb Bab.
  destruct (Z.eq_dec a 0) as [-> | Ha].
  { unfold SFcanon at 1. simpl (0 =? 0). cbn iota. rewrite Z.add_0_l.
    unfold SFcanon. destruct (b =? 0); reflexivity. }
  destruct (Z.eq_dec b 0) as [-> | Hb].
  { rewrite Z.add_0_r. unfold SFcanon at 2. simpl (0 =? 0). cbn iota.
    unfold SFcanon. destruct (a =? 0); reflexivity. }
  unfold SFcanon at 1 2.
  replace (a =? 0) with false by lia. replace (b =? 0) with false by lia.
  unfold SFint, SFadd.
  destruct (aligned_sum false a b Ha Hb Ba Bb) as [Hez Hsum].
  cbv zeta in Hsum. rewrite Hsum.
  set (ez := Z.min _ _) in *.
  replace ez with (- - ez) at 2 by lia.
  apply binary_normalize_canon; assumption.
Qed.

Theorem SFsub_canon a b :
  Z.abs a < 2 ^ 53 -> Z.abs b < 2 ^ 53 -> Z.abs (a - b) < 2 ^ 53 ->
  SFsub prec emax (SFcanon a) (SFcanon b) = SFcanon (a - b).
Proof.
  intros Ba Bb Bab.
  destruct (Z.eq_dec b 0) as [-> | Hb].
  { rewrite Z.sub_0_r. unfold SFcanon at 2. simpl (0 =? 0). cbn iota.
    unfold SFcanon. destruct (a =? 0); reflexivity. }
  destruct (Z.eq_dec a 0) as [-> | Ha].
  { unfold SFcanon. simpl (0 =? 0). cbn iota.
    replace (b =? 0) with false by lia.
    replace (0 - b =? 0) with false by lia.
    unfold SFint. cbn [SFsub].
    replace (Z.abs (0 - b)) with (Z.abs b) by lia.
    replace (0 - b <? 0) with (negb (b <? 0)) by lia. reflexivity. }
  unfold SFcanon at 1 2.
  replace (a =? 0) with false by lia. replace (b =? 0) with false by lia.
  unfold SFint, SFsub.
  destruct (aligned_sum true a b Ha Hb Ba Bb) as [Hez Hsum].
  cbv zeta in Hsum. rewrite Hsum.
  set (ez := Z.min _ _) in *.
  replace ez with (- - ez) at 2 by lia.
  apply binary_normalize_canon; assumption.
Qed.

Lemma SFint_compare Pa Pb :
  0 < Pa < 2 ^ 53 -> 0 < Pb < 2 ^ 53 ->
  match Z.log2 Pa - 52 ?= Z.log2 Pb - 52 with
  | Lt => Lt
  | Gt => Gt
  | Eq => Pos.compare_cont Eq (Z.to_pos (Pa * 2 ^ (52 - Z.log2 Pa)))
                              (Z.to_pos (Pb * 2 ^ (52 - Z.log2 Pb)))
  end = (Pa ?= Pb).
Proof.
  intros Ha Hb.
  pose proof (mantissa_bounds Pa Ha) as HMa.
  pose proof (mantissa_bounds Pb Hb) as HMb.
  pose proof (log2_bounds Pa Ha) as HLa.
  destruct (Z.compare_spec (Z.log2 Pa - 52) (Z.log2 Pb - 52)) as [E | E | E].
  - assert (EL : Z.log2 Pa = Z.log2 Pb) by lia.
    change (Pos.compare_cont Eq ?x ?y) with (Pos.compare x y).
    rewrite Pos2Z.inj_compare, !Z2Pos.id by lia.
    rewrite EL.
    assert (Hk : 0 < 2 ^ (52 - Z.log2 Pb)) by (apply Z.pow_pos_nonneg; lia).
    destruct (Z.compare_spec Pa Pb) as [C | C | C].
    + subst. apply Z.compare_refl.
    + apply Z.compare_lt_iff. nia.
    + apply Z.compare_gt_iff. nia.
  - symmetry. apply Z.compare_lt_iff. apply Z.log2_lt_cancel. lia.
  - symmetry. apply Z.compare_gt_iff. apply Z.log2_lt_cancel. lia.
Qed.

Theorem SFcompare_canon a b :
  Z.abs a < 2 ^ 53 -> Z.abs b < 2 ^ 53 ->
  SFcompare (SFcanon a) (SFcanon b) = Some (a ?= b).
Proof.
  intros Ba Bb. unfold SFcanon.
  destruct (Z.eqb_spec a 0) as [-> | Ha], (Z.eqb_spec b 0) as [-> | Hb].
  - reflexivity.
  - unfold SFint. cbn [SFcompare]. f_equal.
    destruct (Z.ltb_spec b 0); symmetry;
      [apply Z.compare_gt_iff | apply Z.compare_lt_iff]; lia.
  - unfold SFint. cbn [SFcompare]. f_equal.
    destruct (Z.ltb_spec a 0); symmetry;
      [apply Z.compare_lt_iff | apply Z.compare_gt_iff]; lia.
  - unfold SFint. cbn [SFcompare]. f_equal.
    pose proof (SFint_compare (Z.abs a) (Z.abs b) ltac:(lia) ltac:(lia)) as Hab.
    destruct (Z.ltb_spec a 0), (Z.ltb_spec b 0).
    + (* both negative: the order of the magnitudes, reversed *)
      transitivity (CompOpp (Z.abs a ?= Z.abs b)).
      * rewrite <- Hab.
        destruct (Z.log2 (Z.abs a) - 52 ?= Z.log2 (Z.abs b) - 52); reflexivity.
      * destruct (Z.compare_spec (Z.abs a) (Z.abs b)); cbn [CompOpp];
          symmetry; [apply Z.compare_eq_iff | apply Z.compare_gt_iff
                    | apply Z.compare_lt_iff]; lia.
    + symmetry. apply Z.compare_lt_iff. lia.
    + symmetry. apply Z.compare_gt_iff. lia.
    + rewrite Hab.
      destruct (Z.compare_spec (Z.abs a) (Z.abs b));
        symmetry; [apply Z.compare_eq_iff | apply Z.compare_lt_iff
                  | apply Z.compare_gt_iff]; lia.
Qed.

Lemma SFint_part_canon z : Z.abs z < 2 ^ 53 -> SFint_part (SFcanon z) = Some z.
Proof.
  intros Hb. unfold SFcanon.
  destruct (Z.eqb_spec z 0) as [-> | Hz]; [reflexivity|].
  unfold SFint, SFint_part. f_equal.
  pose proof (log2_bounds (Z.abs z) ltac:(lia)) as HL.
  pose proof (mantissa_bounds (Z.abs z) ltac:(lia)) as HM.
  rewrite Z2Pos.id by lia.
  assert (Hk : 0 < 2 ^ (52 - Z.log2 (Z.abs z))) by (apply Z.pow_pos_nonneg; lia).
  destruct (Z.leb_spec 0 (Z.log2 (Z.abs z) - 52)).
  - replace (Z.log2 (Z.abs z)) with 52 by lia. simpl (2 ^ _).
    rewrite !Z.mul_1_r. unfold cond_Zopp. destruct (Z.ltb_spec z 0); lia.
  - replace (- (Z.log2 (Z.abs z) - 52)) with (52 - Z.log2 (Z.abs z)) by lia.
    rewrite Z.div_mul by lia.
    unfold cond_Zopp. destruct (Z.ltb_spec z 0); lia.
Qed.

Lemma SFtrunc_canon z : Z.abs z < 2 ^ 53 -> SFtrunc (SFcanon z) = SFcanon z.
Proof.
  intros Hb. unfold SFcanon.
  destruct (Z.eqb_spec z 0) as [-> | Hz]; [reflexivity|].
  unfold SFint at 1. unfold SFtrunc.
  pose proof (log2_bounds (Z.abs z) ltac:(lia)) as HL.
  pose proof (mantissa_bounds (Z.abs z) ltac:(lia)) as HM.
  destruct (Z.ltb_spec (Z.log2 (Z.abs z) - 52) 0); [|reflexivity].
  rewrite Z2Pos.id by lia.
  replace (- (Z.log2 (Z.abs z) - 52)) with (52 - Z.log2 (Z.abs z)) by lia.
  assert (Hk : 0 < 2 ^ (52 - Z.log2 (Z.abs z))) by (apply Z.pow_pos_nonneg; lia).
  rewrite Z.div_mul by lia.
  pose proof (binary_normalize_exact z 0 (z <? 0) ltac:(lia) Hz Hb) as H0.
  rewrite Z.pow_0_r, Z.mul_1_r in H0. simpl (- 0) in H0.
  replace (cond_Zopp (z <? 0) (Z.abs z)) with z; [exact H0|].
  unfold cond_Zopp. destruct (Z.ltb_spec z 0); lia.
Qed.

(** *** The same facts on primitive floats *)

Lemma Prim2SF_of_uint32 n :
  0 <= n < 2 ^ 53 -> Prim2SF (of_uint32 n) = SFcanon n.
Proof.
  intros Hn. unfold of_uint32.
  rewrite FloatAxioms.of_uint63_spec, Uint63.of_Z_spec, Z.mod_small.
  - apply SFofZ_canon. lia.
  - change wB with (2 ^ 63). split; [lia|].
    apply Z.lt_trans with (2 ^ 53); [lia | reflexivity].
Qed.

Lemma SFopp_canon z : SFopp (SFcanon z) = 
  if z =? 0 then S754_zero true else SFcanon (- z).
Proof.
  unfold SFcanon. destruct (Z.eqb_spec z 0) as [-> | Hz]; [reflexivity|].
  replace (- z =? 0) with false by lia.
  unfold SFint. cbn [SFopp]. rewrite Z.abs_opp.
  replace (- z <? 0) with (negb (z <? 0)) by lia. reflexivity.
Qed.

Lemma Prim2SF_of_Z z : Z.abs z < 2 ^ 53 -> Prim2SF (of_Z z) = SFcanon z.
Proof.
  intros Hb. unfold of_Z. destruct (Z.ltb_spec z 0).
  - rewrite FloatAxioms.opp_spec, Prim2SF_of_uint32, SFopp_canon by lia.
    replace (- z =? 0) with false by lia. f_equal. lia.
  - apply Prim2SF_of_uint32. lia.
Qed.

Lemma of_uint32_of_Z n : 0 <= n -> of_uint32 n = of_Z n.
Proof. intros Hn. unfold of_Z. replace (n <? 0) with false by lia. reflexivity. Qed.

Theorem of_Z_add a b :
  Z.abs a < 2 ^ 53 -> Z.abs b < 2 ^ 53 -> Z.abs (a + b) < 2 ^ 53 ->
  (of_Z a + of_Z b)%float = of_Z (a + b).
Proof.
  intros Ba Bb Bab. apply Prim2SF_inj.
  rewrite FloatAxioms.add_spec, !Prim2SF_of_Z by assumption.
  apply SFadd_canon; assumption.
Qed.

Theorem of_Z_sub a b :
  Z.abs a < 2 ^ 53 -> Z.abs b < 2 ^ 53 -> Z.abs (a - b) < 2 ^ 53 ->
  (of_Z a - of_Z b)%float = of_Z (a - b).
Proof.
  intros Ba Bb Bab. apply Prim2SF_inj.
  rewrite FloatAxioms.sub_spec, !Prim2SF_of_Z by assumption.
  apply SFsub_canon; assumption.
Qed.

Theorem of_Z_eqb a b :
  Z.abs a < 2 ^ 53 -> Z.abs b < 2 ^ 53 ->
  (of_Z a =? of_Z b)%float = (a =? b).
Proof.
  intros Ba Bb. rewrite FloatAxioms.eqb_spec, !Prim2SF_of_Z by assumption.
  unfold SFeqb. rewrite SFcompare_canon by assumption.
  destruct (Z.compare_spec a b), (Z.eqb_spec a b); try reflexivity; lia.
Qed.

Theorem of_Z_leb a b :
  Z.abs a < 2 ^ 53 -> Z.abs b < 2 ^ 53 ->
  (of_Z a <=? of_Z b)%float = (a <=? b).
Proof.
  intros Ba Bb. rewrite FloatAxioms.leb_spec, !Prim2SF_of_Z by assumption.
  unfold SFleb. rewrite SFcompare_canon by assumption.
  destruct (Z.compare_spec a b), (Z.leb_spec a b); try reflexivity; lia.
Qed.

Theorem trunc_of_Z z : Z.abs z < 2 ^ 53 -> trunc (of_Z z) = of_Z z.
Proof.
  intros Hb. unfold trunc.
  rewrite Prim2SF_of_Z, SFtrunc_canon, <- Prim2SF_of_Z by assumption.
  apply SF2Prim_Prim2SF.
Qed.

Theorem to_int32_of_Z z :
  INT32_MIN <= z <= INT32_MAX -> to_int32 (of_Z z) = Some z.
Proof.
  intros Hz. unfold INT32_MIN, INT32_MAX in Hz.
  assert (Hb : Z.abs z < 2 ^ 53) by lia.
  unfold to_int32, int_part.
  rewrite Prim2SF_of_Z, SFint_part_canon by assumption.
  unfold INT32_MIN, INT32_MAX.
  replace ((- 2 ^ 31 <=? z) && (z <=? 2 ^ 31 - 1)) with true; [reflexivity|].
  symmetry. apply andb_true_iff. split; apply Z.leb_le; lia.
Qed.

Lemma one_of_Z : PrimFloat.one = of_Z 1.
Proof. reflexivity. Qed.

End DoubleFacts.

Section NativeBridge.

(** C10.  [pkGetArgBool] is total on the argument window: at every valid
    argument position, 1 to ARGC, whatever value [v] sits there, it returns
    true with the truthiness of [v], and the VM (the error channel with it)
    is left as it was. *)
Theorem pkGetArgBool_total (vm : PKVM) (f : Fiber) (arg : Z) :
  fiber vm = Some f ->
  1 <= arg <= ARGC_of f ->
  exists v, ret f !! Z.to_nat arg = Some v /\
            pkGetArgBool arg vm = Return (true, toBool v) vm.
Proof.
  intros Hf [Hlo Hhi].
  destruct (lookup_lt_is_Some_2 (ret f) (Z.to_nat arg)) as [v Hv].
  { unfold ARGC_of in Hhi. lia. }
  exists v. split; [exact Hv|].
  unfold pkGetArgBool.
  assert (E1 : (0 <? arg) = true) by lia.
  assert (E2 : (arg <? 0) = false) by lia.
  vm_run. rewrite E1, E2. vm_run. reflexivity.
Qed.

End NativeBridge.

(** [pkGetArgBool] on the call [f(true)], argument 1. *)
Lemma pkGetArgBool_total_witness :
  let vm := vm_of [] [VAR_NULL; VAR_BOOL true] in
  let f := {| ret := [VAR_NULL; VAR_BOOL true]; error := None |} in
  (fiber vm = Some f /\ 1 <= 1 <= ARGC_of f) /\
  exists v, ret f !! Z.to_nat 1 = Some v /\
            pkGetArgBool 1 vm = Return (true, toBool v) vm.
Proof.
  split; [split; [reflexivity | vm_compute; split; discriminate]|].
  apply pkGetArgBool_total; [reflexivity|].
  vm_compute; split; discriminate.
Defined.

Section Builtins.
Context {host : Host}.

(** C6.  [hash] is total: with any value in the argument slot it returns,
    leaves the heap and the error channel as they were, and writes to the
    return slot a Number for Null, Bool, Number and String and Null for
    List, Map, Range, Function, Script, Fiber and UserObj. *)
Theorem coreHash_total (vm : PKVM) (f : Fiber) (r0 arg1 : Var) (rest : list Var) :
  fiber vm = Some f ->
  ret f = r0 :: arg1 :: rest ->
  on_heap (heap vm) arg1 ->
  coreHash vm =
    Return tt (with_result vm
                 (hash_result (varHashValue (heap vm) arg1) (heap vm) arg1))
  /\ error_message (with_result vm
                      (hash_result (varHashValue (heap vm) arg1) (heap vm) arg1))
     = error_message vm.
Proof.
  intros Hf Hr Hv. split.
  - unfold coreHash, with_result, hash_result. rewrite Hf.
    destruct arg1 as [| | b | d | p]; vm_run; try reflexivity.
    simpl in Hv. destruct Hv as [o Ho]. rewrite Ho.
    destruct o; vm_run; reflexivity.
  - unfold error_message, with_result. rewrite Hf. reflexivity.
Qed.

(** [assert] with a number of arguments other than 1 or 2. *)
Lemma coreAssert_arity (vm : PKVM) (f : Fiber) :
  fiber vm = Some f ->
  ARGC_of f <> 1 -> ARGC_of f <> 2 ->
  coreAssert vm = Return tt (with_error vm "Invalid argument count.").
Proof.
  intros Hf H1 H2. unfold coreAssert, with_error.
  assert (E1 : (ARGC_of f =? 1) = false) by lia.
  assert (E2 : (ARGC_of f =? 2) = false) by lia.
  vm_run. rewrite E1, E2. vm_run. reflexivity.
Qed.

(** [assert] on a truthy condition leaves the VM untouched. *)
Lemma coreAssert_truthy (vm : PKVM) (f : Fiber) (r0 cond : Var) (rest : list Var) :
  fiber vm = Some f ->
  ret f = r0 :: cond :: rest ->
  (length rest <= 1)%nat ->
  toBool cond = true ->
  coreAssert vm = Return tt vm.
Proof.
  intros Hf Hr Hn Hc. unfold coreAssert, ARGC_of.
  destruct rest as [|m [|]]; simpl in Hn; try lia;
    vm_run; rewrite Hc; reflexivity.
Qed.

(** [assert] on a falsy condition, without a message. *)
Lemma coreAssert_falsy (vm : PKVM) (f : Fiber) (r0 cond : Var) :
  fiber vm = Some f ->
  ret f = [r0; cond] ->
  toBool cond = false ->
  coreAssert vm = Return tt (with_error vm "Assertion failed.").
Proof.
  intros Hf Hr Hc. unfold coreAssert, ARGC_of, with_error.
  vm_run. rewrite Hc. vm_run. reflexivity.
Qed.

(** [assert] on a falsy condition, with a String as the message. *)
Lemma coreAssert_falsy_string (vm : PKVM) (f : Fiber) (r0 cond : Var)
    (q : loc) (text : string) :
  fiber vm = Some f ->
  ret f = [r0; cond; VAR_OBJ q] ->
  heap vm !! q = Some (ObjString text) ->
  toBool cond = false ->
  coreAssert vm =
    Return tt (with_error vm (format "Assertion failed: '@'." [text])).
Proof.
  intros Hf Hr Hq Hc. unfold coreAssert, ARGC_of, with_error.
  vm_run. rewrite Hc. vm_run. reflexivity.
Qed.

(** C7.  [assert(false, msg)] with a message that is not an object (here a
    Number): the code reads [AS_OBJ(ARG2)->type] without testing [IS_OBJ]
    first, so it follows a pointer that is none; no "Assertion failed:"
    error is set. *)
Theorem coreAssert_number_message (h : list Object) (r0 : Var) (d : float) :
  coreAssert (vm_of h [r0; VAR_BOOL false; VAR_NUM d]) = Abort AbortUndefined.
Proof. reflexivity. Qed.

End Builtins.

(** [hash([])]: the argument is a List. *)
Lemma coreHash_total_witness :
  let vm := vm_of [ObjList []] [VAR_NULL; VAR_OBJ 0%nat] in
  let f := {| ret := [VAR_NULL; VAR_OBJ 0%nat]; error := None |} in
  (fiber vm = Some f /\ ret f = [VAR_NULL; VAR_OBJ 0%nat]
   /\ on_heap (heap vm) (VAR_OBJ 0%nat)) /\
  @coreHash release_host vm = Return tt (with_result vm VAR_NULL)
  /\ error_message (with_result vm VAR_NULL) = error_message vm.
Proof.
  split.
  - repeat split. exists (ObjList []). reflexivity.
  - apply (@coreHash_total release_host
             (vm_of [ObjList []] [VAR_NULL; VAR_OBJ 0%nat])
             {| ret := [VAR_NULL; VAR_OBJ 0%nat]; error := None |}
             VAR_NULL (VAR_OBJ 0%nat) []); [reflexivity | reflexivity |].
    exists (ObjList []). reflexivity.
Defined.

Section Operators.
Context {host : Host}.

(** C8, as the code has it.  On a pair with a non-numeric operand the two
    comparisons reach the [TODO] placeholder: where it aborts the call
    aborts, elsewhere the call returns false and the VM, error channel
    included, is as before.  No error is set in either case. *)
Theorem comparison_non_numeric (v1 v2 : Var) (vm : PKVM) :
  isNumeric v1 = None \/ isNumeric v2 = None ->
  varGreater v1 v2 vm
    = (if TODO_aborts then Abort AbortTODO else Return false vm)
  /\ varLesser v1 v2 vm
    = (if TODO_aborts then Abort AbortTODO else Return false vm).
Proof.
  intros H. unfold varGreater, varLesser.
  assert (E : match isNumeric v1, isNumeric v2 with
              | Some _, Some _ => False
              | _, _ => True
              end).
  { destruct H as [-> | ->]; [exact I|]. destruct (isNumeric v1); exact I. }
  destruct (isNumeric v1), (isNumeric v2); try contradiction;
    vm_unfold; destruct TODO_aborts; split; reflexivity.
Qed.

(** The report of unsupported operand types, run on a VM with a fiber. *)
Lemma UNSUPPORT_OPERAND_TYPES_run (op : ArithOp) (v1 v2 : Var) (vm : PKVM) :
  is_Some (fiber vm) ->
  UNSUPPORT_OPERAND_TYPES (op_symbol op) v1 v2 vm
    = Return tt (with_error vm
        (unsupported_operands op (varTypeName (heap vm) v1)
                                 (varTypeName (heap vm) v2))).
Proof.
  intros [f Hf]. unfold with_error, unsupported_operands.
  vm_run. reflexivity.
Qed.

(** C2, as the code has it.  When the left operand is not numeric and the
    operands are not two Strings, each of the five arithmetic operators
    returns Null and reports "Unsupported operand types": the message is
    allocated, the error channel points to it, and nothing else changes.
    This holds in every build for the calls that do not pass a [TODO]
    placeholder, and for all such calls where [TODO] does not abort. *)
Theorem arithmetic_type_mismatch (op : ArithOp) (v1 v2 : Var) (vm : PKVM) :
  is_Some (fiber vm) ->
  on_heap (heap vm) v1 -> on_heap (heap vm) v2 ->
  isNumeric v1 = None ->
  is_string (heap vm) v1 && is_string (heap vm) v2 = false ->
  TODO_aborts = false \/ passes_TODO op (heap vm) v1 v2 = false ->
  arith op v1 v2 vm
    = Return VAR_NULL
        (with_error vm
           (unsupported_operands op (varTypeName (heap vm) v1)
                                    (varTypeName (heap vm) v2))).
Proof.
  intros Hfib H1 H2 Hnum Hpair Htodo.
  pose proof (UNSUPPORT_OPERAND_TYPES_run op v1 v2 vm Hfib) as Herr.
  destruct op; simpl in *; unfold varAdd, varSubtract, varMultiply, varDivide,
    varModulo, varAdd_objects; rewrite Hnum;
    try (unfold bind at 1; rewrite Herr; reflexivity).
  - (* varAdd *)
    destruct v1 as [| | | |p1]; try discriminate;
      try (unfold bind at 1; simpl; unfold bind at 1; rewrite Herr; reflexivity).
    destruct v2 as [| | | |p2];
      try (unfold bind at 1; simpl; unfold bind at 1; rewrite Herr; reflexivity).
    simpl in H1, H2, Hpair, Htodo.
    destruct H1 as [o1 Ho1], H2 as [o2 Ho2].
    rewrite Ho1 in Hpair, Htodo. rewrite Ho2 in Hpair.
    unfold bind at 1. simpl. unfold bind at 1 2 3 4 5.
    unfold AS_OBJ, pure, load. rewrite Ho1, Ho2.
    destruct o1; simpl in *;
      try (unfold bind at 1; rewrite Herr; reflexivity).
    + destruct o2; simpl in *; try discriminate;
        unfold bind at 1; rewrite Herr; reflexivity.
    + destruct Htodo as [Ht | Ht]; [|discriminate].
      unfold TODO. rewrite Ht. simpl.
      unfold bind at 1. rewrite Herr. reflexivity.
  - (* varModulo *)
    destruct v1 as [| | | |p1]; try discriminate; simpl;
      try (unfold bind at 1 2; simpl; rewrite Herr; reflexivity).
    simpl in H1, Htodo. destruct H1 as [o1 Ho1]. rewrite Ho1 in Htodo.
    unfold bind at 1 2 3 4. unfold AS_OBJ, pure, load. rewrite Ho1.
    destruct o1; simpl in *; try (rewrite Herr; reflexivity).
    destruct Htodo as [Ht | Ht]; [|discriminate].
    unfold TODO. rewrite Ht. simpl. rewrite Herr. reflexivity.
Qed.

End Operators.

(** [null > 1] and [null < 1] in a build whose TODO is empty. *)
Lemma comparison_non_numeric_witness :
  let vm := vm_of [] [] in
  (isNumeric VAR_NULL = None \/ isNumeric (VAR_NUM 1) = None) /\
  (@varGreater release_host VAR_NULL (VAR_NUM 1) vm = Return false vm
   /\ @varLesser release_host VAR_NULL (VAR_NUM 1) vm = Return false vm).
Proof.
  split; [left; reflexivity|].
  apply (@comparison_non_numeric release_host VAR_NULL (VAR_NUM 1) (vm_of [] [])).
  left; reflexivity.
Defined.

(** C8, refuted.  [null > 1] and [null < 1] return false and set no error
    where TODO is empty, and abort where TODO aborts: in neither build does
    the error channel receive a TypeMismatch. *)
Lemma comparison_sets_no_error :
  let vm := vm_of [] [] in
  @varGreater release_host VAR_NULL (VAR_NUM 1) vm = Return false vm
  /\ @varLesser release_host VAR_NULL (VAR_NUM 1) vm = Return false vm
  /\ error_message vm = None
  /\ @varGreater debug_host VAR_NULL (VAR_NUM 1) vm = Abort AbortTODO
  /\ @varLesser debug_host VAR_NULL (VAR_NUM 1) vm = Abort AbortTODO.
Proof. repeat split. Qed.

(** [[] - 1]: a List minus a Number. *)
Lemma arithmetic_type_mismatch_witness :
  let vm := vm_of [ObjList []] [] in
  let v1 := VAR_OBJ 0%nat in
  let v2 := VAR_NUM 1 in
  (is_Some (fiber vm) /\ on_heap (heap vm) v1 /\ on_heap (heap vm) v2
   /\ isNumeric v1 = None
   /\ is_string (heap vm) v1 && is_string (heap vm) v2 = false
   /\ (@TODO_aborts debug_host = false
       \/ passes_TODO OpSub (heap vm) v1 v2 = false)) /\
  @arith debug_host OpSub v1 v2 vm
    = Return VAR_NULL
        (with_error vm
           "Unsupported operand types for operator '-' List and Number").
Proof.
  split.
  - split; [eexists; reflexivity|].
    split; [exists (ObjList []); reflexivity|].
    split; [exact I|].
    split; [reflexivity|]. split; [reflexivity|]. right; reflexivity.
  - apply (@arithmetic_type_mismatch debug_host OpSub (VAR_OBJ 0%nat)
             (VAR_NUM 1) (vm_of [ObjList []] [])).
    + eexists; reflexivity.
    + exists (ObjList []); reflexivity.
    + exact I.
    + reflexivity.
    + reflexivity.
    + right; reflexivity.
Defined.

(** C2, refuted.  [[] + []] where TODO aborts: the List case of [varAdd]
    is a TODO, so the call aborts there; it neither returns Null nor sets an
    error. *)
Lemma list_plus_list_aborts :
  @varAdd debug_host (VAR_OBJ 0%nat) (VAR_OBJ 0%nat) (vm_of [ObjList []] [])
    = Abort AbortTODO
  /\ isNumeric (VAR_OBJ 0%nat) = None
  /\ is_string [ObjList []] (VAR_OBJ 0%nat) = false.
Proof. repeat split. Qed.

Section Subscripts.
Context {host : Host}.

(** The integer validation accepts the Number of every [int32_t]. *)
Lemma validateIngeger_num (i : Z) (name : string) (vm : PKVM) :
  Double.INT32_MIN <= i <= Double.INT32_MAX ->
  validateIngeger (num i) name vm = Return (Some i) vm.
Proof.
  intros Hi. unfold validateIngeger, num. cbn [isNumeric].
  assert (Hb : Z.abs i < 2 ^ 53).
  { unfold Double.INT32_MIN, Double.INT32_MAX in Hi. lia. }
  rewrite DoubleFacts.trunc_of_Z, DoubleFacts.of_Z_eqb, Z.eqb_refl,
    DoubleFacts.to_int32_of_Z by assumption.
  reflexivity.
Qed.

Lemma int32_of_count (n : nat) :
  Z.of_nat n <= Double.INT32_MAX ->
  Double.int32_of_uint32 (Z.of_nat n) = Z.of_nat n.
Proof.
  intros Hn. unfold Double.int32_of_uint32.
  destruct (Z.leb_spec (Z.of_nat n) Double.INT32_MAX); [reflexivity | lia].
Qed.

(** C3.  On a List (whose count fits the [int] the code casts it to) and
    with the Number of an integer [i] as the subscript: when [i] is in
    [0, count), [l[i] = v] replaces element [i] in place and a following
    read of [l[i]] returns [v]; when [i] is outside, the write reports
    "List index out of range." and the List is as it was. *)
Theorem list_subscript_set_get (vm : PKVM) (p : loc) (elems : list Var)
    (i : Z) (v : Var) :
  heap vm !! p = Some (ObjList elems) ->
  Z.of_nat (length elems) <= Double.INT32_MAX ->
  Double.INT32_MIN <= i <= Double.INT32_MAX ->
  (0 <= i < Z.of_nat (length elems) ->
   let vm' := with_object vm p (ObjList (<[Z.to_nat i := v]> elems)) in
   varsetSubscript (VAR_OBJ p) (num i) v vm = Return tt vm'
   /\ varGetSubscript (VAR_OBJ p) (num i) vm' = Return v vm')
  /\ (~ (0 <= i < Z.of_nat (length elems)) ->
      is_Some (fiber vm) ->
      let vm' := with_error vm (format "$ index out of range." ["List"]) in
      varsetSubscript (VAR_OBJ p) (num i) v vm = Return tt vm'
      /\ heap vm' !! p = Some (ObjList elems)).
Proof.
  intros Hp Hlen Hi.
  pose proof (lookup_lt_Some _ _ _ Hp) as Hlt.
  split.
  - intros Hin vm'. subst vm'. split.
    + unfold varsetSubscript. cbn [IS_OBJ negb]. unfold bind at 1 2.
      cbn [AS_OBJ pure]. unfold load. rewrite Hp.
      unfold bind at 1. rewrite validateIngeger_num by assumption.
      rewrite int32_of_count by assumption.
      unfold validateIndex.
      replace ((i <? 0) || (Z.of_nat (length elems) <=? i)) with false
        by (symmetry; apply orb_false_iff; lia).
      reflexivity.
    + unfold varGetSubscript. cbn [IS_OBJ negb]. unfold bind at 1 2.
      cbn [AS_OBJ pure]. unfold load, with_object. cbn [heap].
      rewrite list_lookup_insert_eq by assumption.
      unfold bind at 1. rewrite validateIngeger_num by assumption.
      rewrite length_insert, int32_of_count by assumption.
      unfold validateIndex.
      replace ((i <? 0) || (Z.of_nat (length elems) <=? i)) with false
        by (symmetry; apply orb_false_iff; lia).
      unfold bind, pure.
      rewrite list_lookup_insert_eq by lia. reflexivity.
  - intros Hout [f Hf] vm'. subst vm'. split.
    + unfold varsetSubscript. cbn [IS_OBJ negb]. unfold bind at 1 2.
      cbn [AS_OBJ pure]. unfold load. rewrite Hp.
      unfold bind at 1. rewrite validateIngeger_num by assumption.
      rewrite int32_of_count by assumption.
      unfold validateIndex.
      replace ((i <? 0) || (Z.of_nat (length elems) <=? i)) with true
        by (symmetry; apply orb_true_iff; lia).
      unfold with_error. vm_run. reflexivity.
    + unfold with_error. cbn [heap]. rewrite lookup_app_l by assumption.
      exact Hp.
Qed.

Lemma Var_same_refl (k : Var) : Var_same k k = true.
Proof.
  destruct k as [| | b | d | p]; cbn [Var_same]; try reflexivity.
  - destruct b; reflexivity.
  - apply FloatAxioms.Leibniz.eqb_spec. reflexivity.
  - apply Nat.eqb_refl.
Qed.

Lemma find_replace_value (k v : Var) (es : list MapEntry) :
  existsb (slot_holds k) es = true ->
  exists e, List.find (slot_holds k) (replace_value k v es) = Some e
            /\ value e = v.
Proof.
  induction es as [|e es IH]; cbn [existsb replace_value]; [discriminate|].
  destruct (slot_holds k e) eqn:E.
  - intros _. exists {| key := key e; value := v |}.
    cbn [List.find]. unfold slot_holds in *. cbn [key]. rewrite E.
    split; reflexivity.
  - cbn [orb List.find]. rewrite E. exact IH.
Qed.

Lemma find_occupy_free (k v : Var) (es : list MapEntry) :
  k <> VAR_UNDEF ->
  existsb (slot_holds k) es = false ->
  List.find (slot_holds k) (occupy_free k v es) = Some {| key := k; value := v |}.
Proof.
  intros Hk.
  assert (Hnew : slot_holds k {| key := k; value := v |} = true).
  { unfold slot_holds. cbn [key]. rewrite Var_same_refl.
    destruct k; try reflexivity. contradiction. }
  induction es as [|e es IH]; cbn [existsb occupy_free].
  - intros _. cbn [List.find]. rewrite Hnew. reflexivity.
  - intros H. apply orb_false_iff in H as [He Hes].
    destruct (IS_UNDEF (key e)).
    + cbn [List.find]. rewrite Hnew. reflexivity.
    + cbn [List.find]. rewrite He. exact (IH Hes).
Qed.

(** The modelled map is an upsert: what was set under a key is what is got
    under it. *)
Lemma mapGet_mapSet (m : Map) (k v : Var) :
  k <> VAR_UNDEF -> mapGet (mapSet m k v) k = v.
Proof.
  intros Hk. unfold mapGet, mapSet.
  destruct (existsb (slot_holds k) (entries m)) eqn:E; cbn [entries].
  - destruct (find_replace_value k v _ E) as (e & -> & Hv). exact Hv.
  - rewrite find_occupy_free by assumption. reflexivity.
Qed.

(** C4.  On a Map: with a key that is an object of a non-hashable kind the
    write reports "<type> type is not hashable." and the Map is as it was;
    with a hashable key the write stores the upserted Map in place, and a
    following read of [m[k]] returns the value written. *)
Theorem map_subscript_set (vm : PKVM) (p : loc) (m : Map) (k v : Var) :
  heap vm !! p = Some (ObjMap m) ->
  is_Some (fiber vm) ->
  (forall q o, k = VAR_OBJ q -> heap vm !! q = Some o ->
     obj_type o <> OBJ_STRING ->
     let vm' := with_error vm (format "$ type is not hashable."
                                 [varTypeName (heap vm) k]) in
     varsetSubscript (VAR_OBJ p) k v vm = Return tt vm'
     /\ heap vm' !! p = Some (ObjMap m))
  /\ (hashable_key (heap vm) k = true -> v <> VAR_UNDEF ->
      let vm' := with_object vm p (ObjMap (mapSet m k v)) in
      varsetSubscript (VAR_OBJ p) k v vm = Return tt vm'
      /\ varGetSubscript (VAR_OBJ p) k vm' = Return v vm').
Proof.
  intros Hp [f Hf].
  pose proof (lookup_lt_Some _ _ _ Hp) as Hlt.
  split.
  - intros q o -> Hq Hkind vm'. subst vm'. split.
    + unfold varsetSubscript, with_error. cbn [IS_OBJ negb].
      vm_run.
      destruct o; try contradiction; vm_run; reflexivity.
    + unfold with_error. cbn [heap]. rewrite lookup_app_l by assumption.
      exact Hp.
  - intros Hk Hv vm'. subst vm'.
    assert (Hset : key_not_hashable k vm = Return false vm).
    { destruct k as [| | b | d | q]; try reflexivity.
      cbn [hashable_key is_string] in Hk. unfold key_not_hashable.
      vm_run. destruct (heap vm !! q) as [[]|]; try discriminate.
      reflexivity. }
    split.
    + unfold varsetSubscript. cbn [IS_OBJ negb]. unfold bind at 1 2.
      cbn [AS_OBJ pure]. unfold load. rewrite Hp.
      unfold bind at 1. rewrite Hset. reflexivity.
    + unfold varGetSubscript. cbn [IS_OBJ negb]. unfold bind at 1 2.
      cbn [AS_OBJ pure]. unfold load, with_object. cbn [heap].
      rewrite list_lookup_insert_eq by assumption.
      rewrite mapGet_mapSet by (intros ->; discriminate).
      destruct v; try contradiction; reflexivity.
Qed.

End Subscripts.

(** [l[1] = null] on a List of two elements, then [l[1]]. *)
Lemma list_subscript_set_get_witness :
  let vm := vm_of [ObjList [VAR_BOOL true; VAR_BOOL false]] [] in
  let vm' := vm_of [ObjList [VAR_BOOL true; VAR_NULL]] [] in
  (heap vm !! 0%nat = Some (ObjList [VAR_BOOL true; VAR_BOOL false])
   /\ Z.of_nat 2 <= Double.INT32_MAX
   /\ Double.INT32_MIN <= 1 <= Double.INT32_MAX
   /\ 0 <= 1 < Z.of_nat 2) /\
  @varsetSubscript release_host (VAR_OBJ 0%nat) (num 1) VAR_NULL vm
    = Return tt vm'
  /\ @varGetSubscript release_host (VAR_OBJ 0%nat) (num 1) vm'
    = Return VAR_NULL vm'.
Proof.
  assert (H1 : Z.of_nat 2 <= Double.INT32_MAX) by (vm_compute; discriminate).
  assert (H2 : Double.INT32_MIN <= 1 <= Double.INT32_MAX)
    by (vm_compute; split; discriminate).
  assert (H3 : 0 <= 1 < Z.of_nat 2) by (vm_compute; split; [discriminate | reflexivity]).
  split; [repeat split; solve [reflexivity | apply H1 | apply H2 | apply H3]|].
  exact (proj1 (@list_subscript_set_get release_host
           (vm_of [ObjList [VAR_BOOL true; VAR_BOOL false]] []) 0%nat
           [VAR_BOOL true; VAR_BOOL false] 1 VAR_NULL eq_refl H1 H2) H3).
Defined.

(** [m[true] = 2] on a Map with one free slot, then [m[true]]. *)
Lemma map_subscript_set_witness :
  let free := {| key := VAR_UNDEF; value := VAR_BOOL false |} in
  let vm := vm_of [ObjMap {| entries := [free] |}] [] in
  let vm' := vm_of [ObjMap {| entries := [{| key := VAR_BOOL true;
                                             value := VAR_NULL |}] |}] [] in
  (heap vm !! 0%nat = Some (ObjMap {| entries := [free] |})
   /\ is_Some (fiber vm)
   /\ hashable_key (heap vm) (VAR_BOOL true) = true
   /\ VAR_NULL <> VAR_UNDEF) /\
  @varsetSubscript release_host (VAR_OBJ 0%nat) (VAR_BOOL true) VAR_NULL vm
    = Return tt vm'
  /\ @varGetSubscript release_host (VAR_OBJ 0%nat) (VAR_BOOL true) vm'
    = Return VAR_NULL vm'.
Proof.
  assert (H1 : is_Some (fiber (vm_of [ObjMap {| entries :=
             [{| key := VAR_UNDEF; value := VAR_BOOL false |}] |}] [])))
    by (eexists; reflexivity).
  assert (H2 : VAR_NULL <> VAR_UNDEF) by discriminate.
  split; [repeat split; solve [reflexivity | apply H1 | apply H2]|].
  exact (proj2 (@map_subscript_set release_host
           (vm_of [ObjMap {| entries :=
              [{| key := VAR_UNDEF; value := VAR_BOOL false |}] |}] [])
           0%nat _ (VAR_BOOL true) VAR_NULL eq_refl H1) eq_refl H2).
Defined.

Section Iteration.
Context {host : Host}.

Lemma int32_bound_53 (n : Z) :
  Double.INT32_MIN <= n <= Double.INT32_MAX + 1 -> Z.abs n < 2 ^ 53.
Proof. unfold Double.INT32_MIN, Double.INT32_MAX. lia. Qed.

Lemma resumes_at_range (s : Var) (n : Z) :
  resumes_at s n -> 0 <= n <= Double.INT32_MAX.
Proof.
  destruct 1; [|assumption]. unfold Double.INT32_MAX. lia.
Qed.

(** A state of the protocol passes the DEBUG assertions. *)
Lemma iterator_checks_ok (s : Var) (n : Z) (vm : PKVM) :
  resumes_at s n -> iterator_checks s vm = Return tt vm.
Proof.
  intros Hs. unfold iterator_checks. destruct DEBUG eqn:D; [|reflexivity].
  destruct Hs as [|n Hn].
  - unfold ASSERT. rewrite D. reflexivity.
  - unfold num, ASSERT. rewrite D. cbn [IS_NUM IS_NULL orb negb andb].
    unfold bind at 1. cbn [pure]. unfold bind.
    change (VAR_NUM (Double.of_Z n)) with (num n).
    rewrite validateIngeger_num
      by (unfold Double.INT32_MIN, Double.INT32_MAX in *; lia).
    reflexivity.
Qed.

(** A state of the protocol is decoded to the index it resumes at. *)
Lemma iterator_index_ok (s : Var) (n : Z) (vm : PKVM) :
  resumes_at s n -> iterator_index s vm = Return n vm.
Proof.
  destruct 1 as [|n Hn]; [reflexivity|].
  unfold num, iterator_index, _AS_INTEGER.
  assert (Hr : Double.INT32_MIN <= n <= Double.INT32_MAX)
    by (unfold Double.INT32_MIN, Double.INT32_MAX in *; lia).
  rewrite DoubleFacts.trunc_of_Z, DoubleFacts.to_int32_of_Z
    by (try apply int32_bound_53; lia).
  unfold Double.uint32_of_int32, Double.UINT32_MOD, pure.
  rewrite Z.mod_small; [reflexivity|].
  unfold Double.INT32_MAX in Hn. lia.
Qed.

(** The state written after slot [n] is the Number [n + 1]. *)
Lemma next_iterator_num (n : Z) :
  0 <= n <= Double.INT32_MAX -> next_iterator n = num (n + 1).
Proof.
  intros Hn. unfold next_iterator, num. f_equal.
  rewrite DoubleFacts.of_uint32_of_Z, DoubleFacts.one_of_Z by lia.
  apply DoubleFacts.of_Z_add; apply int32_bound_53;
    unfold Double.INT32_MIN, Double.INT32_MAX in *; lia.
Qed.

(** [varIterate] on an object, once the state is decoded. *)
Lemma varIterate_object (p : loc) (obj : Object) (s v : Var) (n : Z)
    (vm : PKVM) :
  heap vm !! p = Some obj ->
  resumes_at s n ->
  varIterate (VAR_OBJ p) s v vm =
    match obj with
    | ObjString data =>
        if Z.of_nat (String.length data) <=? n
        then Return (false, s, v) vm
        else Return (true, num (n + 1), VAR_OBJ (length (heap vm)))
               {| heap := heap vm ++ [ObjString (substring (Z.to_nat n) 1 data)];
                  fiber := fiber vm |}
    | ObjList elems =>
        if Z.of_nat (length elems) <=? n
        then Return (false, s, v) vm
        else match elems !! Z.to_nat n with
             | Some x => Return (true, num (n + 1), x) vm
             | None => Abort AbortUndefined
             end
    | ObjMap m =>
        let j := next_valid_key (drop (Z.to_nat n) (entries m)) n in
        if capacity m <=? j
        then Return (false, s, v) vm
        else match entries m !! Z.to_nat j with
             | Some e => Return (true, next_iterator j, key e) vm
             | None => Abort AbortUndefined
             end
    | ObjRange r =>
        if (from r =? to r)%float
        then Return (false, s, v) vm
        else
          let current :=
            if (from r <=? to r)%float
            then (from r + Double.of_Z n)%float
            else (from r - Double.of_Z n)%float in
          if (current =? to r)%float
          then Return (false, s, v) vm
          else Return (true, num (n + 1), VAR_NUM current) vm
    | ObjScript | ObjFunc | ObjFiber | ObjUser =>
        if TODO_aborts then Abort AbortTODO else Abort AbortUnreachable
    end.
Proof.
  intros Hp Hs. pose proof (resumes_at_range s n Hs) as Hn.
  unfold varIterate. unfold bind at 1.
  rewrite (iterator_checks_ok s n vm Hs).
  cbn [IS_OBJ negb]. unfold bind at 1 2. cbn [AS_OBJ pure].
  unfold load. rewrite Hp.
  unfold bind at 1. rewrite (iterator_index_ok s n vm Hs).
  rewrite <- (next_iterator_num n Hn).
  rewrite <- (DoubleFacts.of_uint32_of_Z n) by lia.
  destruct obj; try reflexivity.
  - destruct (Z.of_nat (String.length data) <=? n); reflexivity.
  - destruct (Z.of_nat (length elements) <=? n); [reflexivity|].
    destruct (elements !! Z.to_nat n); reflexivity.
  - cbv zeta.
    destruct (capacity m <=? next_valid_key (drop (Z.to_nat n) (entries m)) n);
      [reflexivity|].
    destruct (entries m !! _); reflexivity.
  - destruct (from r =? to r)%float; [reflexivity|].
    cbv zeta.
    destruct (_ =? to r)%float; reflexivity.
  - unfold TODO, bind, crash, pure. destruct TODO_aborts; reflexivity.
  - unfold TODO, bind, crash, pure. destruct TODO_aborts; reflexivity.
  - unfold TODO, bind, crash, pure. destruct TODO_aborts; reflexivity.
  - unfold TODO, bind, crash, pure. destruct TODO_aborts; reflexivity.
Qed.

(** *** Maps *)

Lemma occupied_slots_length (es : list MapEntry) (i : Z) :
  (length (occupied_slots es i) <= length es)%nat.
Proof.
  revert i. induction es as [|e es IH]; intros i; cbn [occupied_slots length].
  - lia.
  - specialize (IH (i + 1)). destruct (occupied e); cbn [length]; lia.
Qed.

(** The loop of the Map case stops at the first occupied slot, or at the
    end of the table when there is none. *)
Lemma next_valid_key_spec (es : list MapEntry) (i : Z) :
  match occupied_slots es i with
  | [] => next_valid_key es i = i + Z.of_nat (length es)
  | (j, k) :: rest =>
      next_valid_key es i = j
      /\ i <= j < i + Z.of_nat (length es)
      /\ (exists e, es !! Z.to_nat (j - i) = Some e
                    /\ key e = k /\ occupied e = true)
      /\ (forall t e, (t < Z.to_nat (j - i))%nat -> es !! t = Some e ->
                      occupied e = false)
      /\ rest = occupied_slots (drop (S (Z.to_nat (j - i))) es) (j + 1)
  end.
Proof.
  revert i. induction es as [|e es IH]; intros i;
    cbn [occupied_slots next_valid_key length].
  - lia.
  - fold (occupied e). destruct (occupied e) eqn:E.
    + replace (i - i) with 0 by lia. cbn [Z.to_nat drop].
      repeat split; try lia.
      exists e. repeat split. exact E.
    + specialize (IH (i + 1)).
      destruct (occupied_slots es (i + 1)) as [|[j k] rest].
      * rewrite IH. lia.
      * destruct IH as (Hj & Hr & (e' & He' & Hk & Ho) & Hbefore & Hrest).
        assert (Hidx : Z.to_nat (j - i) = S (Z.to_nat (j - (i + 1)))) by lia.
        rewrite Hidx. cbn [drop]. repeat split; try lia; try assumption.
        -- exists e'. repeat split; assumption.
        -- intros [|t] x Ht Hx; cbn in Hx.
           ++ congruence.
           ++ apply (Hbefore t x); [lia | exact Hx].
Qed.

(** [varIterate] on a Map, in terms of the occupied slots from the resume
    index on. *)
Lemma varIterate_map (p : loc) (m : Map) (s v : Var) (n : Z) (vm : PKVM) :
  heap vm !! p = Some (ObjMap m) ->
  capacity m <= Double.INT32_MAX ->
  resumes_at s n ->
  varIterate (VAR_OBJ p) s v vm =
    match occupied_slots (drop (Z.to_nat n) (entries m)) n with
    | [] => Return (false, s, v) vm
    | (j, k) :: _ => Return (true, num (j + 1), k) vm
    end.
Proof.
  intros Hp Hcap Hs. pose proof (resumes_at_range s n Hs) as Hn.
  rewrite (varIterate_object p _ s v n vm Hp Hs). cbv zeta.
  pose proof (next_valid_key_spec (drop (Z.to_nat n) (entries m)) n) as H.
  pose proof (length_drop (entries m) (Z.to_nat n)) as Hlen.
  unfold capacity in *.
  destruct (occupied_slots (drop (Z.to_nat n) (entries m)) n) as [|[j k] rest].
  - rewrite H.
    destruct (Z.leb_spec (Z.of_nat (length (entries m)))
                (n + Z.of_nat (length (drop (Z.to_nat n) (entries m)))));
      [reflexivity | lia].
  - destruct H as (-> & Hr & (e & He & Hk & Ho) & _ & _).
    destruct (Z.leb_spec (Z.of_nat (length (entries m))) j); [lia|].
    rewrite lookup_drop in He.
    replace (Z.to_nat n + Z.to_nat (j - n))%nat with (Z.to_nat j) in He by lia.
    rewrite He, Hk, next_iterator_num by lia. reflexivity.
Qed.

(** A whole iteration over a Map, from any state of the protocol: the keys
    of the occupied slots from the resume index on, and after each of them
    the state "index of its slot, plus one". *)
Lemma map_iteration_from (p : loc) (m : Map) (vm : PKVM) :
  heap vm !! p = Some (ObjMap m) ->
  capacity m <= Double.INT32_MAX ->
  forall (calls : nat) (s : Var) (n : Z),
    resumes_at s n ->
    let slots := occupied_slots (drop (Z.to_nat n) (entries m)) n in
    (length slots < calls)%nat ->
    iterate_from calls (VAR_OBJ p) s vm = Return (Some (snd <$> slots)) vm
    /\ states_from calls (VAR_OBJ p) s vm
       = Return ((fun x => num (fst x + 1)) <$> slots) vm.
Proof.
  intros Hp Hcap. induction calls as [|calls IH]; intros s n Hs slots Hlen.
  - lia.
  - pose proof (resumes_at_range s n Hs) as Hn.
    cbn [iterate_from states_from]. unfold bind at 1 3.
    rewrite !(varIterate_map p m s VAR_NULL n vm Hp Hcap Hs).
    pose proof (next_valid_key_spec (drop (Z.to_nat n) (entries m)) n) as H.
    pose proof (length_drop (entries m) (Z.to_nat n)) as Hd.
    fold slots in H |- *.
    destruct slots as [|[j k] rest]; [split; reflexivity|].
    destruct H as (_ & Hr & _ & _ & Hrest).
    rewrite drop_drop in Hrest.
    replace (Z.to_nat n + S (Z.to_nat (j - n)))%nat with (Z.to_nat (j + 1))
      in Hrest by lia.
    unfold capacity in Hcap.
    assert (Hs' : resumes_at (num (j + 1)) (j + 1))
      by (constructor; lia).
    cbn [length] in Hlen.
    destruct (IH (num (j + 1)) (j + 1) Hs') as [Hit Hst].
    { cbv zeta. rewrite <- Hrest. lia. }
    cbv zeta in Hit, Hst. rewrite <- Hrest in Hit, Hst.
    unfold bind. rewrite Hit, Hst. split; reflexivity.
Qed.

Lemma occupied_slots_nil (es : list MapEntry) (i : Z) :
  occupied_slots es i = [] ->
  forall t e, es !! t = Some e -> occupied e = false.
Proof.
  revert i. induction es as [|x es IH]; intros i H t e Ht.
  - rewrite lookup_nil in Ht. discriminate.
  - cbn [occupied_slots] in H. destruct (occupied x) eqn:E; [discriminate|].
    destruct t as [|t]; cbn in Ht.
    + congruence.
    + exact (IH _ H t e Ht).
Qed.

(** C9.  On a Map (whose capacity the [int32_t] of the state can hold),
    from any state of the protocol resuming at [n]: either some slot at or
    after [n] is occupied, and the call succeeds with the key of the first
    such slot [j] and the new state [j + 1], above [n] and at most the
    capacity; or none is, and the call returns false.  Hence the iteration
    started at Null is over within capacity + 1 calls. *)
Theorem map_iteration_terminates (p : loc) (m : Map) (vm : PKVM) :
  heap vm !! p = Some (ObjMap m) ->
  capacity m <= Double.INT32_MAX ->
  (forall s n v, resumes_at s n ->
     (exists j e,
         n <= j < capacity m
         /\ entries m !! Z.to_nat j = Some e /\ occupied e = true
         /\ varIterate (VAR_OBJ p) s v vm
            = Return (true, num (j + 1), key e) vm)
     \/ ((forall i e, n <= i -> entries m !! Z.to_nat i = Some e ->
                      occupied e = false)
         /\ varIterate (VAR_OBJ p) s v vm = Return (false, s, v) vm))
  /\ exists keys,
      iterate_from (S (Z.to_nat (capacity m))) (VAR_OBJ p) VAR_NULL vm
        = Return (Some keys) vm.
Proof.
  intros Hp Hcap. split.
  - intros s n v Hs. pose proof (resumes_at_range s n Hs) as Hn.
    rewrite (varIterate_map p m s v n vm Hp Hcap Hs).
    pose proof (next_valid_key_spec (drop (Z.to_nat n) (entries m)) n) as H.
    pose proof (length_drop (entries m) (Z.to_nat n)) as Hd.
    destruct (occupied_slots (drop (Z.to_nat n) (entries m)) n)
      as [|[j k] rest] eqn:E.
    + right. split; [|reflexivity].
      intros i e Hi He.
      apply (occupied_slots_nil _ _ E (Z.to_nat i - Z.to_nat n)%nat e).
      rewrite lookup_drop.
      replace (Z.to_nat n + (Z.to_nat i - Z.to_nat n))%nat with (Z.to_nat i)
        by lia.
      exact He.
    + left. destruct H as (_ & Hr & (e & He & Hk & Ho) & _ & _).
      rewrite lookup_drop in He.
      replace (Z.to_nat n + Z.to_nat (j - n))%nat with (Z.to_nat j) in He
        by lia.
      exists j, e. unfold capacity. rewrite Hk.
      repeat split; try assumption; lia.
  - eexists.
    apply (map_iteration_from p m vm Hp Hcap _ VAR_NULL 0 resumes_at_null).
    pose proof (occupied_slots_length (drop (Z.to_nat 0) (entries m)) 0).
    pose proof (length_drop (entries m) (Z.to_nat 0)).
    unfold capacity. lia.
Qed.

End Iteration.

Lemma map_iteration_terminates_witness :
  let vm := vm_of [ObjMap sparse_map] [] in
  (heap vm !! 0%nat = Some (ObjMap sparse_map)
   /\ capacity sparse_map <= Double.INT32_MAX) /\
  (forall s n v, resumes_at s n ->
     (exists j e,
         n <= j < capacity sparse_map
         /\ entries sparse_map !! Z.to_nat j = Some e /\ occupied e = true
         /\ @varIterate release_host (VAR_OBJ 0%nat) s v vm
            = Return (true, num (j + 1), key e) vm)
     \/ ((forall i e, n <= i -> entries sparse_map !! Z.to_nat i = Some e ->
                      occupied e = false)
         /\ @varIterate release_host (VAR_OBJ 0%nat) s v vm
            = Return (false, s, v) vm))
  /\ exists keys,
      @iterate_from release_host (S (Z.to_nat (capacity sparse_map)))
        (VAR_OBJ 0%nat) VAR_NULL vm = Return (Some keys) vm.
Proof.
  assert (H : capacity sparse_map <= Double.INT32_MAX)
    by (vm_compute; discriminate).
  split; [split; [reflexivity | exact H]|].
  exact (@map_iteration_terminates release_host 0%nat sparse_map
           (vm_of [ObjMap sparse_map] []) eq_refl H).
Defined.

Section IterationStates.
Context {host : Host}.

(** On a String, a List or a Range, the states after the successful calls
    that follow a state resuming at [n] are [n + 1], [n + 2], ... *)
Lemma counting_states (p : loc) (obj : Object) :
  counts_steps obj = true ->
  forall (calls : nat) (s : Var) (n : Z) (vm : PKVM),
    heap vm !! p = Some obj ->
    resumes_at s n ->
    n + Z.of_nat calls <= Double.INT32_MAX ->
    exists (r : nat) (vm' : PKVM),
      (r <= calls)%nat
      /\ states_from calls (VAR_OBJ p) s vm
         = Return (num <$> seqZ (n + 1) (Z.of_nat r)) vm'.
Proof.
  intros Hobj. induction calls as [|calls IH]; intros s n vm Hp Hs Hn.
  - exists 0%nat, vm. split; [lia | reflexivity].
  - pose proof (resumes_at_range s n Hs) as Hr.
    assert (Hs' : resumes_at (num (n + 1)) (n + 1)) by (constructor; lia).
    assert (Stop : exists (r : nat) (vm' : PKVM),
               (r <= S calls)%nat
               /\ Return (A := list Var) [] vm
                  = Return (num <$> seqZ (n + 1) (Z.of_nat r)) vm').
    { exists 0%nat, vm. split; [lia | reflexivity]. }
    assert (Go : forall vm1,
               heap vm1 !! p = Some obj ->
               exists (r : nat) (vm' : PKVM),
                 (r <= S calls)%nat
                 /\ bind (states_from calls (VAR_OBJ p) (num (n + 1)))
                         (fun rest => pure (num (n + 1) :: rest)) vm1
                    = Return (num <$> seqZ (n + 1) (Z.of_nat r)) vm').
    { intros vm1 Hp1.
      assert (Hn' : n + 1 + Z.of_nat calls <= Double.INT32_MAX) by lia.
      destruct (IH (num (n + 1)) (n + 1) vm1 Hp1 Hs' Hn')
        as (r & vm' & Hle & Hrun).
      exists (S r), vm'. split; [lia|].
      unfold bind. rewrite Hrun. unfold pure.
      rewrite Nat2Z.inj_succ.
      rewrite (seqZ_cons (n + 1) (Z.succ (Z.of_nat r))) by lia.
      rewrite fmap_cons. do 3 f_equal. f_equal; lia. }
    cbn [states_from]. unfold bind at 1.
    rewrite (varIterate_object p obj s VAR_NULL n vm Hp Hs).
    destruct obj; try discriminate.
    + destruct (Z.of_nat (String.length data) <=? n); [exact Stop|].
      apply Go. cbn [heap].
      rewrite lookup_app_l by (eapply lookup_lt_Some; eauto).
      exact Hp.
    + destruct (Z.leb_spec (Z.of_nat (length elements)) n); [exact Stop|].
      destruct (lookup_lt_is_Some_2 elements (Z.to_nat n) ltac:(lia)) as [x Hx].
      rewrite Hx. apply Go. exact Hp.
    + destruct (from r =? to r)%float; [exact Stop|]. cbv zeta.
      destruct (_ =? to r)%float; [exact Stop|].
      apply Go. exact Hp.
Qed.

(** C5, as the code has it.  The iterator starts at Null.  On a String, a
    List or a Range the state after the k-th successful call is the Number
    k, the count of completed steps.  On a Map the state after a key is
    yielded is the Number "index of its slot, plus one", which exceeds the
    count of completed steps as soon as a free slot was skipped; the keys
    yielded are those of the occupied slots, in slot order, and the
    iteration stops when no occupied slot is left.  Scripts, functions,
    fibers and user objects are not iterated: the call does not return. *)
Theorem iterator_states (p : loc) (obj : Object) (vm : PKVM) :
  heap vm !! p = Some obj ->
  match obj with
  | ObjMap m =>
      capacity m <= Double.INT32_MAX ->
      let slots := occupied_slots (entries m) 0 in
      let calls := S (Z.to_nat (capacity m)) in
      iterate_from calls (VAR_OBJ p) VAR_NULL vm
        = Return (Some (snd <$> slots)) vm
      /\ states_from calls (VAR_OBJ p) VAR_NULL vm
         = Return ((fun x => num (fst x + 1)) <$> slots) vm
  | ObjString _ | ObjList _ | ObjRange _ =>
      forall calls : nat,
        Z.of_nat calls <= Double.INT32_MAX ->
        exists (r : nat) (vm' : PKVM),
          (r <= calls)%nat
          /\ states_from calls (VAR_OBJ p) VAR_NULL vm
             = Return (num <$> seqZ 1 (Z.of_nat r)) vm'
  | ObjScript | ObjFunc | ObjFiber | ObjUser =>
      forall v, exists why,
        varIterate (VAR_OBJ p) VAR_NULL v vm = Abort why
  end.
Proof.
  intros Hp.
  assert (Count : counts_steps obj = true ->
            forall calls : nat,
              Z.of_nat calls <= Double.INT32_MAX ->
              exists (r : nat) (vm' : PKVM),
                (r <= calls)%nat
                /\ states_from calls (VAR_OBJ p) VAR_NULL vm
                   = Return (num <$> seqZ 1 (Z.of_nat r)) vm').
  { intros Hobj calls Hc.
    exact (counting_states p obj Hobj calls VAR_NULL 0 vm Hp
             resumes_at_null ltac:(lia)). }
  assert (Stuck : forall v,
            counts_steps obj = false ->
            (forall m, obj <> ObjMap m) ->
            exists why, varIterate (VAR_OBJ p) VAR_NULL v vm = Abort why).
  { intros v Hobj Hm.
    rewrite (varIterate_object p obj VAR_NULL v 0 vm Hp resumes_at_null).
    destruct obj; try discriminate;
      try (destruct TODO_aborts; eexists; reflexivity).
    exfalso. exact (Hm _ eq_refl). }
  destruct obj; try (apply Count; reflexivity);
    try (intros v; apply Stuck; [reflexivity | discriminate]).
  intros Hcap slots calls.
  apply (map_iteration_from p m vm Hp Hcap calls VAR_NULL 0 resumes_at_null).
  pose proof (occupied_slots_length (drop (Z.to_nat 0) (entries m)) 0).
  pose proof (length_drop (entries m) (Z.to_nat 0)).
  subst calls. unfold capacity. lia.
Qed.

End IterationStates.

(** The iteration of [sparse_map]: one key, and the state 3 after it. *)
Lemma iterator_states_witness :
  let vm := vm_of [ObjMap sparse_map] [] in
  (heap vm !! 0%nat = Some (ObjMap sparse_map)
   /\ capacity sparse_map <= Double.INT32_MAX) /\
  @iterate_from release_host 5 (VAR_OBJ 0%nat) VAR_NULL vm
    = Return (Some [VAR_BOOL true]) vm
  /\ @states_from release_host 5 (VAR_OBJ 0%nat) VAR_NULL vm
     = Return [num 3] vm.
Proof.
  assert (H : capacity sparse_map <= Double.INT32_MAX)
    by (vm_compute; discriminate).
  split; [split; [reflexivity | exact H]|].
  exact (@iterator_states release_host 0%nat (ObjMap sparse_map)
           (vm_of [ObjMap sparse_map] []) eq_refl H).
Defined.

(** C5, refuted.  On [sparse_map] the first successful call skips two free
    slots: one step is completed and the state is the Number 3, not 1. *)
Lemma map_state_is_not_step_count :
  let vm := vm_of [ObjMap sparse_map] [] in
  @varIterate release_host (VAR_OBJ 0%nat) VAR_NULL VAR_NULL vm
    = Return (true, num 3, VAR_BOOL true) vm
  /\ num 3 <> num 1.
Proof.
  split; [reflexivity|].
  intros H.
  pose (is_one := fun v => match v with
                           | VAR_NUM d => (d =? 1)%float
                           | _ => false
                           end).
  assert (E : is_one (num 3) = is_one (num 1)) by (rewrite H; reflexivity).
  vm_compute in E. discriminate.
Qed.

Section Ranges.
Context {host : Host}.

(** The [current] of the Range case, between integers. *)
Lemma range_current (a b k : Z) :
  Z.abs a < 2 ^ 53 -> Z.abs b < 2 ^ 53 ->
  Z.abs (b - a) <= Double.INT32_MAX -> 0 <= k <= Z.abs (b - a) ->
  (if (Double.of_Z a <=? Double.of_Z b)%float
   then (Double.of_Z a + Double.of_Z k)%float
   else (Double.of_Z a - Double.of_Z k)%float)
  = Double.of_Z (range_step a b k)
  /\ Z.abs (range_step a b k) < 2 ^ 53.
Proof.
  intros Ba Bb Hlen Hk. unfold range_step.
  unfold Double.INT32_MAX in Hlen.
  rewrite DoubleFacts.of_Z_leb by assumption.
  destruct (Z.leb_spec a b).
  - split; [apply DoubleFacts.of_Z_add|]; lia.
  - split; [apply DoubleFacts.of_Z_sub|]; lia.
Qed.

Lemma iterate_from_step (calls : nat) (seq s : Var) :
  iterate_from (S calls) seq s
  = bind (varIterate seq s VAR_NULL)
      (fun r => match r with
                | (true, s', v) =>
                    bind (iterate_from calls seq s')
                      (fun rest => pure (option_map (cons v) rest))
                | (false, _, _) => pure (Some [])
                end).
Proof. reflexivity. Qed.

(** A whole iteration over a Range between integers, from step [k] on. *)
Lemma range_iteration_from (p : loc) (a b : Z) (vm : PKVM) :
  heap vm !! p
    = Some (ObjRange {| from := Double.of_Z a; to := Double.of_Z b |}) ->
  Z.abs a < 2 ^ 53 -> Z.abs b < 2 ^ 53 ->
  Z.abs (b - a) <= Double.INT32_MAX ->
  forall (rest : nat) (s : Var) (k : Z),
    resumes_at s k ->
    k + Z.of_nat rest = Z.abs (b - a) ->
    iterate_from (S rest) (VAR_OBJ p) s vm
      = Return (Some (num <$> (range_step a b <$> seqZ k (Z.of_nat rest)))) vm.
Proof.
  intros Hp Ba Bb Hlen.
  induction rest as [|rest IH]; intros s k Hs Hk;
    pose proof (resumes_at_range s k Hs) as Hr;
    destruct (range_current a b k Ba Bb Hlen ltac:(lia)) as [Hcur Bcur];
    rewrite iterate_from_step; unfold bind at 1;
    rewrite (varIterate_object p _ s VAR_NULL k vm Hp Hs);
    cbn [from to]; cbv zeta; rewrite Hcur;
    rewrite !DoubleFacts.of_Z_eqb by assumption.
  - (* the last call: step |b - a| is [b] *)
    assert (Hend : (a =? b) = true \/ (range_step a b k =? b) = true).
    { unfold range_step. destruct (Z.leb_spec a b); lia. }
    destruct (a =? b); [reflexivity|].
    destruct Hend as [H | ->]; [discriminate | reflexivity].
  - replace (a =? b) with false by lia.
    replace (range_step a b k =? b) with false
      by (unfold range_step; destruct (Z.leb_spec a b); lia).
    assert (Hs' : resumes_at (num (k + 1)) (k + 1)) by (constructor; lia).
    unfold bind, pure.
    rewrite (IH (num (k + 1)) (k + 1) Hs') by lia.
    rewrite Nat2Z.inj_succ.
    rewrite (seqZ_cons k (Z.succ (Z.of_nat rest))) by lia.
    rewrite !fmap_cons. cbn [option_map].
    do 5 f_equal. f_equal; lia.
Qed.

(** Ranges, where the stop test works.  On every Range: nothing is yielded
    when [from == to], and no call ever yields a value equal to [to].  On a
    Range between integers [a] and [b] (below 2^53 in magnitude, at most
    INT32_MAX apart) the iteration started at Null yields [a] and then one
    step at a time toward [b], +1 when [a <= b] and -1 otherwise, and stops
    before [b]. *)
Theorem range_iteration (p : loc) (r : Range) (vm : PKVM) :
  heap vm !! p = Some (ObjRange r) ->
  ((from r =? to r)%float = true ->
   forall v, varIterate (VAR_OBJ p) VAR_NULL v vm = Return (false, VAR_NULL, v) vm)
  /\ (forall s n v s' c vm',
        resumes_at s n ->
        varIterate (VAR_OBJ p) s v vm = Return (true, s', VAR_NUM c) vm' ->
        (c =? to r)%float = false)
  /\ (forall a b,
        r = {| from := Double.of_Z a; to := Double.of_Z b |} ->
        Z.abs a < 2 ^ 53 -> Z.abs b < 2 ^ 53 ->
        Z.abs (b - a) <= Double.INT32_MAX ->
        iterate_from (S (Z.to_nat (Z.abs (b - a)))) (VAR_OBJ p) VAR_NULL vm
          = Return (Some (num <$> range_values a b)) vm).
Proof.
  intros Hp. repeat split.
  - intros Heq v.
    rewrite (varIterate_object p _ VAR_NULL v 0 vm Hp resumes_at_null).
    rewrite Heq. reflexivity.
  - intros s n v s' c vm' Hs.
    rewrite (varIterate_object p _ s v n vm Hp Hs).
    destruct (from r =? to r)%float; [discriminate|]. cbv zeta.
    destruct (_ =? to r)%float eqn:E; [discriminate|].
    intros H. inversion H; subst. exact E.
  - intros a b -> Ba Bb Hlen.
    pose proof (range_iteration_from p a b vm Hp Ba Bb Hlen
                  (Z.to_nat (Z.abs (b - a))) VAR_NULL 0 resumes_at_null) as H.
    rewrite Z2Nat.id in H by lia. apply H. lia.
Qed.

End Ranges.

(** Range(5,1) yields 5, 4, 3, 2. *)
Lemma range_iteration_witness :
  let r := {| from := 5; to := 1 |} in
  let vm := vm_of [ObjRange r] [] in
  (heap vm !! 0%nat = Some (ObjRange r)
   /\ Z.abs 5 < 2 ^ 53 /\ Z.abs 1 < 2 ^ 53
   /\ Z.abs (1 - 5) <= Double.INT32_MAX) /\
  @iterate_from release_host 5 (VAR_OBJ 0%nat) VAR_NULL vm
    = Return (Some [num 5; num 4; num 3; num 2]) vm.
Proof.
  assert (H5 : Z.abs 5 < 2 ^ 53) by reflexivity.
  assert (H1 : Z.abs 1 < 2 ^ 53) by reflexivity.
  assert (Hd : Z.abs (1 - 5) <= Double.INT32_MAX) by (vm_compute; discriminate).
  split; [repeat split; solve [reflexivity | exact Hd]|].
  exact (proj2 (proj2 (@range_iteration release_host 0%nat
                         {| from := 5; to := 1 |}
                         (vm_of [ObjRange {| from := 5; to := 1 |}] [])
                         eq_refl))
           5 1 eq_refl H5 H1 Hd).
Defined.

(** Range(5,5) yields nothing. *)
Lemma range_5_5_empty :
  let vm := vm_of [ObjRange {| from := 5; to := 5 |}] [] in
  @iterate_from release_host 1 (VAR_OBJ 0%nat) VAR_NULL vm
    = Return (Some []) vm.
Proof. reflexivity. Qed.

(** C1.  The Range case stops on the equality [current == to] only, where
    the String, List and Map cases stop on an ordered test.  On Range(0,
    0.5) the equality is never met: the first call yields 0, the second
    yields 1, which is past [to]; the iteration has not stopped before
    reaching [to], and is still going on after ten calls. *)
Lemma range_fractional_overshoots :
  let vm := vm_of [ObjRange {| from := 0; to := 0.5 |}] [] in
  @varIterate release_host (VAR_OBJ 0%nat) VAR_NULL VAR_NULL vm
    = Return (true, num 1, VAR_NUM 0) vm
  /\ @varIterate release_host (VAR_OBJ 0%nat) (num 1) VAR_NULL vm
     = Return (true, num 2, VAR_NUM 1) vm
  /\ (0.5 <? 1)%float = true
  /\ @iterate_from release_host 10 (VAR_OBJ 0%nat) VAR_NULL vm
     = Return None vm.
Proof. repeat split. Qed.

(** ** Further properties of the code *)

Section NativeArguments.

(** X1.  [pkGetArgNumber] at a valid argument position: a Number is handed
    over as it is, a Bool as 1 or 0, both with the answer true and the VM
    untouched; for any other value the answer is false, the cell keeps its
    content, and the error is "Expected a number at argument <position>.". *)
Theorem pkGetArgNumber_cases (vm : PKVM) (f : Fiber) (arg : Z) (v : Var)
    (value : float) :
  fiber vm = Some f ->
  1 <= arg <= ARGC_of f ->
  ret f !! Z.to_nat arg = Some v ->
  pkGetArgNumber arg value vm =
    match v with
    | VAR_NUM d => Return (true, d) vm
    | VAR_BOOL b => Return (true, if b then PrimFloat.one else PrimFloat.zero) vm
    | _ => Return (false, value)
             (with_error vm ("Expected a number at argument " ++ pretty arg
                             ++ "."))
    end.
Proof.
  intros Hf [Hlo Hhi] Hv. unfold pkGetArgNumber, ERR_INVALID_ARG_TYPE.
  assert (E1 : (0 <? arg) = true) by lia.
  assert (E2 : (arg <? 0) = false) by lia.
  unfold with_error, sprintf_d. vm_run. rewrite E1, E2. vm_run.
  destruct v; vm_run; reflexivity.
Qed.

(** X2.  A native function's return writes slot 0 and nothing else: the
    heap and the error channel are as before, every argument still reads
    the same, the argument count is the same, and a second return replaces
    the first. *)
Theorem pkReturnValue_slot (vm : PKVM) (f : Fiber) (r0 v w : Var)
    (args : list Var) :
  fiber vm = Some f ->
  ret f = r0 :: args ->
  pkReturnValue v vm = Return tt (with_result vm v)
  /\ heap (with_result vm v) = heap vm
  /\ error_message (with_result vm v) = error_message vm
  /\ ARGC (with_result vm v) = Return (ARGC_of f) (with_result vm v)
  /\ (forall n a, 1 <= n -> ARG n vm = Return a vm ->
        ARG n (with_result vm v) = Return a (with_result vm v))
  /\ (run pkReturnValue v; pkReturnValue w) vm = pkReturnValue w vm.
Proof.
  intros Hf Hr.
  assert (Hret : pkReturnValue v vm = Return tt (with_result vm v)).
  { unfold pkReturnValue, with_result. vm_run. reflexivity. }
  repeat split.
  - exact Hret.
  - unfold error_message, with_result. rewrite Hf. reflexivity.
  - unfold with_result, ARGC, ARGC_of. vm_run. reflexivity.
  - intros n a Hn. unfold with_result, ARG. vm_run.
    destruct (n <? 0); [discriminate|].
    destruct (Z.to_nat n) as [|k] eqn:E; [lia|]. cbn.
    destruct (args !! k); [|discriminate].
    intros H. inversion H. reflexivity.
  - unfold bind. rewrite Hret. unfold pkReturnValue, with_result.
    vm_run. reflexivity.
Qed.

End NativeArguments.

Lemma pkGetArgNumber_cases_witness :
  let vm := vm_of [] [VAR_NULL; VAR_BOOL true; VAR_NULL] in
  let f := {| ret := [VAR_NULL; VAR_BOOL true; VAR_NULL]; error := None |} in
  (fiber vm = Some f /\ 1 <= 2 <= ARGC_of f
   /\ ret f !! Z.to_nat 2 = Some VAR_NULL) /\
  pkGetArgNumber 2 0 vm
    = Return (false, 0%float)
        (with_error vm "Expected a number at argument 2.").
Proof.
  assert (H : 1 <= 2 <= ARGC_of {| ret := [VAR_NULL; VAR_BOOL true; VAR_NULL];
                                   error := None |})
    by (vm_compute; split; discriminate).
  split; [repeat split; solve [reflexivity | apply H]|].
  exact (pkGetArgNumber_cases
           (vm_of [] [VAR_NULL; VAR_BOOL true; VAR_NULL]) _ 2 VAR_NULL 0
           eq_refl H eq_refl).
Defined.

Lemma pkReturnValue_slot_witness :
  let vm := vm_of [] [VAR_NULL; VAR_BOOL true] in
  let f := {| ret := [VAR_NULL; VAR_BOOL true]; error := None |} in
  (fiber vm = Some f /\ ret f = [VAR_NULL; VAR_BOOL true]) /\
  pkReturnValue (VAR_BOOL false) vm
    = Return tt (vm_of [] [VAR_BOOL false; VAR_BOOL true]).
Proof.
  split; [split; reflexivity|].
  exact (proj1 (pkReturnValue_slot
                  (vm_of [] [VAR_NULL; VAR_BOOL true]) _ VAR_NULL
                  (VAR_BOOL false) VAR_NULL [VAR_BOOL true] eq_refl eq_refl)).
Defined.

Section TypePredicates.

Lemma FN_IS_PRIMITE_TYPE_run (check : Var -> bool) (vm : PKVM) (f : Fiber)
    (r0 v : Var) (rest : list Var) :
  fiber vm = Some f -> ret f = r0 :: v :: rest ->
  FN_IS_PRIMITE_TYPE check vm = Return tt (with_result vm (VAR_BOOL (check v))).
Proof.
  intros Hf Hr. unfold FN_IS_PRIMITE_TYPE, with_result. vm_run. reflexivity.
Qed.

Lemma FN_IS_OBJ_TYPE_run (t : ObjectType) (vm : PKVM) (f : Fiber)
    (r0 v : Var) (rest : list Var) :
  fiber vm = Some f -> ret f = r0 :: v :: rest -> on_heap (heap vm) v ->
  FN_IS_OBJ_TYPE t vm
    = Return tt (with_result vm (VAR_BOOL (has_type (heap vm) v t))).
Proof.
  intros Hf Hr Hv. unfold FN_IS_OBJ_TYPE, with_result, VAR_TRUE, VAR_FALSE.
  destruct v as [| | b | d | p]; vm_run; try reflexivity.
  destruct Hv as [o Ho]. cbn in Ho. rewrite Ho.
  destruct (bool_decide (obj_type o = t)); vm_run; reflexivity.
Qed.

(** X3.  The ten [is_*] builtins on an argument: each writes its Bool to
    the return slot and changes nothing else; each answers true exactly on
    its own kind, so at most one of them does, and exactly one unless the
    argument is a Fiber, for which the table has no predicate. *)
Theorem type_tests_exclusive (vm : PKVM) (f : Fiber) (r0 v : Var)
    (rest : list Var) :
  fiber vm = Some f ->
  ret f = r0 :: v :: rest ->
  on_heap (heap vm) v ->
  v <> VAR_UNDEF ->
  (forall i test answer,
      type_tests !! i = Some test ->
      type_answers (heap vm) v !! i = Some answer ->
      test vm = Return tt (with_result vm (VAR_BOOL answer)))
  /\ answers_true (type_answers (heap vm) v)
     = (if has_type (heap vm) v OBJ_FIBER then 0 else 1)%nat.
Proof.
  intros Hf Hr Hv Hu. split.
  - intros i test answer Ht Ha.
    pose proof (fun c => FN_IS_PRIMITE_TYPE_run c vm f r0 v rest Hf Hr) as HP.
    pose proof (fun t => FN_IS_OBJ_TYPE_run t vm f r0 v rest Hf Hr Hv) as HO.
    do 10 (destruct i as [|i];
           [cbn in Ht, Ha; inversion Ht; inversion Ha; subst;
            first [apply HP | apply HO] |]).
    cbn in Ht. discriminate.
  - destruct v as [| | b | d | p]; try reflexivity; [contradiction|].
    destruct Hv as [o Ho]. unfold type_answers, has_type. cbn in Ho.
    rewrite Ho. destruct o; reflexivity.
Qed.

End TypePredicates.

(** [is_*] on a List. *)
Lemma type_tests_exclusive_witness :
  let vm := vm_of [ObjList []] [VAR_NULL; VAR_OBJ 0%nat] in
  let f := {| ret := [VAR_NULL; VAR_OBJ 0%nat]; error := None |} in
  (fiber vm = Some f /\ ret f = [VAR_NULL; VAR_OBJ 0%nat]
   /\ on_heap (heap vm) (VAR_OBJ 0%nat) /\ VAR_OBJ 0%nat <> VAR_UNDEF) /\
  coreIsList vm = Return tt (with_result vm (VAR_BOOL true))
  /\ answers_true (type_answers (heap vm) (VAR_OBJ 0%nat)) = 1%nat.
Proof.
  assert (H1 : on_heap [ObjList []] (VAR_OBJ 0%nat))
    by (exists (ObjList []); reflexivity).
  assert (H2 : VAR_OBJ 0%nat <> VAR_UNDEF) by discriminate.
  split; [repeat split; solve [reflexivity | apply H1 | apply H2]|].
  pose proof (type_tests_exclusive
                (vm_of [ObjList []] [VAR_NULL; VAR_OBJ 0%nat]) _ VAR_NULL
                (VAR_OBJ 0%nat) [] eq_refl eq_refl H1 H2) as [Htests Hone].
  split; [|exact Hone].
  exact (Htests 4%nat coreIsList true eq_refl eq_refl).
Defined.

Section StringBuiltins.
Context {host : Host}.
Local Open Scope list_scope.

Lemma substring_whole (s : string) : substring 0 (String.length s) s = s.
Proof. induction s as [|c s IH]; cbn; [reflexivity | rewrite IH; reflexivity]. Qed.

Lemma tolower_facts (c : ascii) :
  tolower (tolower c) = tolower c
  /\ Ascii.eqb (tolower c) NUL = Ascii.eqb c NUL
  /\ isupper (tolower c) = false.
Proof. destruct c as [[] [] [] [] [] [] [] []]; repeat split. Qed.

Lemma toupper_facts (c : ascii) :
  toupper (toupper c) = toupper c
  /\ Ascii.eqb (toupper c) NUL = Ascii.eqb c NUL
  /\ islower (toupper c) = false.
Proof. destruct c as [[] [] [] [] [] [] [] []]; repeat split. Qed.

Lemma map_cstring_length (f : ascii -> ascii) (s : string) :
  String.length (map_cstring f s) = String.length s.
Proof.
  induction s as [|c s IH]; cbn; [reflexivity|].
  destruct (Ascii.eqb c NUL); cbn; [reflexivity | rewrite IH; reflexivity].
Qed.

Lemma map_cstring_idempotent (f : ascii -> ascii) (s : string) :
  (forall c, f (f c) = f c) ->
  (forall c, Ascii.eqb (f c) NUL = Ascii.eqb c NUL) ->
  map_cstring f (map_cstring f s) = map_cstring f s.
Proof.
  intros Hidem Hnul. induction s as [|c s IH]; cbn; [reflexivity|].
  destruct (Ascii.eqb c NUL) eqn:E; cbn.
  - rewrite E. reflexivity.
  - rewrite Hnul, E, Hidem, IH. reflexivity.
Qed.

Lemma map_cstring_NUL_free (f : ascii -> ascii) (s : string) :
  NUL_free s ->
  list_ascii_of_string (map_cstring f s) = f <$> list_ascii_of_string s.
Proof.
  unfold NUL_free. induction s as [|c s IH]; cbn; [reflexivity|].
  intros H. inversion H as [|? ? Hc Hs]; subst.
  destruct (Ascii.eqb_spec c NUL); [contradiction|].
  cbn. rewrite IH by assumption. reflexivity.
Qed.

(** The validator on a String argument: true, the argument, no effect. *)
Lemma validateArgString_string (vm : PKVM) (q : loc) (data : string) (i : Z) :
  heap vm !! q = Some (ObjString data) ->
  validateArgString (VAR_OBJ q) i vm = Return (true, VAR_OBJ q) vm.
Proof.
  intros Hq. unfold validateArgString, is_string_object. vm_run. reflexivity.
Qed.

Lemma convert_case_string (f : ascii -> ascii) (vm : PKVM) (fb : Fiber)
    (r0 : Var) (q : loc) (rest : list Var) (data : string) :
  fiber vm = Some fb ->
  ret fb = r0 :: VAR_OBJ q :: rest ->
  heap vm !! q = Some (ObjString data) ->
  convert_case f vm
    = Return tt (returned_new vm (ObjString (map_cstring f data))).
Proof.
  intros Hf Hr Hq. unfold convert_case. unfold bind at 1.
  assert (HA : ARG 1 vm = Return (VAR_OBJ q) vm) by (vm_run; reflexivity).
  rewrite HA. unfold bind at 1.
  rewrite (validateArgString_string vm q data 1 Hq). cbn [fst snd negb].
  unfold returned_new, with_result. vm_run.
  rewrite substring_whole.
  rewrite lookup_app_r, Nat.sub_diag by lia. simpl.
  rewrite insert_app_r_alt, Nat.sub_diag by lia. simpl.
  rewrite Hr. reflexivity.
Qed.

(** X4.  [str_lower] and [str_upper] on a String: the result is a new
    String, returned in slot 0, and the argument keeps its bytes.  The result has the length of the argument;
    converting it again changes nothing; and when the argument has no NUL
    byte, the result is the argument with every byte converted. *)
Theorem case_conversion (vm : PKVM) (fb : Fiber) (r0 : Var) (q : loc)
    (rest : list Var) (data : string) :
  fiber vm = Some fb ->
  ret fb = r0 :: VAR_OBJ q :: rest ->
  heap vm !! q = Some (ObjString data) ->
  let lower := map_cstring tolower data in
  let upper := map_cstring toupper data in
  coreStrLower vm = Return tt (returned_new vm (ObjString lower))
  /\ coreStrUpper vm = Return tt (returned_new vm (ObjString upper))
  /\ heap (returned_new vm (ObjString lower)) !! q = Some (ObjString data)
  /\ String.length lower = String.length data
  /\ String.length upper = String.length data
  /\ map_cstring tolower lower = lower
  /\ map_cstring toupper upper = upper
  /\ (NUL_free data ->
      list_ascii_of_string lower = tolower <$> list_ascii_of_string data
      /\ list_ascii_of_string upper = toupper <$> list_ascii_of_string data).
Proof.
  intros Hf Hr Hq lower upper.
  pose proof (lookup_lt_Some _ _ _ Hq) as Hlt.
  repeat split.
  - apply (convert_case_string tolower vm fb r0 q rest data); assumption.
  - apply (convert_case_string toupper vm fb r0 q rest data); assumption.
  - unfold returned_new, with_result. cbn [heap].
    rewrite lookup_app_l by assumption. exact Hq.
  - apply map_cstring_length.
  - apply map_cstring_length.
  - apply map_cstring_idempotent; intros c; apply tolower_facts.
  - apply map_cstring_idempotent; intros c; apply toupper_facts.
  - apply map_cstring_NUL_free; assumption.
  - apply map_cstring_NUL_free; assumption.
Qed.

Lemma leading_spaces_split (l : list ascii) :
  exists pre rest,
    l = pre ++ rest /\ length pre = leading_spaces l
    /\ Forall (fun c => isspace c = true) pre
    /\ (forall c, head rest = Some c -> isspace c = false).
Proof.
  induction l as [|c l (pre & rest & -> & Hlen & Hpre & Hrest)]; cbn.
  - exists [], []. repeat split; [constructor | discriminate].
  - destruct (isspace c) eqn:E.
    + exists (c :: pre), rest. cbn. rewrite Hlen.
      repeat split; [constructor; assumption | assumption].
    + exists [], (c :: pre ++ rest).
      repeat split; [constructor | intros ? [= <-]; assumption].
Qed.

Lemma leading_spaces_app (pre rest : list ascii) :
  Forall (fun c => isspace c = true) pre ->
  (forall c, head rest = Some c -> isspace c = false) ->
  leading_spaces (pre ++ rest) = length pre.
Proof.
  intros Hpre Hrest. induction Hpre as [|c pre Hc _ IH]; cbn.
  - destruct rest as [|c rest]; [reflexivity|].
    cbn. rewrite (Hrest c eq_refl). reflexivity.
  - rewrite Hc, IH. reflexivity.
Qed.

(** Stripping a byte string whose first byte after the leading whitespace
    is a real byte: what is left is the string between the leading and the
    trailing whitespace. *)
Lemma strip_bytes_split (pre mid post : list ascii) (a b : ascii) :
  Forall (fun c => isspace c = true) pre ->
  Forall (fun c => isspace c = true) post ->
  head mid = Some a -> a <> NUL -> isspace a = false ->
  last mid = Some b -> isspace b = false ->
  strip_bytes (pre ++ mid ++ post) = mid.
Proof.
  intros Hpre Hpost Ha Hnul Hsa Hb Hsb. unfold strip_bytes.
  assert (Hstart : leading_spaces (pre ++ mid ++ post) = length pre).
  { apply leading_spaces_app; [assumption|].
    destruct mid as [|x mid]; [discriminate|].
    cbn in *. intros c [= <-]. congruence. }
  destruct mid as [|x mid]; [discriminate|]. cbn in Ha. injection Ha as ->.
  assert (Hend : leading_spaces (rev (pre ++ (a :: mid) ++ post)) = length post).
  { rewrite !rev_app_distr.
    destruct (rev (a :: mid)) as [|y r] eqn:Er.
    - apply (f_equal (@length _)) in Er. rewrite length_rev in Er. discriminate.
    - assert (y = b).
      { apply (f_equal (@rev _)) in Er. rewrite rev_involutive in Er.
        rewrite Er in Hb. cbn in Hb. rewrite last_snoc in Hb. congruence. }
      subst y. rewrite <- !app_assoc, <- (length_rev post).
      apply leading_spaces_app.
      + apply Forall_rev. assumption.
      + cbn. intros c [= <-]. assumption. }
  rewrite Hstart, Hend.
  rewrite lookup_app_r, Nat.sub_diag by lia.
  cbn [app lookup list_lookup].
  destruct (Ascii.eqb_spec a NUL); [contradiction|].
  rewrite drop_app_length.
  change (a :: mid ++ post) with ((a :: mid) ++ post).
  rewrite !length_app.
  replace (length pre + (length (a :: mid) + length post) - length post
           - length pre)%nat with (length (a :: mid)) by lia.
  apply take_app_length.
Qed.

Lemma strip_bytes_spaces (l : list ascii) :
  Forall (fun c => isspace c = true) l -> strip_bytes l = [].
Proof.
  intros H. unfold strip_bytes.
  rewrite <- (app_nil_r l) at 1 2.
  rewrite leading_spaces_app by (assumption || discriminate).
  rewrite app_nil_r, lookup_ge_None_2 by lia. reflexivity.
Qed.

Lemma strip_bytes_NUL (pre rest : list ascii) :
  Forall (fun c => isspace c = true) pre ->
  strip_bytes (pre ++ NUL :: rest) = [].
Proof.
  intros H. unfold strip_bytes.
  rewrite leading_spaces_app by (assumption || (intros c [= <-]; reflexivity)).
  rewrite lookup_app_r, Nat.sub_diag by lia. reflexivity.
Qed.

(** Every byte string splits into leading whitespace, a middle that neither
    starts nor ends with whitespace, and trailing whitespace. *)
Lemma whitespace_split (l : list ascii) :
  exists pre mid post,
    l = pre ++ mid ++ post
    /\ Forall (fun c => isspace c = true) pre
    /\ Forall (fun c => isspace c = true) post
    /\ (forall c, head mid = Some c -> isspace c = false)
    /\ (forall c, last mid = Some c -> isspace c = false).
Proof.
  destruct (leading_spaces_split l) as (pre & rest & -> & _ & Hpre & Hrest).
  destruct (leading_spaces_split (rev rest))
    as (tsop & dim & Hrev & _ & Htsop & Hdim).
  exists pre, (rev dim), (rev tsop).
  assert (Hr : rest = rev dim ++ rev tsop).
  { rewrite <- rev_app_distr, <- Hrev, rev_involutive. reflexivity. }
  split; [rewrite Hr; reflexivity|].
  split; [assumption|].
  split; [apply Forall_rev; assumption|].
  split.
  - intros c Hc. destruct dim as [|d dim]; [discriminate|].
    apply Hrest. rewrite Hr.
    destruct (rev (d :: dim)) as [|y r] eqn:Er; [discriminate|].
    cbn in *. assumption.
  - intros c Hc. apply Hdim. destruct dim as [|d dim]; [discriminate|].
    cbn in Hc. rewrite last_snoc in Hc. exact Hc.
Qed.

Lemma coreStrStrip_string (vm : PKVM) (fb : Fiber) (r0 : Var) (q : loc)
    (rest : list Var) (data : string) :
  fiber vm = Some fb ->
  ret fb = r0 :: VAR_OBJ q :: rest ->
  heap vm !! q = Some (ObjString data) ->
  coreStrStrip vm
    = Return tt (returned_new vm
        (ObjString (string_of_list_ascii
                      (strip_bytes (list_ascii_of_string data))))).
Proof.
  intros Hf Hr Hq. unfold coreStrStrip. unfold bind at 1.
  assert (HA : ARG 1 vm = Return (VAR_OBJ q) vm) by (vm_run; reflexivity).
  rewrite HA. unfold bind at 1.
  rewrite (validateArgString_string vm q data 1 Hq). cbn [fst snd negb].
  unfold returned_new, with_result. vm_run. reflexivity.
Qed.

(** X5.  [str_strip] on a String returns a new String.  When the argument
    has no NUL byte, the result is the argument without its leading and
    trailing whitespace: the argument is whitespace, the result, whitespace,
    and the result neither starts nor ends with whitespace.  When the first
    byte after the leading whitespace is a NUL, the result is empty,
    whatever follows the NUL. *)
Theorem strip_removes_whitespace (vm : PKVM) (fb : Fiber) (r0 : Var) (q : loc)
    (rest : list Var) (data : string) :
  fiber vm = Some fb ->
  ret fb = r0 :: VAR_OBJ q :: rest ->
  heap vm !! q = Some (ObjString data) ->
  let bytes := list_ascii_of_string data in
  let stripped := strip_bytes bytes in
  coreStrStrip vm
    = Return tt (returned_new vm (ObjString (string_of_list_ascii stripped)))
  /\ (NUL_free data ->
      exists pre post,
        bytes = pre ++ stripped ++ post
        /\ Forall (fun c => isspace c = true) pre
        /\ Forall (fun c => isspace c = true) post
        /\ (forall c, head stripped = Some c -> isspace c = false)
        /\ (forall c, last stripped = Some c -> isspace c = false))
  /\ (forall pre after,
        Forall (fun c => isspace c = true) pre ->
        bytes = pre ++ NUL :: after -> stripped = []).
Proof.
  intros Hf Hr Hq bytes stripped. split; [|split].
  - apply (coreStrStrip_string vm fb r0 q rest data); assumption.
  - intros Hfree. subst stripped. unfold NUL_free in Hfree. fold bytes in Hfree.
    destruct (whitespace_split bytes)
      as (pre & mid & post & E & Hpre & Hpost & Hhead & Hlast).
    destruct mid as [|a mid].
    + exists bytes, []. rewrite strip_bytes_spaces.
      * rewrite app_nil_r. repeat split; try discriminate; [|constructor].
        rewrite E. apply Forall_app. split; assumption.
      * rewrite E. apply Forall_app. split; assumption.
    + destruct (last (a :: mid)) as [b|] eqn:Eb.
      2:{ apply last_None in Eb. discriminate. }
      assert (Hs : strip_bytes bytes = a :: mid).
      { rewrite E. apply (strip_bytes_split pre (a :: mid) post a b);
          try assumption; try reflexivity.
        - rewrite E in Hfree. apply Forall_app in Hfree as [_ Hfree].
          apply Forall_app in Hfree as [Hfree _].
          inversion Hfree; assumption.
        - apply Hhead. reflexivity.
        - apply Hlast. reflexivity. }
      exists pre, post. rewrite Hs.
      repeat split; try assumption.
      intros c Hc. apply Hlast. congruence.
  - intros pre after Hpre E. subst stripped. rewrite E.
    apply strip_bytes_NUL. assumption.
Qed.

(** The validator on a value that is not a String: the error is set, and
    the answer is still true. *)
Lemma validateArgString_other (vm : PKVM) (fb : Fiber) (v : Var) (i : Z) :
  fiber vm = Some fb ->
  match v with
  | VAR_OBJ q => exists o, heap vm !! q = Some o /\ obj_type o <> OBJ_STRING
  | _ => True
  end ->
  let index := toString (heap vm) (VAR_NUM (Double.of_Z i)) false in
  validateArgString v i vm
    = Return (true, v)
        (with_error {| heap := heap vm ++ [ObjString index]; fiber := fiber vm |}
           (format "Expected a string at argument @." [index])).
Proof.
  intros Hf Hv index. unfold validateArgString, is_string_object, with_error.
  assert (Hnew : forall o : Object, (heap vm ++ [o]) !! length (heap vm) = Some o).
  { intros o. apply list_lookup_middle. reflexivity. }
  destruct v as [| | b | d | q]; cbn [IS_OBJ].
  1-4: vm_run; rewrite Hnew; vm_run; reflexivity.
  destruct Hv as (o & Hq & Ho).
  vm_run. rewrite bool_decide_eq_false_2 by assumption.
  vm_run. rewrite Hnew. vm_run. reflexivity.
Qed.

(** X6.  [validateArgString] answers true on both of its paths: on a
    String it changes nothing; on any other value it sets the error
    "Expected a string at argument <index>.", the index in the string form
    [toString] gives it, and answers true all the same, handing back the
    value it was given. *)
Theorem validateArgString_answers_true (vm : PKVM) (fb : Fiber) (v : Var)
    (i : Z) :
  fiber vm = Some fb ->
  on_heap (heap vm) v ->
  let index := toString (heap vm) (VAR_NUM (Double.of_Z i)) false in
  validateArgString v i vm
    = Return (true, v)
        (if is_string (heap vm) v then vm
         else with_error (with_new vm (ObjString index))
                ("Expected a string at argument " ++ index ++ ".")%string).
Proof.
  intros Hf Hv index. subst index.
  destruct v as [| | b | d | q]; cbn [is_string].
  1: exact (validateArgString_other vm fb VAR_UNDEF i Hf I).
  1: exact (validateArgString_other vm fb VAR_NULL i Hf I).
  1: exact (validateArgString_other vm fb (VAR_BOOL b) i Hf I).
  1: exact (validateArgString_other vm fb (VAR_NUM d) i Hf I).
  unfold on_heap in Hv. destruct Hv as [o Hq]. unfold loc in *. rewrite Hq.
  destruct o as [data | | | | | | |];
    [ exact (validateArgString_string vm q data i Hq)
    | apply (validateArgString_other vm fb (VAR_OBJ q) i Hf);
      eexists; (split; [exact Hq | discriminate]) .. ].
Qed.

End StringBuiltins.

Lemma case_conversion_witness :
  let vm := vm_of [ObjString "Ab C"] [VAR_NULL; VAR_OBJ 0%nat] in
  NUL_free "Ab C"
  /\ @coreStrLower release_host vm
       = Return tt (returned_new vm (ObjString "ab c"))
  /\ @coreStrUpper release_host vm
       = Return tt (returned_new vm (ObjString "AB C"))
  /\ list_ascii_of_string "ab c" = tolower <$> list_ascii_of_string "Ab C".
Proof.
  intros vm.
  assert (Hfree : NUL_free "Ab C") by (repeat constructor; discriminate).
  split; [exact Hfree|].
  pose proof (@case_conversion release_host vm _ VAR_NULL 0%nat [] "Ab C"
                eq_refl eq_refl eq_refl)
    as (Hlower & Hupper & _ & _ & _ & _ & _ & Hbytes).
  split; [exact Hlower|]. split; [exact Hupper|].
  exact (proj1 (Hbytes Hfree)).
Defined.

Lemma strip_removes_whitespace_witness :
  let vm := vm_of [ObjString "  a b "] [VAR_NULL; VAR_OBJ 0%nat] in
  NUL_free "  a b "
  /\ @coreStrStrip release_host vm
       = Return tt (returned_new vm (ObjString "a b"))
  /\ exists pre post,
       list_ascii_of_string "  a b "
         = (pre ++ list_ascii_of_string "a b" ++ post)%list
       /\ Forall (fun c => isspace c = true) pre
       /\ Forall (fun c => isspace c = true) post.
Proof.
  intros vm.
  assert (Hfree : NUL_free "  a b ") by (repeat constructor; discriminate).
  split; [exact Hfree|].
  pose proof (@strip_removes_whitespace release_host vm _ VAR_NULL 0%nat []
                "  a b " eq_refl eq_refl eq_refl)
    as (Hrun & Hsplit & _).
  split; [exact Hrun|].
  destruct (Hsplit Hfree) as (pre & post & E & Hpre & Hpost & _).
  exists pre, post. repeat split; assumption.
Defined.

Lemma validateArgString_answers_true_witness :
  let vm := vm_of [ObjList []] [VAR_NULL; VAR_OBJ 0%nat] in
  @validateArgString release_host (VAR_OBJ 0%nat) 1 vm
    = Return (true, VAR_OBJ 0%nat)
        (with_error (with_new vm (ObjString "[value]"))
           "Expected a string at argument [value].").
Proof.
  intros vm.
  assert (Hv : on_heap (heap vm) (VAR_OBJ 0%nat)) by (eexists; reflexivity).
  exact (@validateArgString_answers_true release_host vm _ (VAR_OBJ 0%nat) 1
           eq_refl Hv).
Defined.

Section AssertAndOutput.
Context {host : Host}.
Local Open Scope list_scope.

(** [assert] on a falsy condition, with an object that is not a String as
    the message: the message is converted first. *)
Lemma coreAssert_falsy_object (vm : PKVM) (f : Fiber) (r0 cond : Var)
    (q : loc) (o : Object) :
  fiber vm = Some f ->
  ret f = [r0; cond; VAR_OBJ q] ->
  heap vm !! q = Some o ->
  obj_type o <> OBJ_STRING ->
  toBool cond = false ->
  let text := toString (heap vm) (VAR_OBJ q) false in
  coreAssert vm =
    Return tt (with_error (with_new vm (ObjString text))
                 (format "Assertion failed: '@'." [text])).
Proof.
  intros Hf Hr Hq Ho Hc text. unfold coreAssert, ARGC_of, with_error, with_new.
  vm_run. rewrite Hc. vm_run.
  rewrite bool_decide_eq_false_2 by assumption. vm_run.
  rewrite (list_lookup_middle (heap vm) [] _ (length (heap vm)) eq_refl).
  vm_run. reflexivity.
Qed.

(** X7.  [assert]: with a number of arguments other than 1 or 2 it reports
    "Invalid argument count."; on a truthy condition it changes nothing; on
    a falsy one it reports "Assertion failed." when there is no message and
    "Assertion failed: '<text>'." when the message is an object, [text]
    being the bytes of a String and the conversion of any other object.  In
    no case is the return slot written. *)
Theorem coreAssert_cases (vm : PKVM) (f : Fiber) :
  fiber vm = Some f ->
  (ARGC_of f <> 1 -> ARGC_of f <> 2 ->
   coreAssert vm = Return tt (with_error vm "Invalid argument count."))
  /\ (forall r0 cond rest,
        ret f = r0 :: cond :: rest -> (length rest <= 1)%nat ->
        toBool cond = true -> coreAssert vm = Return tt vm)
  /\ (forall r0 cond,
        ret f = [r0; cond] -> toBool cond = false ->
        coreAssert vm = Return tt (with_error vm "Assertion failed."))
  /\ (forall r0 cond q o,
        ret f = [r0; cond; VAR_OBJ q] -> heap vm !! q = Some o ->
        toBool cond = false ->
        coreAssert vm =
          Return tt
            match o with
            | ObjString text =>
                with_error vm ("Assertion failed: '" ++ text ++ "'.")%string
            | _ =>
                let text := toString (heap vm) (VAR_OBJ q) false in
                with_error (with_new vm (ObjString text))
                  ("Assertion failed: '" ++ text ++ "'.")%string
            end).
Proof.
  intros Hf. split; [|split; [|split]].
  - intros H1 H2. apply (coreAssert_arity vm f); assumption.
  - intros r0 cond rest Hr Hn Hc.
    apply (coreAssert_truthy vm f r0 cond rest); assumption.
  - intros r0 cond Hr Hc. apply (coreAssert_falsy vm f r0 cond); assumption.
  - intros r0 cond q o Hr Hq Hc.
    destruct o as [text| | | | | | |];
      [ exact (coreAssert_falsy_string vm f r0 cond q text Hf Hr Hq Hc)
      | apply (coreAssert_falsy_object vm f r0 cond q _ Hf Hr Hq);
        [discriminate | assumption] .. ].
Qed.

Lemma cstring_NUL_free (s : string) : NUL_free s -> cstring s = s.
Proof.
  unfold NUL_free. induction s as [|c s IH]; cbn; [reflexivity|].
  intros H. inversion H as [|? ? Hc Hs]; subst.
  destruct (Ascii.eqb_spec c NUL); [contradiction|].
  rewrite IH by assumption. reflexivity.
Qed.

Lemma printed_string_string (vm : PKVM) (a : Var) (d : string) :
  string_arg (heap vm) a d ->
  (do str <- printed_string a; load_string str) vm = Return d vm.
Proof.
  intros (q & -> & Hq). unfold printed_string, is_string_object.
  vm_run. reflexivity.
Qed.

(** The loop of [print] and [write] over String arguments: the arguments
    from [length pre] on are [args]. *)
Lemma write_args_strings (spaced : bool) (vm : PKVM) (fb : Fiber)
    (args : list Var) (ds : list string) :
  fiber vm = Some fb ->
  Forall2 (string_arg (heap vm)) args ds ->
  forall pre : list Var,
    ret fb = pre ++ args ->
    (1 <= length pre)%nat ->
    write_args spaced (length args) (Z.of_nat (length pre)) vm
      = Return (if spaced
                then separated (Z.of_nat (length pre) =? 1) (cstring <$> ds)
                else cstring <$> ds) vm.
Proof.
  intros Hf Hargs. induction Hargs as [|a d args ds Ha _ IH]; intros pre Hr Hpre.
  - destruct spaced; reflexivity.
  - cbn [length write_args]. unfold bind at 1.
    assert (HA : ARG (Z.of_nat (length pre)) vm = Return a vm).
    { unfold ARG, bind, get_fiber. rewrite Hf.
      assert (E : (Z.of_nat (length pre) <? 0) = false) by lia.
      rewrite E, Nat2Z.id, Hr.
      rewrite (list_lookup_middle pre args a (length pre) eq_refl).
      reflexivity. }
    rewrite HA.
    pose proof (printed_string_string vm a d Ha) as Hp.
    unfold bind in Hp. unfold bind at 1.
    destruct (printed_string a vm) as [str vm1|w]; [|discriminate].
    unfold bind at 1. rewrite Hp.
    specialize (IH (pre ++ [a])).
    rewrite length_app, Nat2Z.inj_add in IH. cbn [length] in IH.
    change (Z.of_nat 1) with 1 in IH.
    unfold bind at 1. rewrite IH; [| rewrite <- app_assoc; exact Hr | lia].
    unfold pure. f_equal.
    assert (E : (Z.of_nat (length pre) + 1 =? 1) = false) by lia.
    rewrite E. destruct spaced; cbn [andb fmap list_fmap separated].
    + destruct (Z.of_nat (length pre) =? 1); reflexivity.
    + reflexivity.
Qed.

(** What the sink has received when the strings of [separated] are
    written one after the other: the strings joined by single spaces. *)
Lemma separated_concat (ds : list string) :
  String.concat "" (separated true ds) = String.concat " " ds.
Proof.
  destruct ds as [|d ds]; [reflexivity|]. cbn [separated app].
  revert d. induction ds as [|e ds IH]; intros d; [reflexivity|].
  cbn [separated app String.concat] in *.
  rewrite <- IH. destruct ds; reflexivity.
Qed.

Lemma string_append_assoc (a b c : string) :
  ((a ++ b) ++ c = a ++ b ++ c)%string.
Proof.
  induction a as [|x a IH]; [reflexivity|].
  change (String x ((a ++ b) ++ c) = String x (a ++ b ++ c))%string.
  f_equal. exact IH.
Qed.

Lemma concat_snoc (l : list string) (x : string) :
  String.concat "" (l ++ [x]) = (String.concat "" l ++ x)%string.
Proof.
  induction l as [|y l IH]; [reflexivity|].
  destruct l as [|z l]; [reflexivity|].
  change (String.concat "" ((y :: z :: l) ++ [x]))
    with (y ++ String.concat "" ((z :: l) ++ [x]))%string.
  rewrite IH.
  change (String.concat "" (y :: z :: l))
    with (y ++ String.concat "" (z :: l))%string.
  rewrite string_append_assoc. reflexivity.
Qed.

(** X8.  [print] and [write] on String arguments hand to the host's sink
    the C string of each argument in order, [print] with a single space
    between two arguments and a newline at the end, [write] with neither;
    the VM is left as it was, and nothing is written when the host set no
    sink. *)
Theorem print_and_write (vm : PKVM) (fb : Fiber) (r0 : Var)
    (args : list Var) (ds : list string) :
  fiber vm = Some fb ->
  ret fb = r0 :: args ->
  Forall2 (string_arg (heap vm)) args ds ->
  let newline := String "010"%char EmptyString in
  corePrint true vm
    = Return (separated true (cstring <$> ds) ++ [newline]) vm
  /\ stdLangWrite true vm = Return (cstring <$> ds) vm
  /\ String.concat "" (separated true (cstring <$> ds) ++ [newline])
     = (String.concat " " (cstring <$> ds) ++ newline)%string
  /\ corePrint false vm = Return [] vm
  /\ stdLangWrite false vm = Return [] vm.
Proof.
  intros Hf Hr Hargs newline.
  assert (Hargc : ARGC vm = Return (Z.of_nat (length args)) vm).
  { unfold ARGC, bind, get_fiber, pure, ARGC_of. rewrite Hf, Hr.
    cbn [length]. f_equal. lia. }
  pose proof (fun spaced =>
    write_args_strings spaced vm fb args ds Hf Hargs [r0] Hr (le_n 1)) as Hw.
  change (Z.of_nat (length [r0])) with 1 in Hw.
  change (1 =? 1) with true in Hw.
  repeat split.
  - unfold corePrint. cbn [negb]. unfold bind at 1.
    rewrite Hargc, Nat2Z.id. unfold bind. rewrite (Hw true). reflexivity.
  - unfold stdLangWrite. cbn [negb]. unfold bind.
    rewrite Hargc, Nat2Z.id. rewrite (Hw false). reflexivity.
  - rewrite <- separated_concat. apply concat_snoc.
Qed.

End AssertAndOutput.

Lemma coreAssert_cases_witness :
  let vm := vm_of [ObjString "why"] [VAR_NULL; VAR_BOOL false; VAR_OBJ 0%nat] in
  @coreAssert release_host vm
    = Return tt (with_error vm "Assertion failed: 'why'.").
Proof.
  intros vm.
  pose proof (@coreAssert_cases release_host vm _ eq_refl) as (_ & _ & _ & H).
  exact (H VAR_NULL (VAR_BOOL false) 0%nat (ObjString "why")
           eq_refl eq_refl eq_refl).
Defined.

Lemma print_and_write_witness :
  let vm := vm_of [ObjString "a"; ObjString "b"]
                  [VAR_NULL; VAR_OBJ 0%nat; VAR_OBJ 1%nat] in
  @corePrint release_host true vm
    = Return ["a"; " "; "b"; String "010"%char EmptyString] vm
  /\ @stdLangWrite release_host true vm = Return ["a"; "b"] vm.
Proof.
  intros vm.
  assert (Hargs : Forall2 (string_arg (heap vm))
                    [VAR_OBJ 0%nat; VAR_OBJ 1%nat] ["a"; "b"]).
  { repeat constructor; eexists; (split; [reflexivity|reflexivity]). }
  pose proof (@print_and_write release_host vm _ VAR_NULL _ _
                eq_refl eq_refl Hargs) as (Hprint & Hwrite & _).
  split; [exact Hprint | exact Hwrite].
Defined.

(** [strncmp] over the [length] bytes of an identifier that holds no NUL
    byte is the comparison of the identifier with the name. *)
Lemma strncmp_eq_spec (name : string) :
  forall text : string,
    (String.length name <= String.length text)%nat ->
    NUL_free (substring 0 (String.length name) text) ->
    strncmp_eq text name (String.length name)
      = bool_decide (substring 0 (String.length name) text = name).
Proof.
  induction name as [|c2 r2 IH]; intros text Hlen Hfree.
  - destruct text; reflexivity.
  - destruct text as [|c1 r1]; [cbn in Hlen; lia|].
    cbn [String.length strncmp_eq substring] in *.
    unfold NUL_free in Hfree. cbn in Hfree.
    inversion Hfree as [|? ? Hc Hr]; subst.
    destruct (Ascii.eqb_spec c1 NUL) as [|_]; [contradiction|].
    rewrite IH by (assumption || lia). cbn [orb].
    destruct (Ascii.eqb_spec c1 c2) as [->|Hne]; cbn [andb].
    + destruct (decide (substring 0 (String.length r2) r1 = r2)) as [E|E].
      * rewrite !bool_decide_eq_true_2; congruence.
      * rewrite !bool_decide_eq_false_2; congruence.
    + rewrite bool_decide_eq_false_2; congruence.
Qed.

Lemma findBuiltinFunction_from_spec (builtins : list BuiltinFn) (text : string)
    (len : nat) :
  (len <= String.length text)%nat ->
  NUL_free (substring 0 len text) ->
  Forall (fun b => bfn_length b = Z.of_nat (String.length (bfn_name b)))
         builtins ->
  forall i : Z,
    findBuiltinFunction_from i builtins text (Z.of_nat len)
      = match list_find (fun b => bfn_name b = substring 0 len text) builtins with
        | Some (j, _) => i + Z.of_nat j
        | None => -1
        end.
Proof.
  intros Hlen Hfree Hall. induction Hall as [|b rest Hb _ IH]; intros i.
  - reflexivity.
  - cbn [findBuiltinFunction_from list_find]. rewrite Hb, Nat2Z.id.
    destruct (Z.of_nat len =? Z.of_nat (String.length (bfn_name b))) eqn:E1;
      cbn [andb].
    + assert (Hl : len = String.length (bfn_name b)) by lia.
      rewrite Hl at 1.
      rewrite strncmp_eq_spec by (rewrite <- Hl; assumption || lia).
      rewrite <- Hl.
      destruct (decide (bfn_name b = substring 0 len text)) as [E|E].
      * rewrite bool_decide_eq_true_2 by congruence. cbn. lia.
      * rewrite bool_decide_eq_false_2 by congruence.
        rewrite IH. destruct (list_find _ rest) as [[j x]|]; cbn; lia.
    + destruct (decide (bfn_name b = substring 0 len text)) as [E|E].
      * exfalso. apply Z.eqb_neq in E1. apply E1. f_equal. rewrite E.
        clear -Hlen. revert text Hlen.
        induction len as [|n IHn]; intros [|c text] H; cbn in *;
          try reflexivity; try lia.
        rewrite <- IHn by lia. reflexivity.
      * rewrite IH. destruct (list_find _ rest) as [[j x]|]; cbn; lia.
Qed.

(** X9.  [findBuiltinFunction] returns the index of the first entry of the
    table whose name is the identifier (the first [len] bytes of the text
    at the pointer), and -1 when there is none; the bytes of the text after
    the identifier play no part. *)
Theorem findBuiltinFunction_first (builtins : list BuiltinFn) (text : string)
    (len : nat) :
  (len <= String.length text)%nat ->
  NUL_free (substring 0 len text) ->
  Forall (fun b => bfn_length b = Z.of_nat (String.length (bfn_name b)))
         builtins ->
  findBuiltinFunction builtins text (Z.of_nat len)
    = match list_find (fun b => bfn_name b = substring 0 len text) builtins with
      | Some (j, _) => Z.of_nat j
      | None => -1
      end.
Proof.
  intros Hlen Hfree Hall. unfold findBuiltinFunction.
  rewrite (findBuiltinFunction_from_spec builtins text len Hlen Hfree Hall 0).
  destruct (list_find _ builtins) as [[j x]|]; lia.
Qed.

Lemma findBuiltinFunction_first_witness :
  findBuiltinFunction core_builtins "print(1)" 5 = 13
  /\ findBuiltinFunction core_builtins "printf" 6 = -1.
Proof.
  assert (Hall : Forall (fun b => bfn_length b
                                  = Z.of_nat (String.length (bfn_name b)))
                        core_builtins)
    by (repeat constructor).
  split.
  - assert (Hfree : NUL_free (substring 0 5 "print(1)"))
      by (repeat constructor; discriminate).
    exact (findBuiltinFunction_first core_builtins "print(1)" 5
             ltac:(cbn; lia) Hfree Hall).
  - assert (Hfree : NUL_free (substring 0 6 "printf"))
      by (repeat constructor; discriminate).
    exact (findBuiltinFunction_first core_builtins "printf" 6
             ltac:(cbn; lia) Hfree Hall).
Defined.

(** *** More on integers in binary64: products, order, division by zero *)

Module DoubleArith.
Import Double DoubleFacts.

Lemma SFint_mantissa (P : Z) :
  0 < P < 2 ^ 53 ->
  Z.pos (Z.to_pos (P * 2 ^ (52 - Z.log2 P))) = P * 2 ^ (52 - Z.log2 P).
Proof.
  intros HP. pose proof (mantissa_bounds P HP). rewrite Z2Pos.id; lia.
Qed.

Theorem SFmul_canon (a b : Z) :
  Z.abs a < 2 ^ 53 -> Z.abs b < 2 ^ 53 -> Z.abs (a * b) < 2 ^ 53 ->
  (a * b = 0 -> 0 <= a /\ 0 <= b) ->
  SFmul prec emax (SFcanon a) (SFcanon b) = SFcanon (a * b).
Proof.
  intros Ba Bb Bab Hz. unfold SFcanon.
  destruct (Z.eqb_spec a 0) as [-> | Ha].
  - destruct (Z.eqb_spec b 0) as [-> | Hb]; [reflexivity|].
    cbn [Z.mul Z.eqb]. unfold SFint. cbn [SFmul xorb].
    replace (b <? 0) with false by lia. reflexivity.
  - destruct (Z.eqb_spec b 0) as [-> | Hb].
    + rewrite Z.mul_0_r. cbn [Z.eqb]. unfold SFint. cbn [SFmul].
      replace (a <? 0) with false by lia. reflexivity.
    + replace (a * b =? 0) with false by (symmetry; apply Z.eqb_neq; nia).
      assert (HPa : 0 < Z.abs a < 2 ^ 53) by lia.
      assert (HPb : 0 < Z.abs b < 2 ^ 53) by lia.
      pose proof (log2_bounds _ HPa) as La.
      pose proof (log2_bounds _ HPb) as Lb.
      assert (HP : 0 < Z.abs a * Z.abs b < 2 ^ 53)
        by (rewrite <- Z.abs_mul; nia).
      pose proof (log2_bounds _ HP) as LP.
      pose proof (Z.log2_mul_below (Z.abs a) (Z.abs b) ltac:(lia) ltac:(lia))
        as Hbelow.
      pose proof (mantissa_bounds _ HP) as HM.
      unfold SFint at 1 2. cbn [SFmul].
      rewrite Pos2Z.inj_mul, !SFint_mantissa by assumption.
      set (lP := Z.log2 (Z.abs a * Z.abs b)) in *.
      set (la := Z.log2 (Z.abs a)) in *.
      set (lb := Z.log2 (Z.abs b)) in *.
      replace (Z.abs a * 2 ^ (52 - la) * (Z.abs b * 2 ^ (52 - lb)))
        with (Z.abs a * Z.abs b * 2 ^ (52 - lP) * 2 ^ (lP + 52 - la - lb)).
      2:{ rewrite <- !Z.mul_assoc. f_equal.
          rewrite (Z.mul_comm (2 ^ (52 - la))), <- !Z.mul_assoc. f_equal.
          rewrite <- !Z.pow_add_r by lia. f_equal. lia. }
      replace (la - 52 + (lb - 52)) with (lP - 52 - (lP + 52 - la - lb)) by lia.
      rewrite binary_round_aux_exact by lia.
      unfold SFint. rewrite Z.abs_mul. fold lP. f_equal.
      destruct (Z.ltb_spec a 0), (Z.ltb_spec b 0), (Z.ltb_spec (a * b) 0);
        try reflexivity; nia.
Qed.

Theorem of_Z_mul (a b : Z) :
  Z.abs a < 2 ^ 53 -> Z.abs b < 2 ^ 53 -> Z.abs (a * b) < 2 ^ 53 ->
  (a * b = 0 -> 0 <= a /\ 0 <= b) ->
  (of_Z a * of_Z b)%float = of_Z (a * b).
Proof.
  intros Ba Bb Bab Hz. apply Prim2SF_inj.
  rewrite FloatAxioms.mul_spec, !Prim2SF_of_Z by assumption.
  apply SFmul_canon; assumption.
Qed.

Theorem of_Z_ltb (a b : Z) :
  Z.abs a < 2 ^ 53 -> Z.abs b < 2 ^ 53 ->
  (of_Z a <? of_Z b)%float = (a <? b).
Proof.
  intros Ba Bb. rewrite FloatAxioms.ltb_spec, !Prim2SF_of_Z by assumption.
  unfold SFltb. rewrite SFcompare_canon by assumption.
  destruct (Z.compare_spec a b), (Z.ltb_spec a b); try reflexivity; lia.
Qed.

(** The quotient of an integer by zero: an infinity of the sign of the
    dividend, and NaN for 0/0. *)
Theorem of_Z_div_zero (a : Z) :
  Z.abs a < 2 ^ 53 ->
  (of_Z a / of_Z 0)%float
    = if a =? 0 then PrimFloat.nan
      else if a <? 0 then PrimFloat.neg_infinity else PrimFloat.infinity.
Proof.
  intros Ba. apply Prim2SF_inj.
  rewrite FloatAxioms.div_spec, !Prim2SF_of_Z by (assumption || (cbn; lia)).
  unfold SFcanon at 2. cbn [Z.eqb].
  unfold SFcanon. destruct (Z.eqb_spec a 0) as [-> | Ha]; [reflexivity|].
  unfold SFint. cbn [SFdiv xorb].
  destruct (a <? 0); reflexivity.
Qed.

Lemma zero_of_Z : PrimFloat.zero = of_Z 0.
Proof. reflexivity. Qed.

End DoubleArith.

Section NumericOperators.
Context {host : Host}.

(** An integer operand is numeric, and read as the double of its integer. *)
Lemma int_value_numeric (v : Var) (z : Z) :
  int_value v z ->
  isNumeric v = Some (Double.of_Z z) /\ Z.abs z < 2 ^ 53.
Proof.
  destruct 1 as [z Hz | b].
  - split; [reflexivity | assumption].
  - split; [destruct b; reflexivity | destruct b; cbn; lia].
Qed.

(** X10.  With a numeric left operand and a right operand that is neither
    a Number nor a Bool, each of the five arithmetic operators reports
    "Right operand must be a numeric value." and returns Null; nothing else
    of the VM changes. *)
Theorem right_operand_not_numeric (op : ArithOp) (v1 v2 : Var) (vm : PKVM)
    (fb : Fiber) :
  fiber vm = Some fb ->
  is_Some (isNumeric v1) ->
  isNumeric v2 = None ->
  arith op v1 v2 vm
    = Return VAR_NULL (with_error vm "Right operand must be a numeric value.").
Proof.
  intros Hf [d1 H1] H2.
  destruct op; cbn [arith];
    unfold varAdd, varSubtract, varMultiply, varDivide, varModulo;
    rewrite H1; unfold numeric_branch, validateNumeric, with_error;
    rewrite H2; vm_run; reflexivity.
Qed.

(** X11.  On operands that hold integers (a Bool counting as 1 or 0), the
    operators [+], [-] and [*] return the Number of the integer sum,
    difference and product whenever that result is below 2^53 in
    magnitude (a zero product, when neither operand is negative); they set
    no error and leave the VM as it was. *)
Theorem integer_arithmetic (v1 v2 : Var) (a b : Z) (vm : PKVM) :
  int_value v1 a -> int_value v2 b ->
  (Z.abs (a + b) < 2 ^ 53 -> varAdd v1 v2 vm = Return (num (a + b)) vm)
  /\ (Z.abs (a - b) < 2 ^ 53 ->
      varSubtract v1 v2 vm = Return (num (a - b)) vm)
  /\ (Z.abs (a * b) < 2 ^ 53 -> (a * b = 0 -> 0 <= a /\ 0 <= b) ->
      varMultiply v1 v2 vm = Return (num (a * b)) vm).
Proof.
  intros H1 H2.
  destruct (int_value_numeric v1 a H1) as [E1 Ba].
  destruct (int_value_numeric v2 b H2) as [E2 Bb].
  unfold varAdd, varSubtract, varMultiply, numeric_branch, validateNumeric, num.
  rewrite E1, E2. cbn [bind pure].
  repeat split; intros; unfold bind, pure; do 2 f_equal.
  - apply DoubleFacts.of_Z_add; assumption.
  - apply DoubleFacts.of_Z_sub; assumption.
  - apply DoubleArith.of_Z_mul; assumption.
Qed.

(** X12.  On operands that hold integers, [>] and [<] answer as the
    integers compare; they set no error and leave the VM as it was. *)
Theorem integer_comparison (v1 v2 : Var) (a b : Z) (vm : PKVM) :
  int_value v1 a -> int_value v2 b ->
  varGreater v1 v2 vm = Return (b <? a) vm
  /\ varLesser v1 v2 vm = Return (a <? b) vm.
Proof.
  intros H1 H2.
  destruct (int_value_numeric v1 a H1) as [E1 Ba].
  destruct (int_value_numeric v2 b H2) as [E2 Bb].
  unfold varGreater, varLesser. rewrite E1, E2. unfold pure.
  rewrite !DoubleArith.of_Z_ltb by assumption. split; reflexivity.
Qed.

(** X13.  Division of an integer by zero is no error: [/] returns the
    infinity of the sign of the dividend, and NaN for 0/0, and leaves the
    VM as it was. *)
Theorem division_by_zero (v1 v2 : Var) (a : Z) (vm : PKVM) :
  int_value v1 a -> int_value v2 0 ->
  varDivide v1 v2 vm
    = Return (VAR_NUM (if a =? 0 then PrimFloat.nan
                       else if a <? 0 then PrimFloat.neg_infinity
                            else PrimFloat.infinity)) vm.
Proof.
  intros H1 H2.
  destruct (int_value_numeric v1 a H1) as [E1 Ba].
  destruct (int_value_numeric v2 0 H2) as [E2 _].
  unfold varDivide, numeric_branch, validateNumeric.
  rewrite E1, E2. unfold bind, pure. do 2 f_equal.
  apply DoubleArith.of_Z_div_zero. assumption.
Qed.

End NumericOperators.

Lemma right_operand_not_numeric_witness :
  @varMultiply release_host (VAR_BOOL true) VAR_NULL (vm_of [] [VAR_NULL])
    = Return VAR_NULL
        (with_error (vm_of [] [VAR_NULL])
           "Right operand must be a numeric value.").
Proof.
  apply (@right_operand_not_numeric release_host OpMul (VAR_BOOL true)
           VAR_NULL (vm_of [] [VAR_NULL]) _ eq_refl);
    [eexists; reflexivity | reflexivity].
Defined.

Lemma integer_arithmetic_witness :
  let vm := vm_of [] [VAR_NULL] in
  @varAdd release_host (num 40) (VAR_BOOL true) vm = Return (num 41) vm
  /\ @varSubtract release_host (num 40) (num 42) vm = Return (num (-2)) vm
  /\ @varMultiply release_host (num (-6)) (num 7) vm = Return (num (-42)) vm.
Proof.
  intros vm.
  assert (H40 : int_value (num 40) 40) by (constructor; cbn; lia).
  assert (H42 : int_value (num 42) 42) by (constructor; cbn; lia).
  assert (H6 : int_value (num (-6)) (-6)) by (constructor; cbn; lia).
  assert (H7 : int_value (num 7) 7) by (constructor; cbn; lia).
  split; [|split].
  - apply (proj1 (@integer_arithmetic release_host _ _ 40 1 vm H40
                    (int_value_bool true))). cbn; lia.
  - apply (proj1 (proj2 (@integer_arithmetic release_host _ _ 40 42 vm
                           H40 H42))). cbn; lia.
  - apply (proj2 (proj2 (@integer_arithmetic release_host _ _ (-6) 7 vm
                           H6 H7))); [cbn; lia | intros; lia].
Defined.

Lemma integer_comparison_witness :
  let vm := vm_of [] [VAR_NULL] in
  @varGreater release_host (num 3) (VAR_BOOL true) vm = Return true vm
  /\ @varLesser release_host (num 3) (VAR_BOOL true) vm = Return false vm.
Proof.
  intros vm.
  assert (H3 : int_value (num 3) 3) by (constructor; cbn; lia).
  exact (@integer_comparison release_host _ _ 3 1 vm H3 (int_value_bool true)).
Defined.

Lemma division_by_zero_witness :
  let vm := vm_of [] [VAR_NULL] in
  @varDivide release_host (num (-1)) (VAR_BOOL false) vm
    = Return (VAR_NUM PrimFloat.neg_infinity) vm.
Proof.
  intros vm.
  assert (H1 : int_value (num (-1)) (-1)) by (constructor; cbn; lia).
  exact (@division_by_zero release_host _ _ (-1) vm H1 (int_value_bool false)).
Defined.

Section SubscriptEdges.
Context {host : Host}.

(** The integer validation on an operand that holds an [int32_t]. *)
Lemma validateIngeger_int (v : Var) (i : Z) (name : string) (vm : PKVM) :
  int_value v i ->
  Double.INT32_MIN <= i <= Double.INT32_MAX ->
  validateIngeger v name vm = Return (Some i) vm.
Proof.
  intros Hv Hi. destruct (int_value_numeric v i Hv) as [E Hb].
  unfold validateIngeger. rewrite E.
  rewrite DoubleFacts.trunc_of_Z, DoubleFacts.of_Z_eqb, Z.eqb_refl,
    DoubleFacts.to_int32_of_Z by assumption.
  reflexivity.
Qed.

(** The integer validation on anything else. *)
Lemma validateIngeger_refuses (key : Var) (name : string) (vm : PKVM)
    (fb : Fiber) :
  fiber vm = Some fb ->
  not_an_integer key ->
  validateIngeger key name vm
    = Return None (with_error vm (format "$ must be an integer." [name])).
Proof.
  intros Hf Hk. unfold validateIngeger, not_an_integer, with_error in *.
  destruct (isNumeric key) as [d|].
  - rewrite Hk. unfold integer_error. vm_run. reflexivity.
  - unfold integer_error. vm_run. reflexivity.
Qed.

Lemma validateIndex_inside (i size : Z) (container : string) (vm : PKVM) :
  0 <= i < size -> validateIndex i size container vm = Return true vm.
Proof.
  intros Hi. unfold validateIndex.
  replace ((i <? 0) || (size <=? i)) with false
    by (symmetry; apply orb_false_iff; lia).
  reflexivity.
Qed.

Lemma validateIndex_outside (i size : Z) (container : string) (vm : PKVM)
    (fb : Fiber) :
  fiber vm = Some fb ->
  ~ (0 <= i < size) ->
  validateIndex i size container vm
    = Return false (with_error vm (format "$ index out of range." [container])).
Proof.
  intros Hf Hi. unfold validateIndex, with_error.
  replace ((i <? 0) || (size <=? i)) with true
    by (symmetry; apply orb_true_iff; lia).
  vm_run. reflexivity.
Qed.

(** How the subscript operators start on an object. *)
Ltac on_object Hp :=
  unfold varGetSubscript, varsetSubscript; cbn [IS_OBJ negb];
  unfold bind at 1 2; cbn [AS_OBJ pure]; unfold load; rewrite Hp.

(** X14.  Subscripting a value that is not an object, for reading or for
    writing, reports "<type> type is not subscriptable." and changes
    nothing else; the read returns Null. *)
Theorem subscript_of_primitive (on key value : Var) (vm : PKVM) (fb : Fiber) :
  fiber vm = Some fb ->
  IS_OBJ on = false ->
  let vm' := with_error vm (varTypeName (heap vm) on
                            ++ " type is not subscriptable.") in
  varGetSubscript on key vm = Return VAR_NULL vm'
  /\ varsetSubscript on key value vm = Return tt vm'.
Proof.
  intros Hf Hon vm'. subst vm'.
  unfold varGetSubscript, varsetSubscript, not_subscriptable, with_error.
  rewrite Hon. vm_run. split; reflexivity.
Qed.

(** X15.  Subscripts of a String: reading at an integer index inside the
    String returns a new one-byte String holding that byte; reading outside
    reports "String index out of range." and returns Null; writing reports
    "String objects are immutable." whatever the key; in each case the
    String itself is as it was. *)
Theorem string_subscript (vm : PKVM) (fb : Fiber) (p : loc) (data : string)
    (key value : Var) (i : Z) :
  fiber vm = Some fb ->
  heap vm !! p = Some (ObjString data) ->
  Z.of_nat (String.length data) <= Double.INT32_MAX ->
  int_value key i ->
  Double.INT32_MIN <= i <= Double.INT32_MAX ->
  (if (0 <=? i) && (i <? Z.of_nat (String.length data))
   then let byte := substring (Z.to_nat i) 1 data in
        varGetSubscript (VAR_OBJ p) key vm
          = Return (VAR_OBJ (length (heap vm))) (with_new vm (ObjString byte))
        /\ String.length byte = 1%nat
   else varGetSubscript (VAR_OBJ p) key vm
          = Return VAR_NULL (with_error vm "String index out of range."))
  /\ (forall k : Var,
        let vm' := with_error vm "String objects are immutable." in
        varsetSubscript (VAR_OBJ p) k value vm = Return tt vm'
        /\ heap vm' !! p = Some (ObjString data)).
Proof.
  intros Hf Hp Hlen Hkey Hi.
  pose proof (lookup_lt_Some _ _ _ Hp) as Hlt.
  split.
  - destruct ((0 <=? i) && (i <? Z.of_nat (String.length data))) eqn:Hin.
    + apply andb_true_iff in Hin as [H0 H1].
      apply Z.leb_le in H0. apply Z.ltb_lt in H1. split.
      * on_object Hp. unfold bind at 1.
        rewrite (validateIngeger_int key i) by assumption.
        rewrite int32_of_count by assumption.
        unfold bind at 1. rewrite validateIndex_inside by lia.
        reflexivity.
      * assert (Hn : (Z.to_nat i < String.length data)%nat) by lia.
        clear -Hn. revert Hn. generalize (Z.to_nat i) as n.
        induction data as [|c data IH]; intros n Hn; cbn in Hn; [lia|].
        destruct n as [|n]; cbn [substring String.length].
        -- destruct data; reflexivity.
        -- apply IH. lia.
    + on_object Hp. unfold bind at 1.
      rewrite (validateIngeger_int key i) by assumption.
      rewrite int32_of_count by assumption.
      unfold bind at 1.
      rewrite (validateIndex_outside _ _ _ _ fb) by
        (try assumption; apply andb_false_iff in Hin; lia).
      reflexivity.
  - intros k vm'. subst vm'. split.
    + on_object Hp. unfold with_error. vm_run. reflexivity.
    + unfold with_error. cbn [heap]. rewrite lookup_app_l by assumption.
      exact Hp.
Qed.

(** X16.  Reading a List at an integer index (a Bool counting as 1 or 0):
    inside the List the element is returned and the VM is as it was;
    outside, negative indices included, the read reports "List index out of
    range." and returns Null. *)
Theorem list_subscript_get (vm : PKVM) (fb : Fiber) (p : loc)
    (elems : list Var) (key : Var) (i : Z) :
  fiber vm = Some fb ->
  heap vm !! p = Some (ObjList elems) ->
  Z.of_nat (length elems) <= Double.INT32_MAX ->
  int_value key i ->
  Double.INT32_MIN <= i <= Double.INT32_MAX ->
  varGetSubscript (VAR_OBJ p) key vm
    = match (if 0 <=? i then elems !! Z.to_nat i else None) with
      | Some x => Return x vm
      | None => Return VAR_NULL (with_error vm "List index out of range.")
      end.
Proof.
  intros Hf Hp Hlen Hkey Hi.
  on_object Hp. unfold bind at 1.
  rewrite (validateIngeger_int key i) by assumption.
  rewrite int32_of_count by assumption.
  unfold bind at 1.
  destruct (Z.leb_spec 0 i) as [H0|H0].
  - destruct (elems !! Z.to_nat i) as [x|] eqn:Ex.
    + pose proof (lookup_lt_Some _ _ _ Ex).
      rewrite validateIndex_inside by lia. reflexivity.
    + apply lookup_ge_None in Ex.
      rewrite (validateIndex_outside _ _ _ _ fb) by (assumption || lia).
      reflexivity.
  - rewrite (validateIndex_outside _ _ _ _ fb) by (assumption || lia).
    reflexivity.
Qed.

(** X17.  A subscript of a List or String that is not an integer (not
    numeric, or a Number with a fractional part) is refused with "List
    index must be an integer.", for a String as for a List; the read
    returns Null, the write stores nothing. *)
Theorem subscript_not_an_integer (vm : PKVM) (fb : Fiber) (p : loc)
    (obj : Object) (key value : Var) :
  fiber vm = Some fb ->
  heap vm !! p = Some obj ->
  not_an_integer key ->
  let vm' := with_error vm "List index must be an integer." in
  match obj with
  | ObjList _ =>
      varGetSubscript (VAR_OBJ p) key vm = Return VAR_NULL vm'
      /\ varsetSubscript (VAR_OBJ p) key value vm = Return tt vm'
      /\ heap vm' !! p = Some obj
  | ObjString _ => varGetSubscript (VAR_OBJ p) key vm = Return VAR_NULL vm'
  | _ => True
  end.
Proof.
  intros Hf Hp Hkey vm'. subst vm'.
  pose proof (lookup_lt_Some _ _ _ Hp) as Hlt.
  destruct obj as [data | elems | | | | | |]; try exact I.
  - on_object Hp. unfold bind at 1.
    rewrite (validateIngeger_refuses key _ vm fb) by assumption.
    reflexivity.
  - repeat split.
    + on_object Hp. unfold bind at 1.
      rewrite (validateIngeger_refuses key _ vm fb) by assumption.
      reflexivity.
    + on_object Hp. unfold bind at 1.
      rewrite (validateIngeger_refuses key _ vm fb) by assumption.
      reflexivity.
    + unfold with_error. cbn [heap]. rewrite lookup_app_l by assumption.
      exact Hp.
Qed.

(** X18.  A write to [l[i]] inside a List changes that element only: the
    List keeps its length and its other elements, every other object of the
    heap is as it was, and neither the fiber nor the error channel is
    touched. *)
Theorem list_write_frame (vm : PKVM) (p : loc) (elems : list Var)
    (key value : Var) (i : Z) :
  heap vm !! p = Some (ObjList elems) ->
  Z.of_nat (length elems) <= Double.INT32_MAX ->
  int_value key i ->
  0 <= i < Z.of_nat (length elems) ->
  exists elems',
    varsetSubscript (VAR_OBJ p) key value vm
      = Return tt (with_object vm p (ObjList elems'))
    /\ length elems' = length elems
    /\ elems' !! Z.to_nat i = Some value
    /\ (forall j, j <> Z.to_nat i -> elems' !! j = elems !! j)
    /\ (forall q, q <> p ->
          heap (with_object vm p (ObjList elems')) !! q = heap vm !! q)
    /\ fiber (with_object vm p (ObjList elems')) = fiber vm.
Proof.
  intros Hp Hlen Hkey Hi.
  exists (<[Z.to_nat i := value]> elems). split; [|repeat split].
  - on_object Hp. unfold bind at 1.
    rewrite (validateIngeger_int key i)
      by (assumption || (unfold Double.INT32_MIN, Double.INT32_MAX in *; lia)).
    rewrite int32_of_count by assumption.
    unfold bind at 1. rewrite validateIndex_inside by lia.
    reflexivity.
  - apply length_insert.
  - apply list_lookup_insert_eq. lia.
  - intros j Hj. apply list_lookup_insert_ne. congruence.
  - intros q Hq. unfold with_object. cbn [heap].
    apply list_lookup_insert_ne. congruence.
Qed.

(** X19.  Reading a Map: a key that [mapGet] finds yields its value and
    leaves the VM as it was; a key that it does not find yields Null and an
    error built from the key's string form, "Invalid key '<key>'." when the
    key is an object that is not hashable and "Key '<key>' not exists"
    otherwise. *)
Theorem map_subscript_get (vm : PKVM) (fb : Fiber) (p : loc) (m : Map)
    (key : Var) :
  fiber vm = Some fb ->
  heap vm !! p = Some (ObjMap m) ->
  on_heap (heap vm) key ->
  let text := toString (heap vm) key true in
  varGetSubscript (VAR_OBJ p) key vm
    = if IS_UNDEF (mapGet m key)
      then Return VAR_NULL
             (with_error (with_new vm (ObjString text))
                (if IS_OBJ key && negb (is_string (heap vm) key)
                 then "Invalid key '" ++ text ++ "'."
                 else "Key '" ++ text ++ "' not exists"))
      else Return (mapGet m key) vm.
Proof.
  intros Hf Hp Hkey text. subst text.
  pose proof (lookup_lt_Some _ _ _ Hp) as Hlt.
  on_object Hp.
  destruct (IS_UNDEF (mapGet m key)); [|reflexivity].
  unfold key_not_hashable, with_error, with_new.
  assert (Hnew : forall o : Object,
            (heap vm ++ [o])%list !! length (heap vm) = Some o).
  { intros o. apply list_lookup_middle. reflexivity. }
  destruct key as [| | b | d | q]; cbn [IS_OBJ andb];
    try (vm_run; rewrite Hnew; vm_run; reflexivity).
  destruct Hkey as [o Hq]. pose proof (lookup_lt_Some _ _ _ Hq) as Hltq.
  cbn [is_string]. unfold loc in *. rewrite Hq.
  vm_run. rewrite Hnew. vm_run.
  rewrite lookup_app_l by assumption. rewrite Hq.
  destruct o; vm_run; reflexivity.
Qed.

(** X20.  Subscripting a Range, a Script, a Function, a Fiber or a UserObj
    never returns, for reading or for writing: the code runs into its TODO
    placeholder and then into UNREACHABLE. *)
Theorem subscript_unsupported (vm : PKVM) (p : loc) (obj : Object)
    (key value : Var) :
  heap vm !! p = Some obj ->
  obj_type obj <> OBJ_STRING -> obj_type obj <> OBJ_LIST ->
  obj_type obj <> OBJ_MAP ->
  let stop := if TODO_aborts then AbortTODO else AbortUnreachable in
  varGetSubscript (VAR_OBJ p) key vm = Abort stop
  /\ varsetSubscript (VAR_OBJ p) key value vm = Abort stop.
Proof.
  intros Hp Hs Hl Hm stop. subst stop.
  destruct obj; try contradiction;
    (split; on_object Hp; unfold TODO, UNREACHABLE, bind, crash, pure;
     destruct TODO_aborts; reflexivity).
Qed.

End SubscriptEdges.

Lemma subscript_of_primitive_witness :
  let vm := vm_of [] [VAR_NULL] in
  @varGetSubscript release_host VAR_NULL (num 0) vm
    = Return VAR_NULL (with_error vm "Null type is not subscriptable.")
  /\ @varsetSubscript release_host (VAR_BOOL true) (num 0) VAR_NULL vm
     = Return tt (with_error vm "Bool type is not subscriptable.").
Proof.
  intros vm. split.
  - exact (proj1 (@subscript_of_primitive release_host VAR_NULL (num 0)
                    VAR_NULL vm _ eq_refl eq_refl)).
  - exact (proj2 (@subscript_of_primitive release_host (VAR_BOOL true) (num 0)
                    VAR_NULL vm _ eq_refl eq_refl)).
Defined.

Lemma string_subscript_witness :
  let vm := vm_of [ObjString "abc"] [VAR_NULL] in
  @varGetSubscript release_host (VAR_OBJ 0%nat) (num 1) vm
    = Return (VAR_OBJ 1%nat) (with_new vm (ObjString "b"))
  /\ @varGetSubscript release_host (VAR_OBJ 0%nat) (num 3) vm
     = Return VAR_NULL (with_error vm "String index out of range.")
  /\ @varsetSubscript release_host (VAR_OBJ 0%nat) (num 1) (num 0) vm
     = Return tt (with_error vm "String objects are immutable.").
Proof.
  intros vm.
  assert (H1 : int_value (num 1) 1) by (constructor; cbn; lia).
  assert (H3 : int_value (num 3) 3) by (constructor; cbn; lia).
  assert (Hlen : Z.of_nat (String.length "abc") <= Double.INT32_MAX)
    by (cbn; unfold Double.INT32_MAX; lia).
  assert (R1 : Double.INT32_MIN <= 1 <= Double.INT32_MAX)
    by (unfold Double.INT32_MIN, Double.INT32_MAX; lia).
  assert (R3 : Double.INT32_MIN <= 3 <= Double.INT32_MAX)
    by (unfold Double.INT32_MIN, Double.INT32_MAX; lia).
  pose proof (@string_subscript release_host vm _ 0%nat "abc" (num 1) (num 0) 1
                eq_refl eq_refl Hlen H1 R1) as [Hin Hset].
  pose proof (@string_subscript release_host vm _ 0%nat "abc" (num 3) (num 0) 3
                eq_refl eq_refl Hlen H3 R3) as [Hout _].
  split; [exact (proj1 Hin)|]. split; [exact Hout|].
  exact (proj1 (Hset (num 1))).
Defined.

Lemma list_subscript_get_witness :
  let vm := vm_of [ObjList [num 7; num 8]] [VAR_NULL] in
  @varGetSubscript release_host (VAR_OBJ 0%nat) (VAR_BOOL true) vm
    = Return (num 8) vm
  /\ @varGetSubscript release_host (VAR_OBJ 0%nat) (num (-1)) vm
     = Return VAR_NULL (with_error vm "List index out of range.").
Proof.
  intros vm.
  assert (Hm : int_value (num (-1)) (-1)) by (constructor; cbn; lia).
  assert (Hlen : Z.of_nat (length [num 7; num 8]) <= Double.INT32_MAX)
    by (cbn; unfold Double.INT32_MAX; lia).
  assert (R1 : Double.INT32_MIN <= 1 <= Double.INT32_MAX)
    by (unfold Double.INT32_MIN, Double.INT32_MAX; lia).
  assert (Rm : Double.INT32_MIN <= -1 <= Double.INT32_MAX)
    by (unfold Double.INT32_MIN, Double.INT32_MAX; lia).
  split.
  - exact (@list_subscript_get release_host vm _ 0%nat _ (VAR_BOOL true) 1
             eq_refl eq_refl Hlen (int_value_bool true) R1).
  - exact (@list_subscript_get release_host vm _ 0%nat _ (num (-1)) (-1)
             eq_refl eq_refl Hlen Hm Rm).
Defined.

Lemma subscript_not_an_integer_witness :
  let vm := vm_of [ObjString "abc"] [VAR_NULL] in
  not_an_integer (VAR_NUM 0.5%float)
  /\ @varGetSubscript release_host (VAR_OBJ 0%nat) (VAR_NUM 0.5%float) vm
     = Return VAR_NULL (with_error vm "List index must be an integer.").
Proof.
  intros vm.
  assert (Hk : not_an_integer (VAR_NUM 0.5%float)) by (vm_compute; reflexivity).
  split; [exact Hk|].
  exact (@subscript_not_an_integer release_host vm _ 0%nat (ObjString "abc")
           (VAR_NUM 0.5%float) VAR_NULL eq_refl eq_refl Hk).
Defined.

Lemma list_write_frame_witness :
  let vm := vm_of [ObjList [num 7; num 8]] [VAR_NULL] in
  exists elems',
    @varsetSubscript release_host (VAR_OBJ 0%nat) (num 1) VAR_NULL vm
      = Return tt (with_object vm 0%nat (ObjList elems'))
    /\ elems' !! 0%nat = Some (num 7).
Proof.
  intros vm.
  assert (H1 : int_value (num 1) 1) by (constructor; cbn; lia).
  assert (Hlen : Z.of_nat (length [num 7; num 8]) <= Double.INT32_MAX)
    by (cbn; unfold Double.INT32_MAX; lia).
  destruct (@list_write_frame release_host vm 0%nat [num 7; num 8] (num 1)
              VAR_NULL 1 eq_refl Hlen H1 ltac:(cbn; lia))
    as (elems' & Hrun & _ & _ & Hframe & _).
  exists elems'. split; [exact Hrun|].
  rewrite (Hframe 0%nat) by discriminate. reflexivity.
Defined.

Lemma map_subscript_get_witness :
  let m := {| entries := [ {| key := VAR_BOOL true; value := num 5 |} ] |} in
  let vm := vm_of [ObjMap m] [VAR_NULL] in
  @varGetSubscript release_host (VAR_OBJ 0%nat) (VAR_BOOL true) vm
    = Return (num 5) vm
  /\ @varGetSubscript release_host (VAR_OBJ 0%nat) VAR_NULL vm
     = Return VAR_NULL
         (with_error (with_new vm (ObjString "null")) "Key 'null' not exists").
Proof.
  intros m vm. split.
  - exact (@map_subscript_get release_host vm _ 0%nat m (VAR_BOOL true)
             eq_refl eq_refl I).
  - exact (@map_subscript_get release_host vm _ 0%nat m VAR_NULL
             eq_refl eq_refl I).
Defined.

Lemma subscript_unsupported_witness :
  let r := ObjRange {| from := 0%float; to := 1%float |} in
  @varGetSubscript release_host (VAR_OBJ 0%nat) (num 0) (vm_of [r] [VAR_NULL])
    = Abort AbortUnreachable
  /\ @varGetSubscript debug_host (VAR_OBJ 0%nat) (num 0) (vm_of [r] [VAR_NULL])
     = Abort AbortTODO.
Proof.
  intros r. split.
  - apply (@subscript_unsupported release_host (vm_of [r] [VAR_NULL]) 0%nat r
             (num 0) VAR_NULL eq_refl); discriminate.
  - apply (@subscript_unsupported debug_host (vm_of [r] [VAR_NULL]) 0%nat r
             (num 0) VAR_NULL eq_refl); discriminate.
Defined.

Section IterationEdges.
Context {host : Host}.

(** X21.  Null, Bool and Number are not iterable: [varIterate] reports
    "Null is not iterable.", "Boolenan is not iterable." or "Number is not
    iterable.", answers false, sets the value cell to Null and leaves the
    iterator cell as it was. *)
Theorem primitives_not_iterable (seq s v : Var) (n : Z) (vm : PKVM)
    (fb : Fiber) :
  fiber vm = Some fb ->
  resumes_at s n ->
  IS_OBJ seq = false -> seq <> VAR_UNDEF ->
  varIterate seq s v vm
    = Return (false, s, VAR_NULL)
        (with_error vm
           match seq with
           | VAR_NULL => "Null is not iterable."
           | VAR_BOOL _ => "Boolenan is not iterable."
           | _ => "Number is not iterable."
           end).
Proof.
  intros Hf Hs Hobj Hundef. unfold varIterate. unfold bind at 1.
  rewrite (iterator_checks_ok s n vm Hs). rewrite Hobj. cbn [negb].
  unfold with_error.
  destruct seq as [| | b | d | q]; try discriminate; try contradiction;
    vm_run; reflexivity.
Qed.

(** A whole iteration over a List, from any state of the protocol. *)
Lemma list_iteration_from (p : loc) (elems : list Var) (vm : PKVM) :
  heap vm !! p = Some (ObjList elems) ->
  Z.of_nat (length elems) <= Double.INT32_MAX ->
  forall (calls : nat) (s : Var) (k : nat),
    resumes_at s (Z.of_nat k) ->
    (length elems - k < calls)%nat ->
    iterate_from calls (VAR_OBJ p) s vm = Return (Some (drop k elems)) vm.
Proof.
  intros Hp Hlen. induction calls as [|calls IH]; intros s k Hs Hcalls; [lia|].
  rewrite iterate_from_step. unfold bind at 1.
  rewrite (varIterate_object p _ s VAR_NULL (Z.of_nat k) vm Hp Hs).
  rewrite Nat2Z.id.
  destruct (Z.leb_spec (Z.of_nat (length elems)) (Z.of_nat k)) as [Hend|Hin].
  - rewrite drop_ge by lia. reflexivity.
  - destruct (elems !! k) as [x|] eqn:Ex.
    2:{ apply lookup_ge_None in Ex. lia. }
    assert (Hs' : resumes_at (num (Z.of_nat k + 1)) (Z.of_nat (S k))).
    { rewrite Nat2Z.inj_succ. constructor. lia. }
    unfold bind at 1. rewrite (IH _ (S k) Hs') by lia.
    unfold pure. cbn [option_map].
    rewrite (drop_S elems x k Ex). reflexivity.
Qed.

(** X22.  Driving [varIterate] over a List from the initial state Null
    yields exactly the elements of the List, in order, and then stops; the
    VM is as it was. *)
Theorem list_iteration (p : loc) (elems : list Var) (vm : PKVM) (calls : nat) :
  heap vm !! p = Some (ObjList elems) ->
  Z.of_nat (length elems) <= Double.INT32_MAX ->
  (length elems < calls)%nat ->
  iterate_from calls (VAR_OBJ p) VAR_NULL vm = Return (Some elems) vm.
Proof.
  intros Hp Hlen Hcalls.
  exact (list_iteration_from p elems vm Hp Hlen calls VAR_NULL 0%nat
           resumes_at_null ltac:(lia)).
Qed.

Lemma byte_strings_step (data : string) (k : nat) :
  (k < String.length data)%nat ->
  byte_strings data k
    = ObjString (substring k 1 data) :: byte_strings data (S k).
Proof.
  intros Hk. unfold byte_strings.
  replace (String.length data - k)%nat with (S (String.length data - S k))
    by lia.
  reflexivity.
Qed.

(** A whole iteration over a String, from any state of the protocol. *)
Lemma string_iteration_from (p : loc) (data : string) :
  Z.of_nat (String.length data) <= Double.INT32_MAX ->
  forall (calls : nat) (s : Var) (k : nat) (vm : PKVM),
    heap vm !! p = Some (ObjString data) ->
    resumes_at s (Z.of_nat k) ->
    (String.length data - k < calls)%nat ->
    iterate_from calls (VAR_OBJ p) s vm
      = Return (Some ((fun j => VAR_OBJ (length (heap vm) + j)%nat)
                        <$> seq 0 (String.length data - k)))
          {| heap := heap vm ++ byte_strings data k; fiber := fiber vm |}.
Proof.
  intros Hlen. induction calls as [|calls IH]; intros s k vm Hp Hs Hcalls; [lia|].
  pose proof (lookup_lt_Some _ _ _ Hp) as Hlt.
  rewrite iterate_from_step. unfold bind at 1.
  rewrite (varIterate_object p _ s VAR_NULL (Z.of_nat k) vm Hp Hs).
  rewrite Nat2Z.id.
  destruct (Z.leb_spec (Z.of_nat (String.length data)) (Z.of_nat k))
    as [Hend|Hin].
  - unfold byte_strings.
    replace (String.length data - k)%nat with 0%nat by lia.
    cbn [seq fmap list_fmap]. rewrite app_nil_r.
    destruct vm; reflexivity.
  - assert (Hs' : resumes_at (num (Z.of_nat k + 1)) (Z.of_nat (S k))).
    { rewrite Nat2Z.inj_succ. constructor. lia. }
    unfold bind at 1.
    rewrite (IH _ (S k) _) ; [| | exact Hs' | lia].
    2:{ cbn [heap]. rewrite lookup_app_l by assumption. exact Hp. }
    unfold pure. cbn [option_map heap fiber].
    rewrite (byte_strings_step data k) by lia.
    replace (String.length data - k)%nat with (S (String.length data - S k))
      by lia.
    cbn [seq fmap list_fmap]. rewrite <- fmap_S_seq, <- list_fmap_compose.
    rewrite <- app_assoc. cbn [app].
    rewrite Nat.add_0_r, length_app. cbn [length].
    f_equal. f_equal. f_equal.
    apply list_fmap_ext. intros _ j _. cbn. f_equal. lia.
Qed.

(** X23.  Driving [varIterate] over a String from the initial state Null
    yields one new one-byte String for each byte, in order: the values are
    the addresses following the heap, and the heap is extended by exactly
    these Strings, every earlier object being as it was. *)
Theorem string_iteration (p : loc) (data : string) (vm : PKVM) (calls : nat) :
  heap vm !! p = Some (ObjString data) ->
  Z.of_nat (String.length data) <= Double.INT32_MAX ->
  (String.length data < calls)%nat ->
  iterate_from calls (VAR_OBJ p) VAR_NULL vm
    = Return (Some ((fun j => VAR_OBJ (length (heap vm) + j)%nat)
                      <$> seq 0 (String.length data)))
        {| heap := heap vm ++ byte_strings data 0; fiber := fiber vm |}.
Proof.
  intros Hp Hlen Hcalls.
  pose proof (string_iteration_from p data Hlen calls VAR_NULL 0%nat vm Hp
                resumes_at_null ltac:(lia)) as H.
  rewrite Nat.sub_0_r in H. exact H.
Qed.

(** X24.  A call of [varIterate] on an object that answers false has
    changed nothing: the iterator cell, the value cell and the VM are as
    they were, so the end of an iteration is stable under further calls. *)
Theorem iteration_end_is_stable (p : loc) (obj : Object) (s v s' v' : Var)
    (n : Z) (vm vm' : PKVM) :
  heap vm !! p = Some obj ->
  resumes_at s n ->
  varIterate (VAR_OBJ p) s v vm = Return (false, s', v') vm' ->
  (s' = s /\ v' = v /\ vm' = vm)
  /\ varIterate (VAR_OBJ p) s' v' vm' = Return (false, s', v') vm'.
Proof.
  intros Hp Hs H.
  assert (Hflag : forall (b : bool) x y w,
            Return (b, x, y) w = Return (false, s', v') vm' -> b = false).
  { intros b x y w E.
    exact (f_equal (fun o => match o with
                             | Return (c, _, _) _ => c
                             | Abort _ => false
                             end) E). }
  assert (Hno : varIterate (VAR_OBJ p) s v vm = Return (false, s, v) vm).
  { rewrite (varIterate_object p obj s v n vm Hp Hs) in H |- *.
    destruct obj as [data | elems | m | r | | | |].
    - destruct (Z.of_nat (String.length data) <=? n); [reflexivity|].
      discriminate (Hflag _ _ _ _ H).
    - destruct (Z.of_nat (length elems) <=? n); [reflexivity|].
      destruct (elems !! Z.to_nat n);
        [discriminate (Hflag _ _ _ _ H) | discriminate H].
    - cbv zeta in *.
      destruct (capacity m <=? next_valid_key _ n); [reflexivity|].
      destruct (entries m !! _);
        [discriminate (Hflag _ _ _ _ H) | discriminate H].
    - cbv zeta in *. destruct (from r =? to r)%float; [reflexivity|].
      destruct (_ =? to r)%float; [reflexivity|].
      discriminate (Hflag _ _ _ _ H).
    - destruct TODO_aborts; discriminate H.
    - destruct TODO_aborts; discriminate H.
    - destruct TODO_aborts; discriminate H.
    - destruct TODO_aborts; discriminate H. }
  rewrite Hno in H.
  assert (Es : s = s')
    by exact (f_equal (fun o => match o with
                                | Return (_, x, _) _ => x
                                | Abort _ => s
                                end) H).
  assert (Ev : v = v')
    by exact (f_equal (fun o => match o with
                                | Return (_, _, y) _ => y
                                | Abort _ => v
                                end) H).
  assert (Evm : vm = vm')
    by exact (f_equal (fun o => match o with
                                | Return _ w => w
                                | Abort _ => vm
                                end) H).
  subst s' v' vm'. repeat split. exact Hno.
Qed.

End IterationEdges.

Lemma primitives_not_iterable_witness :
  let vm := vm_of [] [VAR_NULL] in
  @varIterate release_host (VAR_BOOL true) VAR_NULL (num 9) vm
    = Return (false, VAR_NULL, VAR_NULL)
        (with_error vm "Boolenan is not iterable.").
Proof.
  intros vm.
  apply (@primitives_not_iterable release_host (VAR_BOOL true) VAR_NULL
           (num 9) 0 vm _ eq_refl resumes_at_null eq_refl).
  discriminate.
Defined.

Lemma list_iteration_witness :
  let vm := vm_of [ObjList [num 7; VAR_NULL; num 8]] [VAR_NULL] in
  @iterate_from release_host 4 (VAR_OBJ 0%nat) VAR_NULL vm
    = Return (Some [num 7; VAR_NULL; num 8]) vm.
Proof.
  intros vm.
  apply (@list_iteration release_host 0%nat [num 7; VAR_NULL; num 8] vm 4
           eq_refl).
  - cbn. unfold Double.INT32_MAX. lia.
  - cbn. lia.
Defined.

Lemma string_iteration_witness :
  let vm := vm_of [ObjString "ab"] [VAR_NULL] in
  @iterate_from release_host 3 (VAR_OBJ 0%nat) VAR_NULL vm
    = Return (Some [VAR_OBJ 1%nat; VAR_OBJ 2%nat])
        {| heap := [ObjString "ab"; ObjString "a"; ObjString "b"];
           fiber := fiber vm |}.
Proof.
  intros vm.
  apply (@string_iteration release_host 0%nat "ab" vm 3 eq_refl).
  - cbn. unfold Double.INT32_MAX. lia.
  - cbn. lia.
Defined.

Lemma iteration_end_is_stable_witness :
  let vm := vm_of [ObjList [num 7]] [VAR_NULL] in
  @varIterate release_host (VAR_OBJ 0%nat) (num 1) (num 7) vm
    = Return (false, num 1, num 7) vm.
Proof.
  intros vm.
  assert (H1 : resumes_at (num 1) 1) by (constructor; unfold Double.INT32_MAX; lia).
  assert (Hrun : @varIterate release_host (VAR_OBJ 0%nat) (num 1) (num 7) vm
                 = Return (false, num 1, num 7) vm) by reflexivity.
  exact (proj2 (@iteration_end_is_stable release_host 0%nat (ObjList [num 7])
                  (num 1) (num 7) (num 1) (num 7) 1 vm vm eq_refl H1 Hrun)).
Defined.

Section NativeApiChecks.

(** X25.  The API calls that read an argument assert that a fiber is
    running and fail the assertion, in every build, when none is; the calls
    that write the return slot make no such check and follow the null
    pointer. *)
Theorem native_api_without_fiber (vm : PKVM) (arg : Z) (value : float)
    (v : Var) :
  fiber vm = None ->
  pkGetArgc vm = Abort AbortAssert
  /\ pkGetArgNumber arg value vm = Abort AbortAssert
  /\ pkGetArgBool arg vm = Abort AbortAssert
  /\ pkReturnValue v vm = Abort AbortUndefined
  /\ pkReturnNull vm = Abort AbortUndefined.
Proof.
  intros Hf.
  unfold pkGetArgc, pkGetArgNumber, pkGetArgBool, pkReturnValue, pkReturnNull.
  vm_unfold. rewrite Hf. repeat split.
Qed.

(** The argument getters run the assertions first, then read the slot. *)
Lemma getters_check_first (arg : Z) (value : float) (vm : PKVM) :
  pkGetArgBool arg vm
    = (run CHECK_GET_ARG_API_ERRORS arg;
       do val <- ARG arg; pure (true, toBool val)) vm
  /\ pkGetArgNumber arg value vm
     = (run CHECK_GET_ARG_API_ERRORS arg;
        do val <- ARG arg;
        match val with
        | VAR_NUM d => pure (true, d)
        | VAR_BOOL b => pure (true, if b then PrimFloat.one else PrimFloat.zero)
        | _ => run ERR_INVALID_ARG_TYPE "number" arg; pure (false, value)
        end) vm.
Proof.
  unfold pkGetArgBool, pkGetArgNumber, CHECK_GET_ARG_API_ERRORS, ARGC,
    get_fiber, __ASSERT, bind, pure, crash.
  cbv beta.
  destruct (fiber vm) as [f|] eqn:Hf.
  - rewrite bool_decide_eq_true_2 by (eexists; reflexivity).
    cbv beta iota. rewrite Hf. cbv beta iota.
    destruct ((0 <? arg) || (arg <? ARGC_of f)); cbv beta iota;
      split; reflexivity.
  - rewrite bool_decide_eq_false_2 by (intros [x Hx]; discriminate Hx).
    split; reflexivity.
Qed.

(** X26.  The index assertion that the argument getters run first, [arg >
    0 || arg < ARGC], fails exactly when [ARGC <= arg <= 0].  So it holds
    for every positive index, however far beyond the last argument; and it
    holds for index 0 when there is an argument, where the getter then
    reads the return slot as an argument. *)
Theorem argument_index_unchecked (vm : PKVM) (f : Fiber) (arg : Z)
    (value : float) :
  fiber vm = Some f ->
  (pkGetArgBool arg vm
     = (run CHECK_GET_ARG_API_ERRORS arg;
        do val <- ARG arg; pure (true, toBool val)) vm)
  /\ CHECK_GET_ARG_API_ERRORS arg vm
     = (if (arg <=? 0) && (ARGC_of f <=? arg)
        then Abort AbortAssert else Return tt vm)
  /\ (0 < arg -> CHECK_GET_ARG_API_ERRORS arg vm = Return tt vm)
  /\ (forall r0 rest, ret f = r0 :: rest -> 0 < ARGC_of f ->
      pkGetArgBool 0 vm = Return (true, toBool r0) vm).
Proof.
  intros Hf.
  assert (Hcheck : CHECK_GET_ARG_API_ERRORS arg vm
                   = (if (arg <=? 0) && (ARGC_of f <=? arg)
                      then Abort AbortAssert else Return tt vm)).
  { unfold CHECK_GET_ARG_API_ERRORS, ARGC, get_fiber, __ASSERT, bind, pure,
      crash.
    cbv beta. rewrite Hf.
    rewrite bool_decide_eq_true_2 by (eexists; reflexivity).
    cbv beta iota. rewrite Hf. cbv beta iota.
    destruct (Z.ltb_spec 0 arg), (Z.ltb_spec arg (ARGC_of f)),
      (Z.leb_spec arg 0), (Z.leb_spec (ARGC_of f) arg);
      try reflexivity; lia. }
  split; [exact (proj1 (getters_check_first arg value vm))|].
  split; [exact Hcheck|]. split.
  - intros Hpos. rewrite Hcheck.
    replace (arg <=? 0) with false by lia. reflexivity.
  - intros r0 rest Hr Hargc.
    assert (E : (0 <? ARGC_of f) = true) by lia.
    unfold pkGetArgBool. revert Hr. vm_run. rewrite E.
    intros Hr. vm_run. reflexivity.
Qed.

End NativeApiChecks.

Lemma native_api_without_fiber_witness :
  let vm := {| heap := []; fiber := None |} in
  pkGetArgBool 1 vm = Abort AbortAssert
  /\ pkReturnNull vm = Abort AbortUndefined.
Proof.
  intros vm.
  pose proof (native_api_without_fiber vm 1 0%float VAR_NULL eq_refl)
    as (_ & _ & Hget & _ & Hret).
  split; [exact Hget | exact Hret].
Defined.

Lemma argument_index_unchecked_witness :
  let vm := vm_of [] [VAR_NULL; VAR_BOOL true] in
  CHECK_GET_ARG_API_ERRORS 5 vm = Return tt vm
  /\ pkGetArgBool 0 vm = Return (true, false) vm.
Proof.
  intros vm.
  pose proof (argument_index_unchecked vm _ 5 0%float eq_refl)
    as (_ & _ & Hpos & _).
  pose proof (argument_index_unchecked vm _ 0 0%float eq_refl)
    as (_ & _ & _ & Hzero).
  split; [exact (Hpos eq_refl)|].
  exact (Hzero VAR_NULL [VAR_BOOL true] eq_refl eq_refl).
Defined.

(** X27.  Every builtin that [initializeCore] registers is found again by
    its own name, at the index it was registered at: no name of the table
    shadows another. *)
Theorem builtins_found_by_name (i : nat) (b : BuiltinFn) :
  core_builtins !! i = Some b ->
  findBuiltinFunction core_builtins (bfn_name b) (bfn_length b) = Z.of_nat i.
Proof.
  intros Hb.
  do 17 (destruct i as [|i];
         [injection Hb as <-; vm_compute; reflexivity|]).
  discriminate Hb.
Qed.

Lemma builtins_found_by_name_witness :
  findBuiltinFunction core_builtins "str_strip" 9 = 16.
Proof.
  exact (builtins_found_by_name 16 (INITALIZE_BUILTIN_FN "str_strip" 1) eq_refl).
Defined.

Section AttributeAccess.
Context {host : Host}.
Variable script_get_attrib : loc -> loc -> M Var.
Variable script_set_attrib : loc -> loc -> Var -> M unit.

Lemma cstring_whole (s : string) :
  String.length (cstring s) = String.length s -> cstring s = s.
Proof.
  induction s as [|c s IH]; cbn [cstring String.length]; [reflexivity|].
  destruct (Ascii.eqb c NUL); cbn [String.length]; [discriminate|].
  intros [= H]. rewrite IH by exact H. reflexivity.
Qed.

(** The test [IS_ATTRIB("length")] holds for the attribute [length] only. *)
Lemma IS_ATTRIB_length (name : string) :
  IS_ATTRIB name "length" = bool_decide (name = "length").
Proof.
  unfold IS_ATTRIB. change (cstring "length") with "length".
  destruct (decide (name = "length")) as [-> | Hne].
  - reflexivity.
  - rewrite bool_decide_eq_false_2 by assumption.
    destruct (Nat.eqb_spec (String.length name) (String.length "length"))
      as [Hlen|]; [|reflexivity].
    destruct (String.eqb_spec "length" (cstring name)) as [E|]; [|reflexivity].
    exfalso. apply Hne. rewrite <- (cstring_whole name); [congruence|].
    rewrite <- E. symmetry. exact Hlen.
Qed.

Ltac on_attribute Hp :=
  unfold varGetAttrib, varSetAttrib; cbn [IS_OBJ negb];
  unfold bind at 1 2; cbn [AS_OBJ pure]; unfold load; rewrite Hp.

(** X28.  The attribute [length] of a String or a List reads as the Number
    of its length, the VM being left as it was, and cannot be written: the
    write reports "'length' attribute is immutable." and the object is as
    it was. *)
Theorem length_attribute (vm : PKVM) (fb : Fiber) (p a : loc) (obj : Object)
    (n : nat) (value : Var) :
  fiber vm = Some fb ->
  heap vm !! p = Some obj ->
  heap vm !! a = Some (ObjString "length") ->
  object_length obj = Some n ->
  let vm' := with_error vm "'length' attribute is immutable." in
  varGetAttrib script_get_attrib (VAR_OBJ p) a vm
    = Return (num (Z.of_nat n)) vm
  /\ varSetAttrib script_set_attrib (VAR_OBJ p) a value vm = Return tt vm'
  /\ heap vm' !! p = Some obj.
Proof.
  intros Hf Hp Ha Hn vm'. subst vm'.
  pose proof (lookup_lt_Some _ _ _ Hp) as Hlt.
  pose proof (IS_ATTRIB_length "length") as Hattr.
  rewrite bool_decide_eq_true_2 in Hattr by reflexivity.
  unfold num. rewrite <- DoubleFacts.of_uint32_of_Z by lia.
  destruct obj as [data | elems | | | | | |]; try discriminate;
    injection Hn as <-; (split; [|split]).
  1,4: on_attribute Hp; unfold load_string, load, bind; rewrite Ha;
       cbn [pure]; rewrite Hattr; reflexivity.
  1,3: on_attribute Hp; unfold ATTRIB_IMMUTABLE, with_error;
       unfold load_string, load; unfold bind at 1 2 3; rewrite Ha;
       cbn [pure]; rewrite Hattr; vm_run; reflexivity.
  1,2: unfold with_error; cbn [heap]; rewrite lookup_app_l by assumption;
       exact Hp.
Qed.

(** X29.  Any other attribute of a String or a List, read or written, and
    every attribute written on a Range, a Function or a Fiber, is reported
    as "'<type>' objects has no attribute named '<name>'"; the read returns
    Null and nothing is stored. *)
Theorem unknown_attribute (vm : PKVM) (fb : Fiber) (p a : loc) (obj : Object)
    (name : string) (value : Var) :
  fiber vm = Some fb ->
  heap vm !! p = Some obj ->
  heap vm !! a = Some (ObjString name) ->
  let vm' := no_attribute vm (VAR_OBJ p) name in
  (is_Some (object_length obj) -> name <> "length" ->
   varGetAttrib script_get_attrib (VAR_OBJ p) a vm = Return VAR_NULL vm'
   /\ varSetAttrib script_set_attrib (VAR_OBJ p) a value vm = Return tt vm')
  /\ (obj_type obj = OBJ_RANGE \/ obj_type obj = OBJ_FUNC
      \/ obj_type obj = OBJ_FIBER ->
      varSetAttrib script_set_attrib (VAR_OBJ p) a value vm = Return tt vm')
  /\ heap vm' !! p = Some obj.
Proof.
  intros Hf Hp Ha vm'. subst vm'.
  pose proof (lookup_lt_Some _ _ _ Hp) as Hlt.
  assert (Herr : ERR_NO_ATTRIB (VAR_OBJ p) a vm
                 = Return tt (no_attribute vm (VAR_OBJ p) name)).
  { unfold ERR_NO_ATTRIB, no_attribute, with_error. vm_run. reflexivity. }
  split; [|split].
  - intros [n Hn] Hname.
    pose proof (IS_ATTRIB_length name) as Hattr.
    rewrite bool_decide_eq_false_2 in Hattr by assumption.
    destruct obj as [data | elems | | | | | |]; try discriminate; split.
    1,3: on_attribute Hp; unfold load_string, load; unfold bind at 1 2;
         rewrite Ha; cbn [pure]; rewrite Hattr; unfold bind;
         rewrite Herr; reflexivity.
    1,2: on_attribute Hp; unfold ATTRIB_IMMUTABLE;
         unfold load_string, load; unfold bind at 1 2 3; rewrite Ha;
         cbn [pure]; rewrite Hattr; exact Herr.
  - intros Hkind.
    destruct obj; destruct Hkind as [H | [H | H]]; try discriminate H;
      on_attribute Hp; exact Herr.
  - unfold no_attribute, with_error. cbn [heap].
    rewrite lookup_app_l by assumption. exact Hp.
Qed.

(** X30.  An attribute of a value that is not an object: the read and the
    write report "<type> type is not subscriptable.", the message of the
    subscript operators, and change nothing else; the attribute is not
    looked at. *)
Theorem attribute_of_primitive (on value : Var) (a : loc) (vm : PKVM)
    (fb : Fiber) :
  fiber vm = Some fb ->
  IS_OBJ on = false ->
  let vm' := with_error vm (varTypeName (heap vm) on
                            ++ " type is not subscriptable.") in
  varGetAttrib script_get_attrib on a vm = Return VAR_NULL vm'
  /\ varSetAttrib script_set_attrib on a value vm = Return tt vm'.
Proof.
  intros Hf Hon vm'. subst vm'.
  unfold varGetAttrib, varSetAttrib, not_subscriptable, with_error.
  rewrite Hon. vm_run. split; reflexivity.
Qed.

End AttributeAccess.

Lemma length_attribute_witness :
  let vm := vm_of [ObjString "abc"; ObjString "length"] [VAR_NULL] in
  @varGetAttrib release_host (fun _ _ => crash AbortUndefined)
     (VAR_OBJ 0%nat) 1%nat vm
    = Return (num 3) vm
  /\ @varSetAttrib release_host (fun _ _ _ => crash AbortUndefined)
       (VAR_OBJ 0%nat) 1%nat (num 5) vm
     = Return tt (with_error vm "'length' attribute is immutable.").
Proof.
  intros vm.
  pose proof (@length_attribute release_host (fun _ _ => crash AbortUndefined)
                (fun _ _ _ => crash AbortUndefined) vm _ 0%nat 1%nat
                (ObjString "abc") 3%nat (num 5)
                eq_refl eq_refl eq_refl eq_refl) as (Hget & Hset & _).
  split; [exact Hget | exact Hset].
Defined.

Lemma unknown_attribute_witness :
  let vm := vm_of [ObjList []; ObjString "size"] [VAR_NULL] in
  @varGetAttrib release_host (fun _ _ => crash AbortUndefined)
     (VAR_OBJ 0%nat) 1%nat vm
    = Return VAR_NULL
        (with_error vm "'List' objects has no attribute named 'size'").
Proof.
  intros vm.
  pose proof (@unknown_attribute release_host (fun _ _ => crash AbortUndefined)
                (fun _ _ _ => crash AbortUndefined) vm _ 0%nat 1%nat
                (ObjList []) "size" VAR_NULL eq_refl eq_refl eq_refl)
    as (Hlist & _ & _).
  refine (proj1 (Hlist _ _)); [eexists; reflexivity | discriminate].
Defined.

Lemma attribute_of_primitive_witness :
  let vm := vm_of [ObjString "length"] [VAR_NULL] in
  @varGetAttrib release_host (fun _ _ => crash AbortUndefined)
     (num 1) 0%nat vm
    = Return VAR_NULL (with_error vm "Number type is not subscriptable.").
Proof.
  intros vm.
  exact (proj1 (@attribute_of_primitive release_host
                  (fun _ _ => crash AbortUndefined)
                  (fun _ _ _ => crash AbortUndefined)
                  (num 1) VAR_NULL 0%nat vm _ eq_refl eq_refl)).
Defined.
